(** * whathifi / builddb.py: a shallow embedding and its verified properties

    The program scrapes a paginated review listing, extracts one record per
    article (name, price, rating, specification map), stores the records in a
    MongoDB collection and prints aggregate statistics.

    Modelling choices, following [builddb.py]:
    - a Python 2 [str] is a [string] of 8-bit characters;
    - Python [int]/[long] values are [Z]; Python [float] arithmetic is IEEE
      binary64, modelled by the kernel's primitive floats, and so is the
      arithmetic of the JavaScript map functions, whose Numbers are binary64;
    - the network is a function from a URL to the document served there
      ([None] when [urllib2.urlopen] raises);
    - the collection is the list of its documents in insertion order;
    - exceptions are explicit: an effectful function returns the new world
      together with either a value or the exception raised;
    - the [while True] loop of the page generator is bounded by a fuel
      argument, with a distinguished out-of-fuel outcome. *)

From Stdlib Require Import ZArith List Ascii String Bool Lia.
From Stdlib Require Import DecimalString.
From Stdlib Require Import QArith Qround.
From Stdlib Require Import PrimFloat Uint63 SpecFloat FloatOps FloatAxioms.
From stdpp Require Import gmap strings.

Import ListNotations.
Local Open Scope string_scope.
Local Open Scope list_scope.

(* ===================================================================== *)
(** ** Characters and strings as Python 2 sees them *)
(* ===================================================================== *)

Module Text.

(** The double-quote character, and a one-character string. *)
Definition dquote_char : ascii := "034"%char.
Definition str1 (c : ascii) : string := String c EmptyString.
Definition dquote : string := str1 dquote_char.

(** [c.isdigit()] / the regex class [\d] on 8-bit strings: '0'..'9'. *)
Definition is_digit (c : ascii) : bool :=
  let n := nat_of_ascii c in (48 <=? n)%nat && (n <=? 57)%nat.

(** The regex class [\s] and [str.strip()]'s whitespace:
    space, \t, \n, \v, \f, \r. *)
Definition is_space (c : ascii) : bool :=
  let n := nat_of_ascii c in
  (n =? 32)%nat || ((9 <=? n)%nat && (n <=? 13)%nat).

(** ASCII lower-casing, as [re.I] applies it to 8-bit patterns. *)
Definition lower (c : ascii) : ascii :=
  let n := nat_of_ascii c in
  if (65 <=? n)%nat && (n <=? 90)%nat then ascii_of_nat (n + 32) else c.

Definition ci_eqb (a b : ascii) : bool := Ascii.eqb (lower a) (lower b).

(** [s.startswith(p)] returning the remainder of [s] after [p]. *)
Fixpoint strip_prefix (p s : string) : option string :=
  match p, s with
  | EmptyString, _ => Some s
  | String a p', String b s' =>
      if Ascii.eqb a b then strip_prefix p' s' else None
  | String _ _, EmptyString => None
  end.

(** The same, comparing characters case-insensitively (a literal of a
    pattern compiled with [re.I]). *)
Fixpoint lit_ci (p s : string) : option string :=
  match p, s with
  | EmptyString, _ => Some s
  | String a p', String b s' =>
      if ci_eqb a b then lit_ci p' s' else None
  | String _ _, EmptyString => None
  end.

(** A greedy run of characters of a class: the run and what follows. *)
Fixpoint span (P : ascii -> bool) (s : string) : string * string :=
  match s with
  | EmptyString => (EmptyString, EmptyString)
  | String c s' =>
      if P c then let '(r, t) := span P s' in (String c r, t)
      else (EmptyString, s)
  end.

Definition all_chars (P : ascii -> bool) (s : string) : bool :=
  match snd (span P s) with EmptyString => true | _ => false end.

(** [sub in s]: substring test. *)
Fixpoint contains (sub s : string) : bool :=
  match strip_prefix sub s with
  | Some _ => true
  | None =>
      match s with
      | EmptyString => false
      | String _ s' => contains sub s'
      end
  end.

(** [s.replace(old, new)] for a non-empty [old]: scan left to right; at an
    occurrence of [old] emit [new] and resume after the occurrence,
    otherwise copy one character.  [skip] counts the characters of the
    occurrence still to be passed over. *)
Fixpoint replace_from (skip : nat) (old new s : string) : string :=
  match s with
  | EmptyString => EmptyString
  | String c s' =>
      match skip with
      | S k => replace_from k old new s'
      | O =>
          match strip_prefix old s with
          | Some _ => new ++ replace_from (String.length old - 1) old new s'
          | None => String c (replace_from 0 old new s')
          end
      end
  end.

(** With an empty [old], Python puts [new] before every character and at
    the end. *)
Fixpoint interleave (new s : string) : string :=
  match s with
  | EmptyString => new
  | String c s' => new ++ String c (interleave new s')
  end.

Definition replace (old new s : string) : string :=
  match old with
  | EmptyString => interleave new s
  | String _ _ => replace_from 0 old new s
  end.

(** [s.strip()]. *)
Definition lstrip (s : string) : string := snd (span is_space s).

Fixpoint rstrip (s : string) : string :=
  match s with
  | EmptyString => EmptyString
  | String c s' =>
      match rstrip s' with
      | EmptyString => if is_space c then EmptyString else str1 c
      | r => String c r
      end
  end.

Definition strip (s : string) : string := rstrip (lstrip s).

(** The value of a run of decimal digits. *)
Fixpoint digits_value_from (acc : Z) (s : string) : Z :=
  match s with
  | EmptyString => acc
  | String c s' =>
      digits_value_from (10 * acc + (Z.of_nat (nat_of_ascii c) - 48)) s'
  end.

Definition digits_value (s : string) : Z := digits_value_from 0 s.

(** [str.format] of a non-negative integer into a [{}] field. *)
Definition format_nat (n : nat) : string :=
  NilZero.string_of_uint (Nat.to_uint n).

End Text.

(* ===================================================================== *)
(** ** Spec-key escaping (builddb.py lines 72 and 164) *)
(* ===================================================================== *)

(** The reserved token that stands for a period inside a stored key. *)
Definition period_token : string := "&#46;".

(** Line 72: [rSpecName.replace(".", "&#46;")]. *)
Definition escape_key (rSpecName : string) : string :=
  Text.replace "." period_token rSpecName.

(** Line 164: [x.replace('&#46;', '.')]. *)
Definition unescape_key (x : string) : string :=
  Text.replace period_token "." x.

(* ===================================================================== *)
(** ** The regular expressions of the scraper *)
(* ===================================================================== *)

(** A compiled pattern is modelled by its matcher: a function that tries to
    match at the very start of its argument and returns the captured
    group(s) together with the text after the match.  Every pattern of
    builddb.py is a sequence of literals, greedy runs of a character class
    whose complement starts the next item, and one lazy run delimited the
    same way, so a match at a position, when there is one, is unique and the
    matcher needs no backtracking. *)
Module Regex.

Import Text.

Section Scan.
Context {A : Type}.
Variable m : string -> option (A * string).

(** [pattern.search(s)]: the leftmost match. *)
Fixpoint search (s : string) : option A :=
  match m s with
  | Some (a, _) => Some a
  | None =>
      match s with
      | EmptyString => None
      | String _ s' => search s'
      end
  end.

(** [pattern.finditer(s)] / [pattern.findall(s)]: leftmost
    non-overlapping matches; after a match the scan resumes where the
    match ended (one character further after an empty match). *)
Fixpoint finditer_from (skip : nat) (s : string) : list A :=
  match s with
  | EmptyString =>
      match skip, m EmptyString with
      | O, Some (a, _) => [a]
      | _, _ => []
      end
  | String _ s' =>
      match skip with
      | S k => finditer_from k s'
      | O =>
          match m s with
          | Some (a, rest) =>
              a :: finditer_from
                     (String.length s - String.length rest - 1) s'
          | None => finditer_from 0 s'
          end
      end
  end.

Definition finditer (s : string) : list A := finditer_from 0 s.
End Scan.

Definition nonempty (s : string) : bool :=
  match s with EmptyString => false | String _ _ => true end.

Definition not_char (c : ascii) : ascii -> bool :=
  fun x => negb (Ascii.eqb x c).

Definition skip_ws (s : string) : string := snd (span is_space s).

(** A class run that must be non-empty: [[^c]+], [\d+], [\D+]. *)
Definition span1 (P : ascii -> bool) (s : string) : option (string * string) :=
  let '(r, t) := span P s in
  if nonempty r then Some (r, t) else None.

(** Line 30: [<h3>\s*<a href=Q(?P<article>[^Q]+)Q>], re.I.  Here and
    below Q stands for the double-quote character. *)
Definition sReviewPat (s : string) : option (string * string) :=
  s1 ← lit_ci "<h3>" s;
  s2 ← lit_ci ("<a href=" ++ dquote) (skip_ws s1);
  '(article, s3) ← span1 (not_char dquote_char) s2;
  s4 ← lit_ci (dquote ++ ">") s3;
  Some (article, s4).

(** Line 49:
    [<h1>\s*<span class=QitemQ>\s*<span class=QfnQ>(?P<item_name>[^<]+)</span>],
    re.I. *)
Definition sPatItemName (s : string) : option (string * string) :=
  s1 ← lit_ci "<h1>" s;
  s2 ← lit_ci ("<span class=" ++ dquote ++ "item" ++ dquote ++ ">") (skip_ws s1);
  s3 ← lit_ci ("<span class=" ++ dquote ++ "fn" ++ dquote ++ ">") (skip_ws s2);
  '(item_name, s4) ← span1 (not_char "<") s3;
  s5 ← lit_ci "</span>" s4;
  Some (item_name, s5).

(** Line 50:
    [<div class=Qtested_at_price clearQ>Tested at \D+(?P<item_price>\d+)</div>],
    re.I. *)
Definition sPatItemPrice (s : string) : option (string * string) :=
  s1 ← lit_ci ("<div class=" ++ dquote ++ "tested_at_price clear" ++ dquote
               ++ ">Tested at ") s;
  '(_, s2) ← span1 (fun c => negb (is_digit c)) s1;
  '(item_price, s3) ← span1 is_digit s2;
  s4 ← lit_ci "</div>" s3;
  Some (item_price, s4).

(** Line 51: [<span class=QvalueQ>(?P<item_value>[^<]+)</span>], re.I. *)
Definition sPatItemValue (s : string) : option (string * string) :=
  s1 ← lit_ci ("<span class=" ++ dquote ++ "value" ++ dquote ++ ">") s;
  '(item_value, s2) ← span1 (not_char "<") s1;
  s3 ← lit_ci "</span>" s2;
  Some (item_value, s3).

(** Line 52:
    [<tr[^>]*>\s*<td[^>]*>(?P<spec_name>[^<]+)</td>\s*<td>\s*(?P<spec_value>[^<]*?)\s*</td>\s*</tr>],
    re.I|re.M.  The lazy group and the [\s*] around it split the text
    between [<td>] and the next [<]: all leading whitespace goes to the
    first [\s*], and the group is the shortest prefix of the remainder
    followed by whitespace only, i.e. the remainder without its trailing
    whitespace. *)
Definition sPatItemSpec (s : string) : option ((string * string) * string) :=
  s1 ← lit_ci "<tr" s;
  s2 ← lit_ci ">" (snd (span (not_char ">") s1));
  s3 ← lit_ci "<td" (skip_ws s2);
  s4 ← lit_ci ">" (snd (span (not_char ">") s3));
  '(spec_name, s5) ← span1 (not_char "<") s4;
  s6 ← lit_ci "</td>" s5;
  s7 ← lit_ci "<td>" (skip_ws s6);
  let '(cell, s8) := span (not_char "<") (skip_ws s7) in
  s9 ← lit_ci "</td>" s8;
  s10 ← lit_ci "</tr>" (skip_ws s9);
  Some ((spec_name, rstrip cell), s10).

(** Line 87: the pattern [\d+]. *)
Definition digit_run (s : string) : option (string * string) :=
  span1 is_digit s.

End Regex.

(* ===================================================================== *)
(** ** Python values and built-ins used by the extractor *)
(* ===================================================================== *)

(** What [float(s)] denotes before rounding to binary64: a special value or
    the decimal [(-1)^neg * mantissa * 10^exp10]. *)
Inductive pyfloat : Type :=
| FNan
| FInf (neg : bool)
| FDec (neg : bool) (mantissa exp10 : Z).

(** The values a specification entry can hold after lines 74-91. *)
Inductive spec_value : Type :=
| VStr (s : string)
| VBool (b : bool)
| VInt (n : Z)
| VFloat (f : pyfloat)
| VList (l : list string).

(** The exceptions the program can raise. *)
Inductive exn : Type :=
| NameError (name : string)
| URLError (url : string)
| AttributeError
| ValueError (literal : string)
| IndexError
| ZeroDivisionError.

Module Py.

Import Text.

(** [s.isdigit()]: non-empty and digits only. *)
Definition isdigit (s : string) : bool :=
  Regex.nonempty s && all_chars is_digit s.

Definition sign (s : string) : bool * string :=
  match s with
  | String "-" r => (true, r)
  | String "+" r => (false, r)
  | _ => (false, s)
  end.

Definition signed (neg : bool) (n : Z) : Z := if neg then (- n)%Z else n.

(** [int(s)] in base 10: surrounding whitespace, an optional sign, then
    digits only; [None] stands for ValueError. *)
Definition int (s : string) : option Z :=
  let '(neg, r) := sign (strip s) in
  if isdigit r then Some (signed neg (digits_value r)) else None.

Fixpoint lower_str (s : string) : string :=
  match s with
  | EmptyString => EmptyString
  | String c s' => String (lower c) (lower_str s')
  end.

(** The exponent part of a float literal: nothing, or [e], an optional
    sign and at least one digit. *)
Definition exponent (s : string) : option Z :=
  match s with
  | EmptyString => Some 0%Z
  | String c r =>
      if ci_eqb c "e" then
        let '(neg, d) := sign r in
        if isdigit d then Some (signed neg (digits_value d)) else None
      else None
  end.

(** The decimal part: digits, an optional point and digits, with at
    least one digit overall, then the exponent. *)
Definition decimal (neg : bool) (s : string) : option pyfloat :=
  let '(ip, r1) := span is_digit s in
  let '(fp, r2) :=
    match r1 with
    | String "." r => span is_digit r
    | _ => (EmptyString, r1)
    end in
  if Regex.nonempty (ip ++ fp) then
    e ← exponent r2;
    Some (FDec neg (digits_value (ip ++ fp))
                   (e - Z.of_nat (String.length fp)))
  else None.

(** [float(s)] (Python 2.7): surrounding whitespace, an optional sign,
    then [inf], [infinity] or [nan] in any case, or a decimal literal;
    [None] stands for ValueError. *)
Definition float (s : string) : option pyfloat :=
  let '(neg, r) := sign (strip s) in
  let l := lower_str r in
  if String.eqb l "inf" || String.eqb l "infinity" then Some (FInf neg)
  else if String.eqb l "nan" then Some FNan
  else decimal neg r.

End Py.

(* ===================================================================== *)
(** ** Type inference over a specification row (lines 69-93) *)
(* ===================================================================== *)

(** Line 74: the names whose values are not interpreted. *)
Definition uninterpreted : list string := ["THX"; "Video scaling"].

Definition in_list (x : string) (l : list string) : bool :=
  existsb (String.eqb x) l.

(** Lines 74-91, on the already escaped name [rSpecName].  After
    [isdigit()] holds, [int(mSpecValue)] is the value of the digits (lemma
    [int_of_isdigit] below). *)
Definition infer_value (rSpecName mSpecValue : string) : spec_value :=
  if in_list rSpecName uninterpreted then VStr mSpecValue
  else if String.eqb mSpecValue "No" then VBool false
  else if String.eqb mSpecValue "Yes" then VBool true
  else if Py.isdigit mSpecValue then VInt (Text.digits_value mSpecValue)
  else
    match Py.float mSpecValue with
    | Some f => VFloat f
    | None =>
        match Regex.finditer Regex.digit_run mSpecValue with
        | [] => VInt 0
        | [x] => VStr x
        | l => VList l
        end
    end.

(** Lines 69-93 for one match: the key under which the row is stored and
    the value stored there. *)
Definition spec_entry (row : string * string) : string * spec_value :=
  let rSpecName := escape_key (fst row) in
  (rSpecName, infer_value rSpecName (snd row)).

(** Lines 67-93: the loop assigns [dSpec[rSpecName] = mSpecValue] for each
    row in document order. *)
Definition build_spec (rows : list (string * string)) : gmap string spec_value :=
  fold_left (fun dSpec row => <[fst (spec_entry row) := snd (spec_entry row)]> dSpec)
            rows ∅.

Definition spec_rows (rDocument : string) : list (string * string) :=
  Regex.finditer Regex.sPatItemSpec rDocument.

(* ===================================================================== *)
(** ** Records, the collection and the world *)
(* ===================================================================== *)

(** The dictionary [dData] built by [extract_article_data]. *)
Record article : Type := Article {
  URL : string;
  name : string;
  price : Z;
  rating : Z;
  spec : gmap string spec_value
}.

(** What an observer sees of a run: each [urllib2.urlopen] call and each
    value the page generator hands to its consumer. *)
Inductive event : Type :=
| Fetch (url : string)
| Yield (rArticleURL : string).

(** The mutable world: the documents of the collection [av_receivers] in
    insertion order, and the events so far, oldest first. *)
Record world : Type := World {
  store : list article;
  trace : list event
}.

(** How a computation ends: with a value, with an exception, or still
    running when the fuel given to the page loop is used up. *)
Inductive outcome (A : Type) : Type :=
| Ok (a : A)
| Raise (e : exn)
| OutOfFuel.

Arguments Ok {A} a.
Arguments Raise {A} e.
Arguments OutOfFuel {A}.

(** Effectful code: a world transformer with an outcome. *)
Definition M (A : Type) : Type := world -> world * outcome A.

Definition ret {A} (a : A) : M A := fun w => (w, Ok a).

Definition bind {A B} (c : M A) (k : A -> M B) : M B :=
  fun w =>
    match c w with
    | (w', Ok a) => k a w'
    | (w', Raise e) => (w', Raise e)
    | (w', OutOfFuel) => (w', OutOfFuel)
    end.

Definition raise {A} (e : exn) : M A := fun w => (w, Raise e).

Definition emit (e : event) : M unit :=
  fun w => (World (store w) (trace w ++ [e]), Ok tt).

#[global] Instance M_ret : MRet M := @ret.
#[global] Instance M_bind : MBind M := fun A B k c => bind c k.

(** [for x in l: body(x)], stopping at the first exception. *)
Fixpoint for_each {A} (l : list A) (body : A -> M unit) : M unit :=
  match l with
  | [] => ret tt
  | x :: l' => bind (body x) (fun _ => for_each l' body)
  end.

(** [int(...)] and [.group(1)] lifted to the world. *)
Definition of_option {A} (e : exn) (o : option A) : M A :=
  match o with Some a => ret a | None => raise e end.

(* ===================================================================== *)
(** ** The aggregation queries (lines 112-249) *)
(* ===================================================================== *)

(** Grouping of emitted (key, value) pairs, as [$group] with [$push] and
    as map/reduce do it: one group per distinct key, the values of a group
    in emission order.  Groups are listed in order of first emission (the
    server's own ordering of groups is not modelled). *)
Section Grouping.
Context {K V : Type} `{EqDecision K}.

Fixpoint add_to_group (k : K) (v : V) (groups : list (K * list V))
  : list (K * list V) :=
  match groups with
  | [] => [(k, [v])]
  | (k', vs) :: rest =>
      if decide (k = k') then (k', vs ++ [v]) :: rest
      else (k', vs) :: add_to_group k v rest
  end.

Definition group_pairs (emitted : list (K * V)) : list (K * list V) :=
  fold_left (fun groups kv => add_to_group (fst kv) (snd kv) groups)
            emitted [].
End Grouping.

(** [sCol.map_reduce(map, reduce, finalize=..., out={'inline': 1})]:
    [dResponse['results']] as (_id, value) pairs.  The server passes a key
    with a single emitted value straight to [finalize], without calling
    [reduce]. *)
Definition map_reduce {D K V R : Type} `{EqDecision K}
           (map_fn : D -> list (K * V)) (reduce_fn : K -> list V -> V)
           (finalize_fn : K -> V -> R) (docs : list D) : list (K * R) :=
  map (fun g : K * list V =>
         (fst g, finalize_fn (fst g)
                   match snd g with
                   | [v] => v
                   | vs => reduce_fn (fst g) vs
                   end))
      (group_pairs (flat_map map_fn docs)).

Module Stats.

(** [float(n)] for an integer of magnitude below 2^63. *)
Definition of_Z (n : Z) : float :=
  if (n <? 0)%Z then PrimFloat.opp (PrimFloat.of_uint63 (Uint63.of_Z (- n)))
  else PrimFloat.of_uint63 (Uint63.of_Z n).

(** [fMin] and [fMax] start as floats and then hold prices. *)
Inductive num : Type :=
| NInt (n : Z)
| NFloat (f : float).

Definition int_lt (p : Z) (m : num) : bool :=
  match m with
  | NInt n => (p <? n)%Z
  | NFloat f => PrimFloat.ltb (of_Z p) f
  end.

Definition int_gt (p : Z) (m : num) : bool :=
  match m with
  | NInt n => (n <? p)%Z
  | NFloat f => PrimFloat.ltb f (of_Z p)
  end.

(** One printed line of [price_spread_by_rating], before formatting. *)
Record rating_stats : Type := RatingStats {
  fRating : Z;
  fMeanPrice : float;
  fMin : num;
  fMax : num;
  fStandardDeviation : float
}.

(** Lines 122-126. *)
Definition total (prices : list Z) : Z := fold_left Z.add prices 0%Z.

Definition count (prices : list Z) : float :=
  fold_left (fun fCount _ => (fCount + 1)%float) prices 0%float.

(** Lines 132-138: the sum of squared residuals.  [x**2] is computed as
    the correctly rounded product [x * x]. *)
Definition residual (fMeanPrice : float) (prices : list Z) : float :=
  fold_left (fun fResidual fPrice =>
               let d := (of_Z fPrice - fMeanPrice)%float in
               (fResidual + d * d)%float)
            prices 0%float.

(** Lines 119-139 for one group.  Dividing by [fCount = 0.0] raises
    ZeroDivisionError. *)
Definition group_stats (fRating : Z) (prices : list Z) : exn + rating_stats :=
  match prices with
  | [] => inl ZeroDivisionError
  | _ =>
      let fTotal := total prices in
      let fCount := count prices in
      let fMeanPrice := (of_Z fTotal / fCount)%float in
      let fMin := fold_left (fun m p => if int_lt p m then NInt p else m)
                            prices (NFloat infinity) in
      let fMax := fold_left (fun m p => if int_gt p m then NInt p else m)
                            prices (NFloat neg_infinity) in
      let fResidual := residual fMeanPrice prices in
      let fStandardDeviation := (PrimFloat.sqrt fResidual / fCount)%float in
      inr (RatingStats fRating fMeanPrice fMin fMax fStandardDeviation)
  end.

(** The population standard deviation as the specification words it: the
    square root of (the sum of squared residuals divided by the element
    count). *)
Definition population_stddev (prices : list Z) : float :=
  let fCount := count prices in
  let fMeanPrice := (of_Z (total prices) / fCount)%float in
  PrimFloat.sqrt (residual fMeanPrice prices / fCount)%float.

End Stats.

(** Lines 113-116: [{'$group': {'_id': '$rating', 'prices': {'$push': '$price'}}}]. *)
Definition prices_by_rating (col : list article) : list (Z * list Z) :=
  group_pairs (map (fun a => (rating a, price a)) col).

(** Lines 112-142: the lines printed, one per rating, or the first
    exception. *)
Fixpoint stats_of_groups (groups : list (Z * list Z))
  : exn + list Stats.rating_stats :=
  match groups with
  | [] => inr []
  | (fRating, prices) :: rest =>
      match Stats.group_stats fRating prices with
      | inl e => inl e
      | inr line =>
          match stats_of_groups rest with
          | inl e => inl e
          | inr lines => inr (line :: lines)
          end
      end
  end.

Definition price_spread_by_rating (col : list article)
  : exn + list Stats.rating_stats :=
  stats_of_groups (prices_by_rating col).

(** Lines 145-165.  The map function emits every key of [spec], so the
    results carry each stored key once; line 164 unescapes them. *)
Definition find_distinct_specs (col : list article) : exn + list string :=
  let results :=
    map_reduce (fun a : article => map (fun k => (k, tt)) (map fst (map_to_list (spec a))))
               (fun _ _ => tt) (fun _ v => v) col in
  inr (map unescape_key (map fst results)).

(** Lines 190-199: [dResponse['result'][0]] raises IndexError when the
    pipeline produced no group. *)
Definition get_price_range (col : list article) : exn + (Z * Z) :=
  match map price col with
  | [] => inl IndexError
  | p :: ps => inr (fold_left Z.min ps p, fold_left Z.max ps p)
  end.

Module Math.

(** [Math.ceil] of JavaScript on a binary64 Number.  [Prim2SF] gives the
    sign [s], the mantissa [m] and the exponent [e] of a finite non-zero
    Number, whose value is (-1)^s * m * 2^e.  With an exponent that is not
    negative the Number is an integer already; otherwise the result is
    the least integer that is not below it, and a result of zero keeps
    the sign of a negative argument ([Math.ceil(-0.5)] is [-0]).  NaN,
    the infinities and the zeros are returned as they are. *)
Definition ceil (x : float) : float :=
  match Prim2SF x with
  | S754_finite s m e =>
      if (0 <=? e)%Z then x
      else if s then PrimFloat.opp (Stats.of_Z (Z.pos m / 2 ^ (- e)))
           else Stats.of_Z (- ((- Z.pos m) / 2 ^ (- e)))
  | _ => x
  end.

End Math.

(** The Number [iPrice] as it stands in the key of a group: the integer
    it holds, the two zeros being one key, or [None] for NaN.  (The
    product of line 207 is never a fraction, and it is not infinite for
    integers of magnitude below 2^63.) *)
Definition number_key (x : float) : option Z :=
  match Prim2SF x with
  | S754_zero _ => Some 0%Z
  | S754_finite s m e => Some (cond_Zopp s (Z.shiftl (Z.pos m) e))
  | _ => None
  end.

(** Line 207: [Math.ceil(this.price / BANDWIDTH) * BANDWIDTH], computed as
    JavaScript does, in binary64: the price and BANDWIDTH become Numbers,
    the quotient and the product are rounded to the nearest Number.  A
    zero BANDWIDTH gives NaN. *)
Definition bucket_price (BANDWIDTH iPrice : Z) : option Z :=
  number_key
    (Math.ceil (Stats.of_Z iPrice / Stats.of_Z BANDWIDTH)
     * Stats.of_Z BANDWIDTH)%float.

(** One element of the list returned by [calc_rating_price_frequency]. *)
Record frequency : Type := Frequency {
  f_rating : Z;
  f_price : option Z;
  f_count : Z
}.

(** Lines 203-243 with the scope variable BANDWIDTH as a parameter. *)
Definition rating_price_frequency (BANDWIDTH : Z) (col : list article)
  : list frequency :=
  map snd
    (map_reduce
       (fun a : article => [((rating a, bucket_price BANDWIDTH (price a)), 1%Z)])
       (fun _ lData => fold_left Z.add lData 0%Z)
       (fun lKey iReducedValue => Frequency (fst lKey) (snd lKey) iReducedValue)
       col).

(** Line 214: [scope={'BANDWIDTH':500}]. *)
Definition calc_rating_price_frequency (col : list article)
  : exn + list frequency :=
  inr (rating_price_frequency 500 col).

Section Crawl.

(** The web: the document served at each URL, [None] when the fetch
    fails. *)
Variable web : string -> option string.

(** [urllib2.urlopen(url).read()]. *)
Definition urlopen (url : string) : M string :=
  emit (Fetch url) ;; of_option (URLError url) (web url).

(** Lines 32-35: the address of listing page [iPage]. *)
Definition page_url (rSearchURL : string) (iPage : nat) : string :=
  rSearchURL ++ "&page=" ++ Text.format_nat iPage.

(** Line 43: the text whose presence announces a further page. *)
Definition has_next_marker (rDocument : string) : bool :=
  Text.contains "?page=" rDocument.

(** Lines 27-44.  The generator is driven by a [for] loop whose body is
    [body]: each [yield] records the event and runs the body before the
    generator resumes.  [fuel] bounds the iterations of [while True]. *)
Fixpoint iter_articles_from (fuel : nat) (rSearchURL : string)
         (iPage : nat) (body : string -> M unit) : M unit :=
  match fuel with
  | O => fun w => (w, OutOfFuel)
  | S fuel' =>
      rDocument ← urlopen (page_url rSearchURL iPage);
      let lArticles := Regex.finditer Regex.sReviewPat rDocument in
      for_each lArticles
               (fun rArticleURL => emit (Yield rArticleURL) ;; body rArticleURL) ;;
      if has_next_marker rDocument
      then iter_articles_from fuel' rSearchURL (S iPage) body
      else ret tt
  end.

Definition iter_articles (fuel : nat) (rSearchURL : string)
           (body : string -> M unit) : M unit :=
  iter_articles_from fuel rSearchURL 0 body.

(** The generator consumed for its values alone. *)
Definition discover (fuel : nat) (rSearchURL : string) : M unit :=
  iter_articles fuel rSearchURL (fun _ => ret tt).

(** Lines 47-97.  [search(...)] returning [None] makes [.group(1)] raise
    AttributeError; [int(...)] of a malformed figure raises ValueError. *)
Definition extract_article_data (rURL : string) : M article :=
  rDocument ← urlopen (rURL ++ "/specs");
  item_name ← of_option AttributeError
                 (Regex.search Regex.sPatItemName rDocument);
  item_price ← of_option AttributeError
                  (Regex.search Regex.sPatItemPrice rDocument);
  iPrice ← of_option (ValueError item_price) (Py.int item_price);
  item_value ← of_option AttributeError
                  (Regex.search Regex.sPatItemValue rDocument);
  iRating ← of_option (ValueError item_value) (Py.int item_value);
  ret (Article rURL item_name iPrice iRating
               (build_spec (spec_rows rDocument))).

(** [sCol.find({"URL": rURL}).count()]. *)
Definition count_url (rURL : string) (col : list article) : nat :=
  length (List.filter (fun a => String.eqb (URL a) rURL) col).

(** [sCol.insert(dArticle)]. *)
Definition insert (dArticle : article) : M unit :=
  fun w => (World (store w ++ [dArticle]) (trace w), Ok tt).

Definition get_store : M (list article) := fun w => (w, Ok (store w)).

(** The module-level names [build_db] reads without defining them:
    [rSearchURL] and [sCol].  A name that is not bound raises NameError
    when it is evaluated. *)
Record globals : Type := Globals {
  g_rSearchURL : option string;
  g_sCol : bool
}.

(** builddb.py binds neither name at module level: both are local
    variables of [main]. *)
Definition module_globals : globals := Globals None false.

(** Lines 103-109: the body of the loop of [build_db]. *)
Definition build_db_body (g : globals) (rURL : string) : M unit :=
  if g_sCol g then
    col ← get_store;
    if Nat.eqb (count_url rURL col) 1 then ret tt
    else
      dArticle ← extract_article_data rURL;
      insert dArticle
  else raise (NameError "sCol").

(** Lines 100-109. *)
Definition build_db (g : globals) (fuel : nat) : M unit :=
  rSearchURL ← of_option (NameError "rSearchURL") (g_rSearchURL g);
  iter_articles fuel rSearchURL (build_db_body g).

(** A query run against the current collection. *)
Definition query {A} (q : list article -> exn + A) : M A :=
  fun w => (w, match q (store w) with inl e => Raise e | inr a => Ok a end).

(** What [main] computes after the build phase. *)
Record report : Type := Report {
  r_range : Z * Z;
  r_spread : list Stats.rating_stats;
  r_specs : list string;
  r_frequency : list frequency
}.

(** Lines 252-267. *)
Definition main (fuel : nat) : M report :=
  col ← get_store;
  (if Nat.eqb (length col) 0 then build_db module_globals fuel else ret tt) ;;
  range ← query get_price_range;
  spread ← query price_spread_by_rating;
  lSpecs ← query find_distinct_specs;
  lRatingPriceFreq ← query calc_rating_price_frequency;
  ret (Report range spread lSpecs lRatingPriceFreq).

End Crawl.

(* ===================================================================== *)
(** ** Vocabulary of the properties: the specification's own notions,
       sample documents and fixtures *)
(* ===================================================================== *)

(** A string free of periods and ampersands: escaping cannot produce or
    alter it. *)
Definition plain (p : string) : bool :=
  Text.all_chars (fun c => negb (Ascii.eqb c ".") && negb (Ascii.eqb c "&")) p.

(** The policy in the specification's words, written independently of the
    program: the exemption test reads the row's own label, the integer is
    the one the standard decimal reader assigns to the digits, and the
    digit runs are the non-empty pieces left when the value is cut at
    every non-digit character. *)
Module Policy.

Definition exemption_set : list string := ["THX"; "Video scaling"].

(** The pieces of [s] between its non-digit characters. *)
Fixpoint pieces (s : string) : list string :=
  match s with
  | EmptyString => [EmptyString]
  | String c s' =>
      if Text.is_digit c then
        match pieces s' with
        | p :: ps => String c p :: ps
        | [] => [Text.str1 c]
        end
      else EmptyString :: pieces s'
  end.

Definition maximal_digit_runs (s : string) : list string :=
  List.filter Regex.nonempty (pieces s).

(** The integer a non-empty digit-only string denotes. *)
Definition digit_only_value (s : string) : option Z :=
  match s with
  | EmptyString => None
  | _ => option_map (fun u => Z.of_nat (Nat.of_uint u))
                    (NilEmpty.uint_of_string s)
  end.

Definition infer (specName rawValue : string) : spec_value :=
  if in_list specName exemption_set then VStr rawValue
  else if String.eqb rawValue "No" then VBool false
  else if String.eqb rawValue "Yes" then VBool true
  else
    match digit_only_value rawValue with
    | Some n => VInt n
    | None =>
        match Py.float rawValue with
        | Some f => VFloat f
        | None =>
            match maximal_digit_runs rawValue with
            | [] => VInt 0
            | [run] => VStr run
            | runs => VList runs
            end
        end
    end.

End Policy.

(** The outcome of lines 61-97 on a fetched document. *)
Definition parse_article (rURL rDocument : string) : outcome article :=
  match Regex.search Regex.sPatItemName rDocument with
  | None => Raise AttributeError
  | Some item_name =>
      match Regex.search Regex.sPatItemPrice rDocument with
      | None => Raise AttributeError
      | Some item_price =>
          match Py.int item_price with
          | None => Raise (ValueError item_price)
          | Some iPrice =>
              match Regex.search Regex.sPatItemValue rDocument with
              | None => Raise AttributeError
              | Some item_value =>
                  match Py.int item_value with
                  | None => Raise (ValueError item_value)
                  | Some iRating =>
                      Ok (Article rURL item_name iPrice iRating
                                  (build_spec (spec_rows rDocument)))
                  end
              end
          end
      end
  end.

(** A required field is absent (its pattern matches nowhere) or malformed
    (the figure it captures is not an integer literal). *)
Definition field_missing_or_malformed (rDocument : string) : Prop :=
  Regex.search Regex.sPatItemName rDocument = None \/
  Regex.search Regex.sPatItemPrice rDocument = None \/
  (exists p, Regex.search Regex.sPatItemPrice rDocument = Some p /\
             Py.int p = None) \/
  Regex.search Regex.sPatItemValue rDocument = None \/
  (exists v, Regex.search Regex.sPatItemValue rDocument = Some v /\
             Py.int v = None).

(** The last row, in document order, stored under [key]. *)
Definition last_row_for (key : string) (rows : list (string * string))
  : option (string * string) :=
  find (fun row => String.eqb (escape_key (fst row)) key) (rev rows).

(** The last row, in document order, whose label is [label]. *)
Definition last_row_labelled (label : string) (rows : list (string * string))
  : option (string * string) :=
  find (fun row => String.eqb (fst row) label) (rev rows).

(** A detail document with the three required fields and a table whose
    label [HDMI in] occurs twice. *)
Definition sample_specs_page : string :=
  Eval cbv in
  ("<h1> <span class=" ++ Text.dquote ++ "item" ++ Text.dquote
   ++ "><span class=" ++ Text.dquote ++ "fn" ++ Text.dquote
   ++ ">Onkyo TX-NR609</span></span></h1>"
   ++ "<div class=" ++ Text.dquote ++ "tested_at_price clear" ++ Text.dquote
   ++ ">Tested at $500</div>"
   ++ "<span class=" ++ Text.dquote ++ "value" ++ Text.dquote ++ ">5</span>"
   ++ "<table><tr><td>HDMI in</td><td>6</td></tr>"
   ++ "<tr class=odd><td>THX</td> <td> Yes </td></tr>"
   ++ "<tr><td>HDMI in</td><td>5/10 ch</td></tr></table>")%string.

(** The same page without its rating. *)
Definition sample_page_without_rating : string :=
  Eval cbv in
  ("<h1> <span class=" ++ Text.dquote ++ "item" ++ Text.dquote
   ++ "><span class=" ++ Text.dquote ++ "fn" ++ Text.dquote
   ++ ">Onkyo TX-NR609</span></span></h1>"
   ++ "<div class=" ++ Text.dquote ++ "tested_at_price clear" ++ Text.dquote
   ++ ">Tested at $500</div>"
   ++ "<table><tr><td>HDMI in</td><td>6</td></tr></table>")%string.

(** A page whose table stores two differently written labels under one
    key. *)
Definition sample_colliding_page : string :=
  Eval cbv in
  ("<h1> <span class=" ++ Text.dquote ++ "item" ++ Text.dquote
   ++ "><span class=" ++ Text.dquote ++ "fn" ++ Text.dquote
   ++ ">Onkyo TX-NR609</span></span></h1>"
   ++ "<div class=" ++ Text.dquote ++ "tested_at_price clear" ++ Text.dquote
   ++ ">Tested at $500</div>"
   ++ "<span class=" ++ Text.dquote ++ "value" ++ Text.dquote ++ ">5</span>"
   ++ "<table><tr><td>a.b</td><td>1</td></tr>"
   ++ "<tr><td>a.b</td><td>2</td></tr>"
   ++ "<tr><td>a&#46;b</td><td>3</td></tr></table>")%string.

(** A web that serves one detail page. *)
Definition serve (url rDocument : string) : string -> option string :=
  fun u => if String.eqb u url then Some rDocument else None.

Definition empty_world : world := World [] [].

Section GroupValues.

Context {K V : Type} `{EqDecision K}.

(** The values grouped under [k]; none when [k] has no group. *)
Definition group_values (k : K) (groups : list (K * list V)) : list V :=
  match find (fun g => bool_decide (fst g = k)) groups with
  | Some g => snd g
  | None => []
  end.

(** The number of values held by all groups together. *)
Definition grouped_total (groups : list (K * list V)) : nat :=
  fold_right (fun g n => (length (snd g) + n)%nat) 0%nat groups.

End GroupValues.

(** A record with a given rating and price. *)
Definition rated (iRating iPrice : Z) : article :=
  Article "" "" iPrice iRating ∅.

(** Two records fall into the same (rating, bucket) group. *)
Definition same_group (BANDWIDTH : Z) (a a' : article) : bool :=
  bool_decide (rating a' = rating a /\
               bucket_price BANDWIDTH (price a')
               = bucket_price BANDWIDTH (price a)).

(** The key the map function emits for a record. *)
Definition frequency_key (BANDWIDTH : Z) (a : article) : Z * option Z :=
  (rating a, bucket_price BANDWIDTH (price a)).

(** The consumer that only takes the values. *)
Definition nobody : string -> M unit := fun _ => ret tt.

(** The events of one listing page: its fetch, then one yield per article
    link, in document order. *)
Definition page_events (rSearchURL : string) (iPage : nat) (rDocument : string)
  : list event :=
  Fetch (page_url rSearchURL iPage)
  :: map Yield (Regex.finditer Regex.sReviewPat rDocument).

(** The events of consecutive listing pages, the first one at [iPage]. *)
Fixpoint listing_events (rSearchURL : string) (iPage : nat)
         (docs : list string) : list event :=
  match docs with
  | [] => []
  | rDocument :: rest =>
      page_events rSearchURL iPage rDocument
      ++ listing_events rSearchURL (S iPage) rest
  end.

(** The web serves [docs] as the consecutive listing pages from [iPage]. *)
Fixpoint served (web : string -> option string) (rSearchURL : string)
         (iPage : nat) (docs : list string) : Prop :=
  match docs with
  | [] => True
  | rDocument :: rest =>
      web (page_url rSearchURL iPage) = Some rDocument /\
      served web rSearchURL (S iPage) rest
  end.

Definition is_fetch (e : event) : bool :=
  match e with Fetch _ => true | Yield _ => false end.

(** The article URLs among some events, in order. *)
Definition yields (events : list event) : list string :=
  flat_map (fun e => match e with Yield u => [u] | Fetch _ => [] end) events.

(** Everything discovery yields on an untouched world. *)
Definition discovered (web : string -> option string) (fuel : nat)
           (rSearchURL : string) : list string :=
  yields (trace (fst (discover web fuel rSearchURL (World [] [])))).

(** A listing of two pages: the first announces a further page, the second
    does not. *)
Definition fixture_page0 : string :=
  Eval cbv in
  ("<h3><a href=" ++ Text.dquote ++ "/a" ++ Text.dquote ++ ">A</a></h3>"
   ++ "<h3> <a href=" ++ Text.dquote ++ "/b" ++ Text.dquote ++ ">B</a></h3>"
   ++ "<a href=" ++ Text.dquote ++ "?page=1" ++ Text.dquote ++ ">next</a>")%string.

Definition fixture_page1 : string :=
  Eval cbv in
  ("<h3><a href=" ++ Text.dquote ++ "/c" ++ Text.dquote
   ++ ">C</a></h3>")%string.

Definition fixture_web : string -> option string :=
  fun url =>
    if String.eqb url "L&page=0" then Some fixture_page0
    else if String.eqb url "L&page=1" then Some fixture_page1
    else None.

(** A web on which every page announces a further page. *)
Definition endless_web : string -> option string :=
  fun _ => Some "?page=".

(** A web with a one-page listing of one article and that article's
    detail page. *)
Definition small_web : string -> option string :=
  fun url =>
    if String.eqb url "L&page=0"
    then Some ("<h3><a href=" ++ Text.dquote ++ "/onkyo" ++ Text.dquote ++ ">")%string
    else if String.eqb url "/onkyo/specs" then Some sample_specs_page
    else None.

(** The collection after a complete crawl of the two-page fixture. *)
Definition fixture_store : list article :=
  [Article "/a" "A" 100 5 ∅; Article "/b" "B" 200 4 ∅; Article "/c" "C" 300 5 ∅].

(** The keys the map/reduce of [find_distinct_specs] returns, before line
    164 unescapes them: every key stored in some record, once. *)
Definition stored_keys (col : list article) : list string :=
  map fst
      (map_reduce
         (fun a : article =>
            map (fun k => (k, tt)) (map fst (map_to_list (spec a))))
         (fun _ _ => tt) (fun _ v => v) col).

(** The record is what extraction returns for its own URL. *)
Definition extracted (web : string -> option string) (a : article) : Prop :=
  snd (extract_article_data web (URL a) (World [] [])) = Ok a.

(** The price converts to a float strictly between the two infinities
    [fMin] and [fMax] start from (true of every price of magnitude below
    2^63). *)
Definition finite_price (p : Z) : Prop :=
  PrimFloat.ltb (Stats.of_Z p) infinity = true /\
  PrimFloat.ltb neg_infinity (Stats.of_Z p) = true.

(** Every article URL yielded so far is the URL of a stored record. *)
Definition all_yielded_stored (w : world) : Prop :=
  forall u, In u (yields (trace w)) -> In u (map URL (store w)).

(** The bucket as the specification words it: ceil(price / bucketWidth)
    times bucketWidth, over the rationals. *)
Definition exact_bucket (bucketWidth iPrice : Z) : Z :=
  (Qceiling (Qdiv (inject_Z iPrice) (inject_Z bucketWidth)) * bucketWidth)%Z.

Module Binary64.

(** The number of binary digits of a positive integer. *)
Definition digits (a : Z) : Z := (Z.log2 a + 1)%Z.

(** The binary64 Number of sign [s] whose magnitude is the integer [a],
    for 0 < a < 2^53: the mantissa has 53 bits. *)
Definition norm (s : bool) (a : Z) : spec_float :=
  S754_finite s (Z.to_pos (a * 2 ^ (53 - digits a))) (digits a - 53).

(** The same for 0 <= k < 2^53; a zero keeps the sign. *)
Definition of_int (s : bool) (k : Z) : spec_float :=
  if (k =? 0)%Z then S754_zero s else norm s k.

(** What a rounding location says of the remainder [r] of a division by
    [D]: zero, or below, at or above the half of [D]. *)
Definition loc_spec (l : location) (r D : Z) : Prop :=
  match l with
  | loc_Exact => r = 0%Z
  | loc_Inexact Lt => (0 < r /\ 2 * r < D)%Z
  | loc_Inexact Eq => (0 < r /\ 2 * r = D)%Z
  | loc_Inexact Gt => (0 < r /\ D < 2 * r)%Z
  end.

End Binary64.

(* ===================================================================== *)
(** * Properties *)
(* ===================================================================== *)

(* ===================================================================== *)
(** ** The model evaluated on small inputs *)
(* ===================================================================== *)

Example escape_key_ex : escape_key "Dolby 5.1" = "Dolby 5&#46;1".
Proof. reflexivity. Qed.

Example unescape_key_ex : unescape_key "Dolby 5&#46;1" = "Dolby 5.1".
Proof. reflexivity. Qed.

Example escape_collides :
  unescape_key (escape_key "&#46;.") = "..".
Proof. reflexivity. Qed.

Example sReviewPat_ex :
  Regex.finditer Regex.sReviewPat
    ("<H3> <a href=" ++ Text.dquote ++ "/a" ++ Text.dquote ++ ">x</a></h3><h3><a href="
       ++ Text.dquote ++ "/b" ++ Text.dquote ++ ">") = ["/a"; "/b"].
Proof. reflexivity. Qed.

Example sPatItemSpec_ex :
  Regex.finditer Regex.sPatItemSpec
    "<tr class=odd><td>HDMI in</td> <td>  5/10 ch  </td></tr><tr><td>THX</td><td>Yes</td> </tr>"
  = [("HDMI in", "5/10 ch"); ("THX", "Yes")].
Proof. reflexivity. Qed.

Example digit_run_ex :
  Regex.finditer Regex.digit_run "5/10 ch" = ["5"; "10"].
Proof. reflexivity. Qed.

Example py_int_ex : Py.int " -042 " = Some (-42)%Z.
Proof. reflexivity. Qed.

Example py_float_ex1 : Py.float "7.1" = Some (FDec false 71 (-1)).
Proof. reflexivity. Qed.

Example py_float_ex2 : Py.float "1e3" = Some (FDec false 1 3).
Proof. reflexivity. Qed.

Example py_float_ex3 : Py.float "5/10 ch" = None.
Proof. reflexivity. Qed.

Example py_float_ex4 : Py.float "" = None.
Proof. reflexivity. Qed.

Example infer_ex1 : infer_value "HDMI in" "5/10 ch" = VList ["5"; "10"].
Proof. reflexivity. Qed.

Example infer_ex2 : infer_value "Power" "100W" = VStr "100".
Proof. reflexivity. Qed.

Example infer_ex3 : infer_value "THX" "Yes" = VStr "Yes".
Proof. reflexivity. Qed.

Example infer_ex4 : infer_value "Weight" "n/a" = VInt 0.
Proof. reflexivity. Qed.

Example infer_ex5 : infer_value "Weight" "0012" = VInt 12.
Proof. reflexivity. Qed.


(* ===================================================================== *)
(** ** Escaping and unescaping of specification keys *)
(* ===================================================================== *)

Section EscapeFacts.

Import Text.

Lemma replace_from_skip (pre s old new : string) :
  replace_from (String.length pre) old new (pre ++ s)%string
  = replace_from 0 old new s.
Proof.
  induction pre as [|c pre IH]; simpl; [reflexivity | exact IH].
Qed.

Lemma escape_key_nil : escape_key "" = "".
Proof. reflexivity. Qed.

Lemma escape_key_period (k : string) :
  escape_key (String "." k) = (period_token ++ escape_key k)%string.
Proof. reflexivity. Qed.

Lemma escape_key_other (c : ascii) (k : string) :
  c <> "."%char -> escape_key (String c k) = String c (escape_key k).
Proof.
  intros Hc. unfold escape_key, replace. cbn [replace_from strip_prefix].
  destruct (Ascii.eqb_spec "." c) as [E|_]; [congruence | reflexivity].
Qed.

Lemma unescape_key_token (s : string) :
  unescape_key (period_token ++ s)%string = String "." (unescape_key s).
Proof. reflexivity. Qed.

Lemma unescape_key_other (c : ascii) (s : string) :
  strip_prefix period_token (String c s) = None ->
  unescape_key (String c s) = String c (unescape_key s).
Proof.
  intros H. unfold unescape_key, replace, period_token in *.
  cbn [replace_from]. rewrite H. reflexivity.
Qed.

Lemma plain_cons (a : ascii) (p : string) :
  plain (String a p) = true ->
  a <> "."%char /\ a <> "&"%char /\ plain p = true.
Proof.
  unfold plain, all_chars. simpl.
  destruct (Ascii.eqb_spec a "."), (Ascii.eqb_spec a "&"); simpl;
    try discriminate.
  destruct (span _ p); simpl. auto.
Qed.

Lemma strip_prefix_escape (p k r : string) :
  plain p = true ->
  strip_prefix p (escape_key k) = Some r ->
  exists r', strip_prefix p k = Some r'.
Proof.
  revert k r. induction p as [|a p IH]; intros k r Hp H.
  - exists k. reflexivity.
  - apply plain_cons in Hp as (Ha1 & Ha2 & Hp).
    destruct k as [|c k]; [discriminate|].
    destruct (Ascii.eqb_spec c ".") as [->|Hc].
    + rewrite escape_key_period in H. simpl in H.
      destruct (Ascii.eqb_spec a "&"); [contradiction | discriminate].
    + rewrite escape_key_other in H by assumption. simpl in H |- *.
      destruct (Ascii.eqb a c); [eauto | discriminate].
Qed.

Lemma contains_cons (sub : string) (c : ascii) (s : string) :
  contains sub (String c s) = false ->
  strip_prefix sub (String c s) = None /\ contains sub s = false.
Proof.
  simpl contains at 1.
  destruct (strip_prefix sub (String c s)); [discriminate | auto].
Qed.

Lemma unescape_escape (k : string) :
  contains period_token k = false -> unescape_key (escape_key k) = k.
Proof.
  induction k as [|c k IH]; intros H; [reflexivity|].
  apply contains_cons in H as [Hp Hk].
  destruct (Ascii.eqb_spec c ".") as [->|Hc].
  - rewrite escape_key_period, unescape_key_token, IH by assumption.
    reflexivity.
  - rewrite escape_key_other by assumption.
    assert (Hn : strip_prefix period_token (String c (escape_key k)) = None).
    { destruct (strip_prefix period_token (String c (escape_key k))) eqn:E;
        [|reflexivity].
      exfalso.
      change (strip_prefix period_token (String c ?x))
        with (if Ascii.eqb "&" c then strip_prefix "#46;" x else None)
        in E, Hp.
      destruct (Ascii.eqb "&" c); [|discriminate].
      apply strip_prefix_escape in E as [r' E]; [|reflexivity].
      rewrite E in Hp. discriminate. }
    rewrite unescape_key_other by exact Hn.
    rewrite IH by assumption. reflexivity.
Qed.

(** Escaping leaves a plain string alone, and only a plain string escapes
    to itself. *)
Lemma escape_key_plain (t : string) : plain t = true -> escape_key t = t.
Proof.
  induction t as [|a t IH]; intros H; [reflexivity|].
  apply plain_cons in H as (Ha & _ & Ht).
  rewrite escape_key_other, IH by assumption. reflexivity.
Qed.

Lemma escape_key_eq_plain (t n : string) :
  plain t = true -> escape_key n = t -> n = t.
Proof.
  revert n. induction t as [|a t IH]; intros n Ht H.
  - destruct n as [|c n]; [reflexivity|].
    destruct (Ascii.eqb_spec c ".") as [->|Hc].
    + rewrite escape_key_period in H. discriminate.
    + rewrite escape_key_other in H by assumption. discriminate.
  - apply plain_cons in Ht as (Ha1 & Ha2 & Ht).
    destruct n as [|c n]; [discriminate|].
    destruct (Ascii.eqb_spec c ".") as [->|Hc].
    + rewrite escape_key_period in H. unfold period_token in H.
      simpl in H. injection H as E _. congruence.
    + rewrite escape_key_other in H by assumption.
      injection H as -> H. f_equal. apply IH; assumption.
Qed.

Lemma eqb_escape_key_plain (t n : string) :
  plain t = true -> String.eqb (escape_key n) t = String.eqb n t.
Proof.
  intros Ht.
  destruct (String.eqb_spec (escape_key n) t) as [E|E],
           (String.eqb_spec n t) as [E'|E']; try reflexivity.
  - apply escape_key_eq_plain in E; [contradiction | assumption].
  - subst n. rewrite escape_key_plain in E by assumption. contradiction.
Qed.

End EscapeFacts.

(** C4, as stated, fails: a key that already contains the reserved token
    next to a period does not survive escaping followed by unescaping. *)
Lemma escape_roundtrip_fails_on_token :
  ~ (forall k : string,
        Text.contains "." k = true -> unescape_key (escape_key k) = k).
Proof.
  intros H. specialize (H "&#46;." eq_refl). discriminate H.
Qed.

(** C4 (amended): for every spec key that does not contain the reserved
    token [&#46;] - whatever the number of literal periods in it -
    escaping for storage followed by the unescaping of
    [find_distinct_specs] returns the original key exactly. *)
Theorem escape_unescape_roundtrip (k : string) :
  Text.contains period_token k = false ->
  unescape_key (escape_key k) = k.
Proof. exact (unescape_escape k). Qed.

Lemma escape_unescape_roundtrip_witness :
  Text.contains period_token "Dolby 5.1 / 7.1" = false /\
  unescape_key (escape_key "Dolby 5.1 / 7.1") = "Dolby 5.1 / 7.1".
Proof.
  split; [reflexivity|].
  apply (escape_unescape_roundtrip "Dolby 5.1 / 7.1"). reflexivity.
Defined.

(* ===================================================================== *)
(** ** Type inference against the specification's ordered policy *)
(* ===================================================================== *)

Section InferenceFacts.

Import Text.

Lemma uninterpreted_escape (n : string) :
  in_list (escape_key n) uninterpreted = in_list n Policy.exemption_set.
Proof.
  unfold in_list, uninterpreted, Policy.exemption_set. cbn [existsb].
  rewrite !eqb_escape_key_plain by reflexivity.
  reflexivity.
Qed.

Lemma digits_value_from_decimal (s : string) :
  forall (u : Decimal.uint) (acc : nat),
    NilEmpty.uint_of_string s = Some u ->
    digits_value_from (Z.of_nat acc) s = Z.of_nat (Nat.of_uint_acc u acc).
Proof.
  induction s as [|c s IH]; intros u acc H.
  - injection H as <-. reflexivity.
  - cbn [NilEmpty.uint_of_string] in H.
    destruct (NilEmpty.uint_of_string s) as [d|] eqn:E; [|discriminate].
    cbn [digits_value_from].
    apply uint_of_char_spec in H.
    repeat (destruct H as [[-> ->]|H]); [..|destruct H as [-> ->]];
      cbn [Nat.of_uint_acc]; rewrite <- (IH d) by reflexivity; f_equal;
      rewrite Nat.tail_mul_spec;
      match goal with
      | |- context [nat_of_ascii ?c] =>
          let v := eval compute in (nat_of_ascii c) in
          change (nat_of_ascii c) with v
      end; lia.
Qed.

Lemma span_all_digits (s : string) :
  all_chars is_digit s = true -> NilEmpty.uint_of_string s <> None.
Proof.
  unfold all_chars. induction s as [|c s IH]; simpl; [discriminate|].
  destruct (is_digit c) eqn:Hc.
  - destruct (span is_digit s) as [r t] eqn:E. simpl in *.
    intros Ht. specialize (IH Ht).
    destruct (NilEmpty.uint_of_string s) as [d|]; [|contradiction].
    destruct c as [[|] [|] [|] [|] [|] [|] [|] [|]]; try discriminate Hc;
      simpl; discriminate.
  - simpl. discriminate.
Qed.

Lemma decimal_all_digits (s : string) (u : Decimal.uint) :
  NilEmpty.uint_of_string s = Some u -> all_chars is_digit s = true.
Proof.
  unfold all_chars. revert u. induction s as [|c s IH]; intros u H;
    [reflexivity|].
  cbn [NilEmpty.uint_of_string] in H.
  destruct (NilEmpty.uint_of_string s) as [d|] eqn:E; [|discriminate].
  specialize (IH d eq_refl).
  apply uint_of_char_spec in H.
  assert (Hc : is_digit c = true).
  { repeat (destruct H as [[-> _]|H]); [..|destruct H as [-> _]];
      reflexivity. }
  simpl. rewrite Hc. destruct (span is_digit s). simpl in *. exact IH.
Qed.

(** [isdigit()] followed by the digits' value is the standard decimal
    reading of a non-empty digit-only string. *)
Lemma isdigit_digit_only_value (s : string) :
  Policy.digit_only_value s
  = if Py.isdigit s then Some (digits_value s) else None.
Proof.
  unfold Policy.digit_only_value, Py.isdigit.
  destruct s as [|c s]; [reflexivity|].
  cbn [Regex.nonempty andb].
  destruct (NilEmpty.uint_of_string (String c s)) as [u|] eqn:E.
  - rewrite (decimal_all_digits _ _ E). cbn [option_map]. f_equal.
    symmetry. apply (digits_value_from_decimal _ u 0%nat E).
  - destruct (all_chars is_digit (String c s)) eqn:A; [|reflexivity].
    apply span_all_digits in A. contradiction.
Qed.

End InferenceFacts.

Section DigitRuns.

Import Text.

Lemma span_length (P : ascii -> bool) (s : string) :
  String.length s
  = (String.length (fst (span P s)) + String.length (snd (span P s)))%nat.
Proof.
  induction s as [|c s IH]; [reflexivity|].
  simpl. destruct (P c); [|reflexivity].
  destruct (span P s) as [r t]. simpl in *. lia.
Qed.

Lemma pieces_head (s : string) :
  exists ps, Policy.pieces s = fst (span is_digit s) :: ps.
Proof.
  induction s as [|c s [ps IH]]; simpl.
  - eexists. reflexivity.
  - destruct (is_digit c).
    + rewrite IH. destruct (span is_digit s). simpl. eexists. reflexivity.
    + eexists. reflexivity.
Qed.

Lemma digit_run_cons (c : ascii) (s : string) :
  Regex.digit_run (String c s)
  = if is_digit c
    then Some (String c (fst (span is_digit s)), snd (span is_digit s))
    else None.
Proof.
  unfold Regex.digit_run, Regex.span1. cbn [span].
  destruct (is_digit c); [|reflexivity].
  destruct (span is_digit s). reflexivity.
Qed.

(** [re.findall] with the pattern [\d+] finds the maximal digit runs; resuming the scan
    just after a leading run yields the runs that follow it. *)
Lemma findall_digit_runs (s : string) :
  Regex.finditer_from Regex.digit_run 0 s = Policy.maximal_digit_runs s /\
  Regex.finditer_from Regex.digit_run
    (String.length (fst (span is_digit s))) s
  = List.filter Regex.nonempty (tl (Policy.pieces s)).
Proof.
  unfold Policy.maximal_digit_runs.
  induction s as [|c s [IH1 IH2]]; [split; reflexivity|].
  destruct (pieces_head s) as [ps Hps].
  pose proof (span_length is_digit s) as Hlen.
  cbn [Regex.finditer_from Policy.pieces span].
  rewrite digit_run_cons.
  destruct (is_digit c) eqn:Hc.
  - destruct (span is_digit s) as [r t] eqn:E. cbn [fst snd] in *.
    rewrite Hps in *. cbn [tl List.filter Regex.nonempty String.length] in *.
    replace (S (String.length s) - String.length t - 1)%nat
      with (String.length r) by lia.
    rewrite IH2. split; reflexivity.
  - cbn [fst String.length Regex.nonempty List.filter tl].
    rewrite IH1. split; reflexivity.
Qed.

Lemma rstrip_digits (s : string) :
  all_chars is_digit s = true -> rstrip s = s.
Proof.
  unfold all_chars. induction s as [|c s IH]; [reflexivity|].
  simpl. destruct (is_digit c) eqn:Hc; [|simpl; discriminate].
  destruct (span is_digit s) as [r t]. simpl in *. intros Ht.
  rewrite (IH Ht). destruct s; [|reflexivity].
  destruct (is_space c) eqn:Hs; [|reflexivity].
  exfalso. revert Hc Hs. unfold is_digit, is_space.
  destruct (nat_of_ascii c =? 32)%nat eqn:E32;
    destruct (48 <=? nat_of_ascii c)%nat eqn:E48;
    destruct (nat_of_ascii c <=? 13)%nat eqn:E13;
    rewrite ?andb_false_r; simpl; try discriminate;
    apply Nat.leb_le in E48; try apply Nat.eqb_eq in E32;
    try apply Nat.leb_le in E13; lia.
Qed.

(** Line 82: after [isdigit()], [int(mSpecValue)] cannot fail and is the
    value of the digits. *)
Lemma int_of_isdigit (s : string) :
  Py.isdigit s = true -> Py.int s = Some (digits_value s).
Proof.
  unfold Py.isdigit. intros H. apply andb_prop in H as [Hn Hd].
  destruct s as [|c s]; [discriminate|].
  assert (Hc : is_digit c = true).
  { revert Hd. unfold all_chars. simpl. destruct (is_digit c); [reflexivity|].
    discriminate. }
  assert (Hsp : is_space c = false).
  { revert Hc. unfold is_digit, is_space.
    destruct (nat_of_ascii c =? 32)%nat eqn:E32;
      destruct (48 <=? nat_of_ascii c)%nat eqn:E48;
      destruct (nat_of_ascii c <=? 13)%nat eqn:E13;
      rewrite ?andb_false_r; simpl; try discriminate; try reflexivity;
      apply Nat.leb_le in E48; try apply Nat.eqb_eq in E32;
      try apply Nat.leb_le in E13; lia. }
  unfold Py.int, strip, lstrip. cbn [span]. rewrite Hsp. cbn [snd].
  rewrite (rstrip_digits _ Hd).
  assert (Hsign : Py.sign (String c s) = (false, String c s)).
  { destruct c as [[|] [|] [|] [|] [|] [|] [|] [|]]; try discriminate Hc;
      reflexivity. }
  rewrite Hsign. unfold Py.isdigit. cbn [Regex.nonempty andb].
  rewrite Hd. reflexivity.
Qed.

End DigitRuns.

(** C2: for every (specName, rawValue) pair of a specification row, the
    value the program stores is the one the specification's ordered policy
    prescribes: exempt names keep the raw string; otherwise "No"/"Yes" give
    the Booleans, a digit-only value gives its integer, a value that parses
    as a float gives the Float, and any other value gives 0, the single
    digit run as a string, or the list of digit runs, according to the
    number of maximal digit runs.  It is stored under the escaped name. *)
Theorem infer_follows_policy (specName rawValue : string) :
  spec_entry (specName, rawValue)
  = (escape_key specName, Policy.infer specName rawValue).
Proof.
  unfold spec_entry, infer_value, Policy.infer. cbn [fst snd]. f_equal.
  rewrite uninterpreted_escape, isdigit_digit_only_value.
  destruct (in_list specName Policy.exemption_set); [reflexivity|].
  destruct (String.eqb rawValue "No"); [reflexivity|].
  destruct (String.eqb rawValue "Yes"); [reflexivity|].
  destruct (Py.isdigit rawValue); [reflexivity|].
  destruct (Py.float rawValue); [reflexivity|].
  unfold Regex.finditer.
  rewrite (proj1 (findall_digit_runs rawValue)). reflexivity.
Qed.

(* ===================================================================== *)
(** ** Extraction of one article *)
(* ===================================================================== *)

Ltac unfold_monad :=
  cbv beta iota zeta delta
      [mbind M_bind bind mret M_ret ret raise of_option emit get_store insert]
    in *.

Section ExtractFacts.

Variable web : string -> option string.

Lemma urlopen_run (url : string) (w : world) :
  urlopen web url w
  = (World (store w) (trace w ++ [Fetch url]),
     match web url with Some d => Ok d | None => Raise (URLError url) end).
Proof.
  unfold urlopen. unfold_monad. cbn. destruct (web url); reflexivity.
Qed.

Lemma extract_article_data_run (rURL : string) (w : world) :
  extract_article_data web rURL w
  = (World (store w) (trace w ++ [Fetch (rURL ++ "/specs")]),
     match web (rURL ++ "/specs") with
     | None => Raise (URLError (rURL ++ "/specs"))
     | Some rDocument => parse_article rURL rDocument
     end).
Proof.
  unfold extract_article_data.
  change (mbind ?k ?c) with (bind c k).
  unfold bind at 1. rewrite urlopen_run.
  destruct (web (rURL ++ "/specs")) as [rDocument|]; [|reflexivity].
  unfold parse_article. unfold_monad.
  destruct (Regex.search Regex.sPatItemName rDocument); [|reflexivity].
  destruct (Regex.search Regex.sPatItemPrice rDocument) as [p|]; [|reflexivity].
  destruct (Py.int p); [|reflexivity].
  destruct (Regex.search Regex.sPatItemValue rDocument) as [v|]; [|reflexivity].
  destruct (Py.int v); reflexivity.
Qed.

Lemma parse_article_raises (rURL rDocument : string) :
  field_missing_or_malformed rDocument ->
  exists e, parse_article rURL rDocument = Raise e.
Proof.
  unfold parse_article.
  intros [H|[H|[(p & H & Hp)|[H|(v & H & Hv)]]]].
  - rewrite H. eauto.
  - destruct (Regex.search Regex.sPatItemName rDocument); [|eauto].
    rewrite H. eauto.
  - destruct (Regex.search Regex.sPatItemName rDocument); [|eauto].
    rewrite H, Hp. eauto.
  - destruct (Regex.search Regex.sPatItemName rDocument); [|eauto].
    destruct (Regex.search Regex.sPatItemPrice rDocument) as [p|]; [|eauto].
    destruct (Py.int p); [|eauto]. rewrite H. eauto.
  - destruct (Regex.search Regex.sPatItemName rDocument); [|eauto].
    destruct (Regex.search Regex.sPatItemPrice rDocument) as [p|]; [|eauto].
    destruct (Py.int p); [|eauto]. rewrite H, Hv. eauto.
Qed.

Lemma parse_article_ok (rURL rDocument : string) (a : article) :
  parse_article rURL rDocument = Ok a ->
  URL a = rURL /\ spec a = build_spec (spec_rows rDocument) /\
  ~ field_missing_or_malformed rDocument.
Proof.
  unfold parse_article, field_missing_or_malformed.
  destruct (Regex.search Regex.sPatItemName rDocument); [|discriminate].
  destruct (Regex.search Regex.sPatItemPrice rDocument) as [p|]; [|discriminate].
  destruct (Py.int p) eqn:Hp; [|discriminate].
  destruct (Regex.search Regex.sPatItemValue rDocument) as [v|]; [|discriminate].
  destruct (Py.int v) eqn:Hv; [|discriminate].
  intros [= <-]. repeat split.
  intros [H|[H|[(p' & H & Hp')|[H|(v' & H & Hv')]]]]; congruence.
Qed.

End ExtractFacts.

Lemma build_spec_snoc (rows : list (string * string)) (row : string * string) :
  build_spec (rows ++ [row])
  = <[fst (spec_entry row) := snd (spec_entry row)]> (build_spec rows).
Proof. unfold build_spec. rewrite fold_left_app. reflexivity. Qed.

(** Assignment into the dictionary overwrites: the entry under a key is the
    value inferred from the last row stored under that key. *)
Lemma build_spec_lookup (rows : list (string * string)) (key : string) :
  build_spec rows !! key
  = option_map (fun row => infer_value key (snd row)) (last_row_for key rows).
Proof.
  unfold last_row_for.
  induction rows as [|row rows IH] using rev_ind; [reflexivity|].
  rewrite build_spec_snoc, rev_app_distr. cbn [rev app find].
  unfold spec_entry at 1 2. cbn [fst snd].
  destruct (String.eqb_spec (escape_key (fst row)) key) as [E|E].
  - rewrite E, lookup_insert_eq. reflexivity.
  - rewrite lookup_insert_ne by exact E. exact IH.
Qed.

Section CrawlStepFacts.

Variable web : string -> option string.

Lemma build_db_body_run (g : globals) (rURL : string) (w : world) :
  build_db_body web g rURL w
  = if g_sCol g then
      if Nat.eqb (count_url rURL (store w)) 1 then (w, Ok tt)
      else
        let w1 := World (store w) (trace w ++ [Fetch (rURL ++ "/specs")]) in
        match web (rURL ++ "/specs") with
        | None => (w1, Raise (URLError (rURL ++ "/specs")))
        | Some rDocument =>
            match parse_article rURL rDocument with
            | Ok dArticle => (World (store w ++ [dArticle]) (trace w1), Ok tt)
            | Raise e => (w1, Raise e)
            | OutOfFuel => (w1, OutOfFuel)
            end
        end
    else (w, Raise (NameError "sCol")).
Proof.
  unfold build_db_body. destruct (g_sCol g); [|reflexivity].
  unfold mbind, M_bind, bind, get_store.
  destruct (Nat.eqb (count_url rURL (store w)) 1); [reflexivity|].
  rewrite extract_article_data_run.
  destruct (web (rURL ++ "/specs")) as [rDocument|]; [|reflexivity].
  destruct (parse_article rURL rDocument); reflexivity.
Qed.

End CrawlStepFacts.

Example sample_specs_page_rows :
  spec_rows sample_specs_page
  = [("HDMI in", "6"); ("THX", "Yes"); ("HDMI in", "5/10 ch")].
Proof. vm_compute. reflexivity. Qed.

Example sample_specs_page_parsed :
  parse_article "/onkyo" sample_specs_page
  = Ok (Article "/onkyo" "Onkyo TX-NR609" 500 5
                (build_spec (spec_rows sample_specs_page))).
Proof. vm_compute. reflexivity. Qed.

(** C10, as stated, fails: the page below has two rows labelled [a.b] and
    a later row labelled [a&#46;b]; all three are stored under the key
    [a&#46;b], and the entry holds the value of the third row, not that of
    the last row labelled [a.b]. *)
Lemma last_labelled_row_can_be_overwritten :
  spec_rows sample_colliding_page
  = [("a.b", "1"); ("a.b", "2"); ("a&#46;b", "3")] /\
  last_row_labelled "a.b" (spec_rows sample_colliding_page)
  = Some ("a.b", "2") /\
  spec_entry ("a.b", "2") = (escape_key "a.b", VInt 2) /\
  exists a,
    snd (extract_article_data (serve "/onkyo/specs" sample_colliding_page)
                              "/onkyo" empty_world) = Ok a /\
    spec a !! escape_key "a.b" = Some (VInt 3).
Proof.
  split; [vm_compute; reflexivity|].
  split; [vm_compute; reflexivity|].
  split; [vm_compute; reflexivity|].
  rewrite extract_article_data_run. cbn [snd].
  eexists. split; [vm_compute; reflexivity|].
  vm_compute. reflexivity.
Qed.

(** C10 (amended): whenever [extract_article_data] returns a record, its
    spec map has at most one entry per key, and the entry under a key holds
    the value inferred from the last row, in document order, whose escaped
    label is that key; the values of earlier such rows are discarded, and a
    key no row escapes to has no entry. *)
Theorem extract_keeps_last_row
        (web : string -> option string) (rURL : string)
        (w w' : world) (a : article) :
  extract_article_data web rURL w = (w', Ok a) ->
  exists rDocument,
    web (rURL ++ "/specs")%string = Some rDocument /\
    forall key : string,
      spec a !! key
      = option_map (fun row => infer_value key (snd row))
                   (last_row_for key (spec_rows rDocument)).
Proof.
  rewrite extract_article_data_run. intros [= _ H].
  destruct (web (rURL ++ "/specs")%string) as [rDocument|]; [|discriminate].
  exists rDocument. split; [reflexivity|].
  intros key. apply parse_article_ok in H as (_ & -> & _).
  apply build_spec_lookup.
Qed.

Lemma extract_keeps_last_row_witness :
  exists rDocument,
    serve "/onkyo/specs" sample_specs_page "/onkyo/specs" = Some rDocument /\
    forall key : string,
      spec (Article "/onkyo" "Onkyo TX-NR609" 500 5
                    (build_spec (spec_rows sample_specs_page))) !! key
      = option_map (fun row => infer_value key (snd row))
                   (last_row_for key (spec_rows rDocument)).
Proof.
  apply (extract_keeps_last_row
           (serve "/onkyo/specs" sample_specs_page) "/onkyo" empty_world
           (World [] [Fetch "/onkyo/specs"])).
  rewrite extract_article_data_run. vm_compute. reflexivity.
Defined.

Example sample_specs_page_hdmi :
  build_spec (spec_rows sample_specs_page) !! "HDMI in"
  = Some (VList ["5"; "10"]).
Proof. vm_compute. reflexivity. Qed.

(** C8: when the detail document of an article lacks one of the three
    required fields (name, tested-at price, rating), or carries a figure
    that is not an integer, [extract_article_data] raises (AttributeError
    or ValueError) instead of returning a record, and the crawl step for
    that article raises the same exception and leaves the collection as it
    was. *)
Theorem extract_fails_without_required_field
        (web : string -> option string) (rURL rDocument : string)
        (w : world) :
  web (rURL ++ "/specs")%string = Some rDocument ->
  field_missing_or_malformed rDocument ->
  exists e,
    snd (extract_article_data web rURL w) = Raise e /\
    forall g : globals,
      store (fst (build_db_body web g rURL w)) = store w /\
      (g_sCol g = true -> count_url rURL (store w) <> 1%nat ->
       snd (build_db_body web g rURL w) = Raise e).
Proof.
  intros Hweb Hbad.
  destruct (parse_article_raises rURL rDocument Hbad) as [e He].
  exists e. rewrite extract_article_data_run, Hweb. split; [exact He|].
  intros g. rewrite build_db_body_run, Hweb, He.
  destruct (g_sCol g); [|split; [reflexivity | discriminate]].
  destruct (Nat.eqb_spec (count_url rURL (store w)) 1) as [E|E].
  - split; [reflexivity | intros _ Hne; contradiction].
  - split; reflexivity.
Qed.

Lemma extract_fails_without_required_field_witness :
  exists e,
    snd (extract_article_data
           (serve "/onkyo/specs" sample_page_without_rating)
           "/onkyo" empty_world) = Raise e /\
    forall g : globals,
      store (fst (build_db_body
                    (serve "/onkyo/specs" sample_page_without_rating)
                    g "/onkyo" empty_world)) = store empty_world /\
      (g_sCol g = true -> count_url "/onkyo" (store empty_world) <> 1%nat ->
       snd (build_db_body (serve "/onkyo/specs" sample_page_without_rating)
                          g "/onkyo" empty_world) = Raise e).
Proof.
  apply (extract_fails_without_required_field
           (serve "/onkyo/specs" sample_page_without_rating)
           "/onkyo" sample_page_without_rating empty_world).
  - reflexivity.
  - right. right. right. left. vm_compute. reflexivity.
Defined.

(* ===================================================================== *)
(** ** Grouping *)
(* ===================================================================== *)

Section GroupingFacts.

Context {K V : Type} `{EqDecision K}.

Lemma group_values_add_same (k : K) (v : V) (groups : list (K * list V)) :
  group_values k (add_to_group k v groups) = group_values k groups ++ [v].
Proof.
  unfold group_values. induction groups as [|[k' vs] groups IH]; simpl.
  - rewrite bool_decide_eq_true_2 by reflexivity. reflexivity.
  - destruct (decide (k = k')) as [->|Hne]; simpl.
    + rewrite bool_decide_eq_true_2 by reflexivity. reflexivity.
    + rewrite bool_decide_eq_false_2 by congruence. exact IH.
Qed.

Lemma group_values_add_other (k k' : K) (v : V) (groups : list (K * list V)) :
  k <> k' ->
  group_values k' (add_to_group k v groups) = group_values k' groups.
Proof.
  intros Hne. unfold group_values.
  induction groups as [|[k0 vs] groups IH]; simpl.
  - rewrite bool_decide_eq_false_2 by exact Hne. reflexivity.
  - destruct (decide (k = k0)) as [->|Hne0]; simpl.
    + rewrite bool_decide_eq_false_2 by exact Hne. reflexivity.
    + destruct (bool_decide (k0 = k')); [reflexivity | exact IH].
Qed.

Lemma add_to_group_keys (k k' : K) (v : V) (groups : list (K * list V)) :
  In k' (map fst (add_to_group k v groups))
  <-> k' = k \/ In k' (map fst groups).
Proof.
  induction groups as [|[k0 vs] groups IH]; simpl.
  - intuition congruence.
  - destruct (decide (k = k0)) as [->|Hne]; simpl.
    + intuition congruence.
    + rewrite IH. intuition congruence.
Qed.

Lemma add_to_group_NoDup (k : K) (v : V) (groups : list (K * list V)) :
  List.NoDup (map fst groups) -> List.NoDup (map fst (add_to_group k v groups)).
Proof.
  induction groups as [|[k0 vs] groups IH]; simpl; intros Hnd.
  - apply List.NoDup_cons; [intros [] | apply List.NoDup_nil].
  - destruct (decide (k = k0)) as [->|Hne]; simpl; [exact Hnd|].
    apply NoDup_cons_iff in Hnd as [Hnotin Hnd]. apply List.NoDup_cons.
    + rewrite add_to_group_keys. intros [E|Hin]; [congruence|].
      apply Hnotin, Hin.
    + apply IH, Hnd.
Qed.

Lemma add_to_group_nonempty (k : K) (v : V) (groups : list (K * list V)) :
  Forall (fun g => snd g <> []) groups ->
  Forall (fun g => snd g <> []) (add_to_group k v groups).
Proof.
  induction groups as [|[k0 vs] groups IH]; simpl; intros Hall.
  - constructor; [discriminate | constructor].
  - apply Forall_cons_iff in Hall as [Hvs Hall].
    destruct (decide (k = k0)) as [->|Hne]; constructor; auto.
    simpl. destruct vs; discriminate.
Qed.

Lemma group_pairs_snoc (emitted : list (K * V)) (kv : K * V) :
  group_pairs (emitted ++ [kv])
  = add_to_group (fst kv) (snd kv) (group_pairs emitted).
Proof. unfold group_pairs. rewrite fold_left_app. reflexivity. Qed.

Lemma group_pairs_values (k : K) (emitted : list (K * V)) :
  group_values k (group_pairs emitted)
  = map snd (List.filter (fun kv => bool_decide (fst kv = k)) emitted).
Proof.
  induction emitted as [|[k' v] emitted IH] using rev_ind; [reflexivity|].
  rewrite group_pairs_snoc, List.filter_app, map_app. cbn [fst snd List.filter].
  destruct (decide (k' = k)) as [->|Hne].
  - rewrite group_values_add_same, IH, bool_decide_eq_true_2 by reflexivity.
    reflexivity.
  - rewrite group_values_add_other, IH, bool_decide_eq_false_2 by exact Hne.
    cbn [map]. rewrite app_nil_r. reflexivity.
Qed.

Lemma group_pairs_keys (k : K) (emitted : list (K * V)) :
  In k (map fst (group_pairs emitted)) <-> In k (map fst emitted).
Proof.
  induction emitted as [|[k' v] emitted IH] using rev_ind; [reflexivity|].
  rewrite group_pairs_snoc, add_to_group_keys, map_app, in_app_iff, IH.
  simpl. intuition congruence.
Qed.

Lemma group_pairs_NoDup (emitted : list (K * V)) :
  List.NoDup (map fst (group_pairs emitted)).
Proof.
  induction emitted as [|kv emitted IH] using rev_ind;
    [apply List.NoDup_nil|].
  rewrite group_pairs_snoc. apply add_to_group_NoDup, IH.
Qed.

Lemma group_pairs_nonempty (emitted : list (K * V)) :
  Forall (fun g => snd g <> []) (group_pairs emitted).
Proof.
  induction emitted as [|kv emitted IH] using rev_ind; [constructor|].
  rewrite group_pairs_snoc. apply add_to_group_nonempty, IH.
Qed.

Lemma group_values_In (k : K) (vs : list V) (groups : list (K * list V)) :
  List.NoDup (map fst groups) -> In (k, vs) groups -> group_values k groups = vs.
Proof.
  unfold group_values.
  induction groups as [|[k0 vs0] groups IH]; simpl; intros Hnd Hin; [easy|].
  apply NoDup_cons_iff in Hnd as [Hnotin Hnd].
  destruct Hin as [[= -> ->]|Hin].
  - rewrite bool_decide_eq_true_2 by reflexivity. reflexivity.
  - destruct (decide (k0 = k)) as [->|Hne].
    + exfalso. apply Hnotin. apply (in_map fst _ _ Hin).
    + rewrite bool_decide_eq_false_2 by exact Hne. apply IH; assumption.
Qed.

Lemma In_group_values (k : K) (groups : list (K * list V)) :
  In k (map fst groups) -> In (k, group_values k groups) groups.
Proof.
  unfold group_values.
  induction groups as [|[k0 vs0] groups IH]; simpl; [easy|].
  destruct (decide (k0 = k)) as [->|Hne].
  - rewrite bool_decide_eq_true_2 by reflexivity. auto.
  - rewrite bool_decide_eq_false_2 by exact Hne.
    intros [E|Hin]; [congruence | right; apply IH, Hin].
Qed.

End GroupingFacts.

(* ===================================================================== *)
(** ** The aggregation queries *)
(* ===================================================================== *)

Lemma stats_of_groups_ok (groups : list (Z * list Z)) :
  Forall (fun g => snd g <> []) groups ->
  exists lines, stats_of_groups groups = inr lines.
Proof.
  induction groups as [|[fRating prices] groups IH]; intros Hall.
  - exists []. reflexivity.
  - apply Forall_cons_iff in Hall as [Hne Hall].
    destruct (IH Hall) as [lines Hlines]. cbn [stats_of_groups].
    destruct prices as [|p prices]; [contradiction Hne; reflexivity|].
    cbn [Stats.group_stats]. rewrite Hlines. eauto.
Qed.

(** A group produced by [$group] is never empty, so the division of line
    127 never fails. *)
Lemma price_spread_never_raises (col : list article) :
  exists lines, price_spread_by_rating col = inr lines.
Proof. apply stats_of_groups_ok, group_pairs_nonempty. Qed.

(** C1, evaluated on the group of prices 100, 200, 300: line 139 takes the
    square root of the sum of squared residuals and then divides by the
    element count, which gives 0x1.791fa556f33ap+5 = 47.14045207910317;
    the population standard deviation, the square root of (the sum divided
    by the count), is 0x1.46993ff898291p+6 = 81.64965809277261. *)
Theorem price_spread_stddev_divides_after_root :
  price_spread_by_rating [rated 5 100; rated 5 200; rated 5 300]
  = inr [Stats.RatingStats 5 200%float (Stats.NInt 100) (Stats.NInt 300)
                           0x1.791fa556f33ap+5%float] /\
  Stats.population_stddev [100; 200; 300]%Z = 0x1.46993ff898291p+6%float /\
  PrimFloat.ltb 0x1.791fa556f33ap+5%float 0x1.46993ff898291p+6%float = true.
Proof. repeat split; vm_compute; reflexivity. Qed.

(** C6, as stated, fails: on an empty collection three of the four queries
    return (an empty result) instead of raising. *)
Lemma empty_corpus_queries_return :
  ~ ((exists e, get_price_range [] = inl e) /\
     (exists e, price_spread_by_rating [] = inl e) /\
     (exists e, find_distinct_specs [] = inl e) /\
     (exists e, calc_rating_price_frequency [] = inl e)).
Proof. intros (_ & [e H] & _). discriminate H. Qed.

(** C6 (amended): on an empty collection [get_price_range] raises
    (IndexError, from indexing the empty aggregation result), and it raises
    on no other collection; [price_spread_by_rating] returns no line,
    [find_distinct_specs] returns no key and
    [calc_rating_price_frequency] returns no entry, none of them raising;
    and [price_spread_by_rating] raises on no collection at all, because a
    group is never empty. *)
Theorem empty_corpus_aggregations :
  get_price_range [] = inl IndexError /\
  (forall col, (exists e, get_price_range col = inl e) <-> col = []) /\
  price_spread_by_rating [] = inr [] /\
  (forall col, exists lines, price_spread_by_rating col = inr lines) /\
  find_distinct_specs [] = inr [] /\
  calc_rating_price_frequency [] = inr [].
Proof.
  split; [reflexivity|]. split.
  - intros [|a col]; split.
    + reflexivity.
    + intros _. exists IndexError. reflexivity.
    + intros [e H]. discriminate H.
    + discriminate.
  - split; [reflexivity|]. split; [exact price_spread_never_raises|].
    split; reflexivity.
Qed.

(* ===================================================================== *)
(** ** The rating/price histogram *)
(* ===================================================================== *)

(** [ceil(p / w) * w] is the multiple of [w] next to [p] on the side the
    ceiling rounds to. *)
Lemma exact_bucket_spec (w p : Z) :
  w <> 0%Z ->
  (w | exact_bucket w p)%Z /\
  (0 < w -> p <= exact_bucket w p < p + w)%Z /\
  (w < 0 -> p + w < exact_bucket w p <= p)%Z.
Proof.
  intros Hw. unfold exact_bucket.
  split; [apply Z.divide_factor_r|].
  unfold Qceiling, Qfloor, Qdiv, Qmult, Qinv, Qopp, inject_Z.
  destruct w as [|q|q]; [contradiction Hw; reflexivity|..];
    cbn [Qnum Qden]; rewrite ?Pos.mul_1_l; split; try lia; intros _.
  - pose proof (Z.div_mod (- (p * 1)) (Z.pos q) ltac:(lia)) as Hdm.
    pose proof (Z.mod_pos_bound (- (p * 1)) (Z.pos q) ltac:(lia)) as Hb.
    nia.
  - pose proof (Z.div_mod (- (p * -1)) (Z.pos q) ltac:(lia)) as Hdm.
    pose proof (Z.mod_pos_bound (- (p * -1)) (Z.pos q) ltac:(lia)) as Hb.
    nia.
Qed.

(** The ceiling of the rational p / w is a floor division of integers. *)
Lemma exact_bucket_div (w p : Z) :
  w <> 0%Z -> exact_bucket w p = (- ((- p) / w) * w)%Z.
Proof.
  intros Hw. unfold exact_bucket. f_equal.
  unfold Qceiling, Qfloor, Qdiv, Qmult, Qinv, Qopp, inject_Z.
  destruct w as [|q|q]; [contradiction Hw; reflexivity|..];
    cbn [Qnum Qden]; rewrite ?Pos.mul_1_l.
  - rewrite Z.mul_1_r. reflexivity.
  - replace (- (p * -1))%Z with p by lia.
    pose proof (Z.div_opp_opp p (Z.pos q) ltac:(lia)) as H.
    change (- Z.pos q)%Z with (Z.neg q) in H. rewrite H. reflexivity.
Qed.

(* ===================================================================== *)
(** ** Line 207 in binary64 *)
(* ===================================================================== *)

Section Binary64Facts.

Import Binary64.
Local Open Scope Z_scope.

(** [digits] is the digit count of the float specification. *)
Lemma digits2_pos_size m : digits2_pos m = Pos.size m.
Proof. induction m; simpl; congruence. Qed.

Lemma digits2_pos_digits m : Z.pos (digits2_pos m) = digits (Z.pos m).
Proof.
  unfold digits. rewrite digits2_pos_size.
  destruct m; simpl; lia.
Qed.

(** An integer of [d] digits lies between 2^(d-1) and 2^d. *)
Lemma digits_bounds a : 0 < a -> 2 ^ (digits a - 1) <= a < 2 ^ digits a.
Proof.
  intros Ha. unfold digits.
  replace (Z.log2 a + 1 - 1) with (Z.log2 a) by lia.
  apply (Z.log2_spec a Ha).
Qed.

Lemma digits_unique a d : 0 < d -> 2 ^ (d - 1) <= a < 2 ^ d -> digits a = d.
Proof.
  intros Hd H. unfold digits.
  rewrite (Z.log2_unique a (d - 1)); try lia.
  replace (Z.succ (d - 1)) with d by lia. exact H.
Qed.

Lemma digits_pos a : 0 < a -> 0 < digits a.
Proof. intros. unfold digits. pose proof (Z.log2_nonneg a). lia. Qed.

Lemma digits_le a n : 0 < a -> 0 <= n -> a < 2 ^ n -> digits a <= n.
Proof.
  intros Ha Hn H. unfold digits.
  destruct (Z.log2_lt_pow2 a n Ha) as [Hl _]. specialize (Hl H). lia.
Qed.

(** Shifting left by [k] adds [k] digits. *)
Lemma digits_shift a k : 0 < a -> 0 <= k -> digits (a * 2 ^ k) = digits a + k.
Proof.
  intros Ha Hk. unfold digits.
  rewrite Z.log2_mul_pow2; lia.
Qed.

Lemma pos_iter_xO m d : Z.pos (Pos.iter xO m d) = Z.pos m * 2 ^ Z.pos d.
Proof.
  revert m. induction d using Pos.peano_ind; intros m.
  - simpl. lia.
  - rewrite Pos.iter_succ. rewrite Pos2Z.inj_succ, Z.pow_succ_r by lia.
    rewrite Pos2Z.inj_xO, IHd. lia.
Qed.

(** Rounding a mantissa of 53 bits that is exact changes nothing. *)
Lemma binary_round_aux_exact s m e :
  digits (Z.pos m) = 53 -> -1074 <= e <= 971 ->
  binary_round_aux prec emax s (Z.pos m) e loc_Exact = S754_finite s m e.
Proof.
  intros Hd He.
  unfold binary_round_aux, shr_fexp, Zdigits2.
  rewrite digits2_pos_digits, Hd.
  assert (Hf : fexp prec emax (53 + e) - e = 0).
  { unfold fexp, SpecFloat.emin, prec, emax. lia. }
  rewrite Hf. cbn [shr shr_record_of_loc shr_m loc_of_shr_record round_nearest_even Zdigits2].
  rewrite digits2_pos_digits, Hd, Hf.
  cbn [shr shr_record_of_loc shr_m].
  replace (e <=? emax - prec) with true; [reflexivity|].
  symmetry. apply Z.leb_le. unfold prec, emax. lia.
Qed.

(** The mantissa of [norm s a] has 53 bits. *)
Lemma norm_mantissa a :
  0 < a < 2 ^ 53 ->
  let m := a * 2 ^ (53 - digits a) in
  2 ^ 52 <= m < 2 ^ 53 /\ digits m = 53.
Proof.
  intros Ha m.
  pose proof (digits_bounds a ltac:(lia)) as Hb.
  pose proof (digits_pos a ltac:(lia)) as Hp.
  pose proof (digits_le a 53 ltac:(lia) ltac:(lia) ltac:(lia)) as Hl.
  assert (Hm : digits m = 53).
  { unfold m. rewrite digits_shift; lia. }
  split; [|exact Hm].
  assert (0 < m) by (unfold m; apply Z.mul_pos_pos; [lia|apply Z.pow_pos_nonneg; lia]).
  pose proof (digits_bounds m ltac:(lia)) as Hb'. rewrite Hm in Hb'.
  exact Hb'.
Qed.

(** An integer below 2^53 is a Number: its conversion is [norm]. *)
Lemma binary_normalize_norm (s : bool) a :
  0 < a < 2 ^ 53 ->
  binary_normalize prec emax (cond_Zopp s a) 0 false = norm s a.
Proof.
  intros Ha.
  destruct (norm_mantissa a Ha) as [Hm Hd].
  pose proof (digits_pos a ltac:(lia)) as Hp.
  pose proof (digits_le a 53 ltac:(lia) ltac:(lia) ltac:(lia)) as Hl.
  assert (Hgoal : forall m, Z.pos m = a -> binary_round prec emax s m 0 = norm s a).
  { intros m Hma. unfold binary_round, shl_align.
    rewrite digits2_pos_digits, Hma, Z.add_0_r.
    assert (Hf : fexp prec emax (digits a) - 0 = digits a - 53).
    { unfold fexp, SpecFloat.emin, prec, emax. lia. }
    rewrite Hf. unfold norm.
    destruct (digits a - 53) as [|d|d] eqn:Hdd; try lia.
    - replace (53 - digits a) with 0 by lia. rewrite Z.mul_1_r.
      replace (fexp prec emax (digits a)) with 0
        by (unfold fexp, SpecFloat.emin, prec, emax; lia).
      rewrite binary_round_aux_exact.
      + rewrite <- Hma. reflexivity.
      + rewrite Hma. lia.
      + lia.
    - replace (fexp prec emax (digits a)) with (Z.neg d)
        by (unfold fexp, SpecFloat.emin, prec, emax; lia).
      assert (Hm' : Z.pos (Pos.iter xO m d) = a * 2 ^ (53 - digits a)).
      { rewrite pos_iter_xO, Hma. f_equal. f_equal. lia. }
      rewrite binary_round_aux_exact.
      + f_equal. rewrite <- Hm'. reflexivity.
      + rewrite Hm'. exact Hd.
      + lia. }
  destruct a as [|m|m]; try lia.
  destruct s; simpl; apply Hgoal; reflexivity.
Qed.

(** [Stats.of_Z] is exact on integers of magnitude below 2^53. *)
Lemma of_Z_norm n :
  0 < Z.abs n < 2 ^ 53 ->
  Prim2SF (Stats.of_Z n) = norm (n <? 0) (Z.abs n).
Proof.
  intros Hn. unfold Stats.of_Z.
  assert (Hto : forall a, 0 < a < 2 ^ 53 -> Uint63.to_Z (Uint63.of_Z a) = a).
  { intros a Ha. rewrite Uint63.of_Z_spec. apply Z.mod_small.
    change Uint63.wB with (2 ^ 63). 
    assert (2 ^ 53 < 2 ^ 63) by (apply Z.pow_lt_mono_r; lia). lia. }
  destruct (n <? 0) eqn:Hs.
  - apply Z.ltb_lt in Hs.
    rewrite opp_spec, of_uint63_spec, Hto by lia.
    replace (Z.abs n) with (- n) by lia.
    pose proof (binary_normalize_norm false (- n) ltac:(lia)) as H.
    cbn [cond_Zopp] in H. rewrite H. reflexivity.
  - apply Z.ltb_ge in Hs.
    rewrite of_uint63_spec, Hto by lia.
    replace (Z.abs n) with n by lia.
    apply (binary_normalize_norm false). lia.
Qed.

Lemma pow2_xO p : 2 ^ Z.pos p~0 = 2 ^ Z.pos p * 2 ^ Z.pos p.
Proof.
  replace (Z.pos p~0) with (Z.pos p + Z.pos p) by lia.
  apply Z.pow_add_r; lia.
Qed.

Lemma pow2_xI p : 2 ^ Z.pos p~1 = 2 * (2 ^ Z.pos p * 2 ^ Z.pos p).
Proof.
  replace (Z.pos p~1) with (Z.pos p + Z.pos p + 1) by lia.
  rewrite !Z.pow_add_r by lia. change (2 ^ 1) with 2. ring.
Qed.

(** Shifting right the bits that a left shift added loses nothing. *)
Lemma iter_shr_exact p : forall m, 0 < m ->
  SpecFloat.iter_pos shr_1 p (Build_shr_record (m * 2 ^ Z.pos p) false false)
  = Build_shr_record m false false.
Proof.
  induction p as [p IH|p IH|]; intros m Hm.
  - cbn [SpecFloat.iter_pos].
    assert (Hp : 0 < 2 ^ Z.pos p) by (apply Z.pow_pos_nonneg; lia).
    replace (m * 2 ^ Z.pos p~1) with (2 * ((m * 2 ^ Z.pos p) * 2 ^ Z.pos p)).
    2:{ rewrite pow2_xI. ring. }
    assert (H1 : 0 < m * 2 ^ Z.pos p) by nia.
    assert (H2 : 0 < m * 2 ^ Z.pos p * 2 ^ Z.pos p) by nia.
    destruct (m * 2 ^ Z.pos p * 2 ^ Z.pos p) as [|x|x] eqn:Hx; try lia.
    change (2 * Z.pos x) with (Z.pos x~0). cbn [shr_1 orb].
    rewrite <- Hx. rewrite IH by lia. apply IH. lia.
  - cbn [SpecFloat.iter_pos].
    assert (Hp : 0 < 2 ^ Z.pos p) by (apply Z.pow_pos_nonneg; lia).
    replace (m * 2 ^ Z.pos p~0) with ((m * 2 ^ Z.pos p) * 2 ^ Z.pos p).
    2:{ rewrite pow2_xO. ring. }
    rewrite IH by nia. apply IH. lia.
  - cbn [SpecFloat.iter_pos]. destruct m as [|x|x]; try lia.
    replace (Z.pos x * 2 ^ 1) with (Z.pos x~0) by lia. reflexivity.
Qed.

(** Rounding an exact mantissa that is a 53-bit number shifted left. *)
Lemma binary_round_aux_shifted s M j e :
  digits M = 53 -> 0 <= j -> -1074 <= e + j <= 971 ->
  binary_round_aux prec emax s (M * 2 ^ j) e loc_Exact
  = S754_finite s (Z.to_pos M) (e + j).
Proof.
  intros Hd Hj He.
  assert (HM : 0 < M).
  { destruct M as [|x|x]; try lia; unfold digits in Hd; simpl in Hd; lia. }
  assert (Hdm : digits (M * 2 ^ j) = 53 + j) by (rewrite digits_shift; lia).
  assert (Hpos : 0 < M * 2 ^ j).
  { apply Z.mul_pos_pos; [lia|apply Z.pow_pos_nonneg; lia]. }
  unfold binary_round_aux, shr_fexp.
  assert (Hz : forall x, 0 < x -> Zdigits2 x = digits x).
  { intros x Hx. destruct x; try lia. apply digits2_pos_digits. }
  rewrite Hz, Hdm by lia.
  assert (Hf : fexp prec emax (53 + j + e) - e = j).
  { unfold fexp, SpecFloat.emin, prec, emax. lia. }
  rewrite Hf. cbn [shr_record_of_loc].
  assert (Hshr : shr (Build_shr_record (M * 2 ^ j) false false) e j
                 = (Build_shr_record M false false, e + j)).
  { unfold shr. destruct j as [|p|p]; try lia.
    - rewrite Z.mul_1_r, Z.add_0_r. reflexivity.
    - rewrite iter_shr_exact by lia. reflexivity. }
  rewrite Hshr. cbn [shr_m loc_of_shr_record round_nearest_even].
  rewrite Hz, Hd by lia.
  assert (Hf' : fexp prec emax (53 + (e + j)) - (e + j) = 0).
  { unfold fexp, SpecFloat.emin, prec, emax. lia. }
  rewrite Hf'. cbn [shr shr_record_of_loc shr_m].
  destruct M as [|x|x]; try lia.
  replace (e + j <=? emax - prec) with true; [reflexivity|].
  symmetry. apply Z.leb_le. unfold prec, emax. lia.
Qed.

Lemma to_pos_mul a b : 0 < a -> 0 < b -> Z.pos (Z.to_pos a * Z.to_pos b) = a * b.
Proof. intros. rewrite Pos2Z.inj_mul, !Z2Pos.id; lia. Qed.

(** The product of two integers is exact when it stays below 2^53. *)
Lemma mul_norm sk sb k b :
  0 < k -> 0 < b -> k * b < 2 ^ 53 ->
  SF64mul (norm sk k) (norm sb b) = norm (xorb sk sb) (k * b).
Proof.
  intros Hk Hb Hkb.
  assert (Hk53 : k < 2 ^ 53) by nia.
  assert (Hb53 : b < 2 ^ 53) by nia.
  destruct (norm_mantissa k ltac:(lia)) as [Hmk Hdk].
  destruct (norm_mantissa b ltac:(lia)) as [Hmb Hdb].
  destruct (norm_mantissa (k * b) ltac:(nia)) as [Hmc Hdc].
  pose proof (digits_bounds k Hk) as Bk.
  pose proof (digits_bounds b Hb) as Bb.
  pose proof (digits_bounds (k * b) ltac:(nia)) as Bc.
  pose proof (digits_pos k Hk) as Pk.
  pose proof (digits_pos b Hb) as Pb.
  pose proof (digits_pos (k * b) ltac:(nia)) as Pc.
  pose proof (digits_le k 53 ltac:(lia) ltac:(lia) ltac:(lia)) as Lk.
  pose proof (digits_le b 53 ltac:(lia) ltac:(lia) ltac:(lia)) as Lb.
  pose proof (digits_le (k * b) 53 ltac:(nia) ltac:(lia) ltac:(lia)) as Lc.
  (* digits (k*b) >= digits k + digits b - 1 *)
  assert (Hlow : digits k + digits b - 1 <= digits (k * b)).
  { assert (H : 2 ^ (digits k + digits b - 2) < 2 ^ digits (k * b)).
    { replace (digits k + digits b - 2) with ((digits k - 1) + (digits b - 1)) by lia.
      rewrite Z.pow_add_r by lia.
      assert (0 < 2 ^ (digits k - 1)) by (apply Z.pow_pos_nonneg; lia).
      assert (0 < 2 ^ (digits b - 1)) by (apply Z.pow_pos_nonneg; lia).
      apply Z.le_lt_trans with (k * b); [|lia].
      apply Z.mul_le_mono_nonneg; lia. }
    apply Z.pow_lt_mono_r_iff in H; lia. }
  unfold SF64mul, SFmul, norm.
  set (j := 53 + digits (k * b) - digits k - digits b).
  assert (Hprod : Z.pos (Z.to_pos (k * 2 ^ (53 - digits k)) * Z.to_pos (b * 2 ^ (53 - digits b)))
                  = (k * b * 2 ^ (53 - digits (k * b))) * 2 ^ j).
  { rewrite to_pos_mul by lia.
    assert (Hpw : 2 ^ (53 - digits (k * b)) * 2 ^ j
                  = 2 ^ (53 - digits k) * 2 ^ (53 - digits b)).
    { rewrite <- !Z.pow_add_r by lia. f_equal. lia. }
    rewrite <- (Z.mul_assoc (k * b)), Hpw. ring. }
  rewrite Hprod.
  rewrite binary_round_aux_shifted; try lia.
  f_equal. lia.
Qed.

(** The location [SFdiv] computes from the remainder of the integer
    division. *)
Lemma new_location_spec D r : 0 <= r < D -> loc_spec (new_location D r) r D.
Proof.
  intros H. unfold new_location, new_location_even, new_location_odd.
  destruct (Z.even D) eqn:Hev; destruct (Z.eqb_spec r 0) as [->|Hr];
    try reflexivity.
  - destruct (Z.compare_spec (2 * r) D); unfold loc_spec; lia.
  - assert (D <> 2 * r).
    { intros ->. rewrite Z.even_mul in Hev. discriminate. }
    destruct (Z.compare_spec (2 * r + 1) D); unfold loc_spec; lia.
Qed.

Lemma Zdigits2_digits x : 0 < x -> Zdigits2 x = digits x.
Proof. intros Hx. destruct x; try lia. apply digits2_pos_digits. Qed.

(** One step of the right shift: the bit shifted out is the round bit,
    the former round bit joins the sticky bit. *)
Lemma shr_1_pos m r s :
  0 < m -> shr_1 (Build_shr_record m r s) = Build_shr_record (m / 2) (Z.odd m) (r || s).
Proof.
  intros Hm. rewrite <- Z.div2_div.
  destruct m as [|[x|x|]|x]; try lia; reflexivity.
Qed.

Lemma loc_of_shr_record_of_loc m l :
  loc_of_shr_record (shr_record_of_loc m l) = l.
Proof. destruct l as [|[]]; reflexivity. Qed.

Lemma shr_m_of_loc m l : shr_m (shr_record_of_loc m l) = m.
Proof. destruct l as [|[]]; reflexivity. Qed.

(** The last step of [binary_round_aux]: a rounded mantissa that reached
    2^53 is renormalised. *)
Lemma finish_round s M e :
  2 ^ 52 <= M <= 2 ^ 53 -> -1074 <= e <= 970 ->
  (let '(mrs, e') := shr_fexp prec emax M e loc_Exact in
   match shr_m mrs with
   | Z0 => S754_zero s
   | Zpos m => if e' <=? emax - prec then S754_finite s m e' else S754_infinity s
   | Zneg _ => S754_nan
   end)
  = if M <? 2 ^ 53 then S754_finite s (Z.to_pos M) e
    else S754_finite s (Z.to_pos (2 ^ 52)) (e + 1).
Proof.
  intros HM He.
  assert (H52 : 0 < 2 ^ 52) by (apply Z.pow_pos_nonneg; lia).
  unfold shr_fexp. rewrite Zdigits2_digits by lia.
  destruct (Z.ltb_spec M (2 ^ 53)) as [Hlt|Hge].
  - rewrite (digits_unique M 53) by lia.
    replace (fexp prec emax (53 + e) - e) with 0
      by (unfold fexp, SpecFloat.emin, prec, emax; lia).
    cbn [shr shr_record_of_loc shr_m].
    destruct M as [|x|x]; try lia.
    replace (e <=? emax - prec) with true; [reflexivity|].
    symmetry. apply Z.leb_le. unfold prec, emax. lia.
  - assert (M = 2 ^ 53) by lia. subst M.
    change (digits (2 ^ 53)) with 54.
    replace (fexp prec emax (54 + e) - e) with 1
      by (unfold fexp, SpecFloat.emin, prec, emax; lia).
    cbn [shr shr_record_of_loc SpecFloat.iter_pos].
    change (shr_1 {| shr_m := 2 ^ 53; shr_r := false; shr_s := false |})
      with {| shr_m := 2 ^ 52; shr_r := false; shr_s := false |}.
    cbn [shr_m].
    change (2 ^ 52) with (Z.pos (Z.to_pos (2 ^ 52))) at 1.
    cbv iota.
    replace (e + 1 <=? emax - prec) with true; [reflexivity|].
    symmetry. apply Z.leb_le. unfold prec, emax. lia.
Qed.

(** Rounding the quotient [q] (53 or 54 bits) of an integer division by
    [D] with remainder [r]: the result is the float of mantissa [M] and
    exponent [e + t], and [M * 2^t] is within one half of the exact
    quotient [q + r / D]; a mantissa that reached 2^53 is renormalised. *)
Lemma round_quotient s q r D e :
  0 <= r < D -> 2 ^ 52 <= q < 2 ^ 54 -> -1074 <= e <= 960 ->
  exists M t,
    2 ^ 52 <= M <= 2 ^ 53 /\ (t = 0 \/ t = 1) /\
    2 * Z.abs (M * (D * 2 ^ t) - (q * D + r)) <= D * 2 ^ t /\
    binary_round_aux prec emax s q e (new_location D r)
    = if M <? 2 ^ 53 then S754_finite s (Z.to_pos M) (e + t)
      else S754_finite s (Z.to_pos (2 ^ 52)) (e + t + 1).
Proof.
  intros Hr Hq He.
  pose proof (new_location_spec D r Hr) as Hl.
  generalize dependent (new_location D r). intros l Hl.
  assert (H52 : 2 ^ 52 = 4503599627370496) by reflexivity.
  assert (H53 : 2 ^ 53 = 9007199254740992) by reflexivity.
  assert (H54 : 2 ^ 54 = 18014398509481984) by reflexivity.
  destruct (Z.ltb_spec q (2 ^ 53)) as [Hlt|Hge].
  - (* 53 bits: no shift *)
    exists (round_nearest_even q l), 0.
    assert (HM : q <= round_nearest_even q l <= q + 1).
    { destruct l as [|[]]; cbn; try lia. destruct (Z.even q); lia. }
    split; [lia|]. split; [lia|]. split.
    { change (2 ^ 0) with 1. rewrite Z.mul_1_r.
      destruct l as [|[]]; unfold loc_spec in Hl; unfold round_nearest_even;
        try (destruct (Z.even q)); lia. }
    unfold binary_round_aux.
    assert (Hfirst : shr_fexp prec emax q e l = (shr_record_of_loc q l, e)).
    { unfold shr_fexp. rewrite Zdigits2_digits by lia.
      rewrite (digits_unique q 53) by lia.
      replace (fexp prec emax (53 + e) - e) with 0
        by (unfold fexp, SpecFloat.emin, prec, emax; lia).
      reflexivity. }
    rewrite Hfirst, loc_of_shr_record_of_loc, shr_m_of_loc.
    rewrite Z.add_0_r. apply finish_round; lia.
  - (* 54 bits: one bit is shifted out *)
    set (l' := loc_of_shr_record
                 (Build_shr_record (q / 2) (Z.odd q)
                    (negb match l with loc_Exact => true | _ => false end))).
    exists (round_nearest_even (q / 2) l'), 1.
    assert (Hq2 : q = 2 * (q / 2) + (if Z.odd q then 1 else 0)).
    { rewrite <- Z.div2_div. apply Z.div2_odd. }
    assert (Hq2b : 2 ^ 52 <= q / 2 < 2 ^ 53).
    { destruct (Z.odd q); lia. }
    assert (HM : q / 2 <= round_nearest_even (q / 2) l' <= q / 2 + 1).
    { destruct l' as [|[]]; cbn; try lia. destruct (Z.even (q / 2)); lia. }
    split; [lia|]. split; [lia|]. split.
    { change (2 ^ 1) with 2. unfold l'.
      destruct l as [|[]]; unfold loc_spec in Hl; destruct (Z.odd q);
        unfold loc_of_shr_record, negb, round_nearest_even;
        try (destruct (Z.even (q / 2))); nia. }
    unfold binary_round_aux.
    assert (Hfirst : shr_fexp prec emax q e l
                     = (Build_shr_record (q / 2) (Z.odd q)
                          (negb match l with loc_Exact => true | _ => false end), e + 1)).
    { unfold shr_fexp. rewrite Zdigits2_digits by lia.
      rewrite (digits_unique q 54) by lia.
      replace (fexp prec emax (54 + e) - e) with 1
        by (unfold fexp, SpecFloat.emin, prec, emax; lia).
      cbn [shr SpecFloat.iter_pos].
      destruct l as [|[]]; cbn [shr_record_of_loc]; rewrite shr_1_pos by lia;
        reflexivity. }
    rewrite Hfirst. cbn [shr_m]. fold l'.
    apply finish_round; lia.
Qed.

(** Among the integers, a nearest multiple of 1/G of a/b has the floor and
    the ceiling of a/b as soon as the step 1/G is finer than 2/b. *)
Lemma nearest_floor_ceil a b G M :
  0 < a -> 0 < b -> 0 < G -> b < 2 * G ->
  2 * Z.abs (M * b - a * G) <= b ->
  M / G = a / b /\ - ((- M) / G) = - ((- a) / b).
Proof.
  intros Ha Hb HG HbG HM.
  pose proof (Z.div_mod a b ltac:(lia)) as Hab.
  pose proof (Z.mod_pos_bound a b Hb) as Hrho.
  set (f := a / b) in *. set (rho := a mod b) in *.
  assert (Hfl : f * G <= M < (f + 1) * G) by nia.
  split.
  - symmetry. apply (Z.div_unique_pos M G f (M - f * G)); lia.
  - assert (Hc : exists c, - ((- a) / b) = c /\ (c - 1) * G < M <= c * G).
    { destruct (Z.eq_dec rho 0) as [H0|H0].
      - exists f. split.
        + replace (- a) with ((- f) * b) by lia. rewrite Z.div_mul by lia. lia.
        + nia.
      - exists (f + 1). split.
        + assert (- a / b = - f - 1); [|lia].
          symmetry. apply (Z.div_unique_pos (- a) b (- f - 1) (b - rho)); lia.
        + nia. }
    destruct Hc as (c & -> & Hc).
    assert (- M / G = - c); [|lia].
    symmetry. apply (Z.div_unique_pos (- M) G (- c) (c * G - M)); lia.
Qed.

(** Floor and ceiling of a quotient of positive integers. *)
Lemma ceil_div_le a b : 0 < a -> 0 < b -> - ((- a) / b) <= a.
Proof.
  intros Ha Hb.
  assert (- a <= (- a) / b); [|lia].
  apply Z.div_le_lower_bound; [lia|].
  nia.
Qed.

Lemma near_scale X b W : 0 < W -> 2 * Z.abs (X * W) <= b * W -> 2 * Z.abs X <= b.
Proof.
  intros HW H. rewrite Z.abs_mul, (Z.abs_eq W) in H by lia.
  apply (Z.mul_le_mono_pos_r _ _ W HW). lia.
Qed.

Lemma quotient_bounds N D :
  2 ^ 52 * 2 ^ 53 <= N < 2 ^ 53 * 2 ^ 53 -> 2 ^ 52 <= D < 2 ^ 53 ->
  2 ^ 52 <= N / D < 2 ^ 54.
Proof.
  intros HN HD.
  assert (H52 : 2 ^ 52 = 4503599627370496) by reflexivity.
  assert (H53 : 2 ^ 53 = 9007199254740992) by reflexivity.
  assert (H54 : 2 ^ 54 = 18014398509481984) by reflexivity.
  rewrite H52, H53, H54 in *.
  split.
  - apply Z.div_le_lower_bound; nia.
  - apply Z.div_lt_upper_bound; nia.
Qed.

(** The binary64 quotient of two integers below 2^53 has the floor and the
    ceiling of the exact quotient. *)
Lemma div_norm sa sb a b :
  0 < a < 2 ^ 53 -> 0 < b < 2 ^ 53 ->
  exists M E,
    SF64div (norm sa a) (norm sb b) = S754_finite (xorb sa sb) M E /\
    2 ^ 52 <= Z.pos M < 2 ^ 53 /\ -1074 <= E <= 0 /\
    Z.pos M / 2 ^ (- E) = a / b /\
    - ((- Z.pos M) / 2 ^ (- E)) = - ((- a) / b).
Proof.
  intros Ha Hb.
  destruct (norm_mantissa a Ha) as [Hma Hda].
  destruct (norm_mantissa b Hb) as [Hmb Hdb].
  pose proof (digits_bounds a ltac:(lia)) as Ba.
  pose proof (digits_bounds b ltac:(lia)) as Bb.
  pose proof (digits_pos a ltac:(lia)) as Pa.
  pose proof (digits_pos b ltac:(lia)) as Pb.
  pose proof (digits_le a 53 ltac:(lia) ltac:(lia) ltac:(lia)) as La.
  pose proof (digits_le b 53 ltac:(lia) ltac:(lia) ltac:(lia)) as Lb.
  set (ma := a * 2 ^ (53 - digits a)) in *.
  set (mb := b * 2 ^ (53 - digits b)) in *.
  assert (H52 : 2 ^ 52 = 4503599627370496) by reflexivity.
  assert (H53 : 2 ^ 53 = 9007199254740992) by reflexivity.
  assert (H54 : 2 ^ 54 = 18014398509481984) by reflexivity.
  set (e := digits a - digits b - 53).
  set (N := ma * 2 ^ 53).
  assert (Hcore : SFdiv_core_binary prec emax (Z.pos (Z.to_pos ma)) (digits a - 53)
                    (Z.pos (Z.to_pos mb)) (digits b - 53)
                  = (N / mb, e, new_location mb (N mod mb))).
  { unfold SFdiv_core_binary.
    rewrite !Zdigits2_digits by lia.
    rewrite !Z2Pos.id by lia. rewrite Hda, Hdb.
    replace (Z.min (fexp prec emax (53 + (digits a - 53) - (53 + (digits b - 53))))
               (digits a - 53 - (digits b - 53))) with e
      by (unfold fexp, SpecFloat.emin, prec, emax, e; lia).
    replace (digits a - 53 - (digits b - 53) - e) with 53 by (unfold e; lia).
    rewrite Z.shiftl_mul_pow2 by lia. fold N.
    unfold Z.div, Z.modulo. destruct (Z.div_eucl N mb); reflexivity. }
  assert (HN : 2 ^ 52 * 2 ^ 53 <= N < 2 ^ 53 * 2 ^ 53) by (unfold N; lia).
  pose proof (Z.div_mod N mb ltac:(lia)) as Hdm.
  pose proof (Z.mod_pos_bound N mb ltac:(lia)) as Hmod.
  pose proof (quotient_bounds N mb HN Hmb) as Hq.
  destruct (round_quotient (xorb sa sb) (N / mb) (N mod mb) mb e Hmod Hq
              ltac:(unfold e; lia))
    as (M & t & HM & Ht & Hnear & Hres).
  replace (N / mb * mb + N mod mb) with N in Hnear by lia.
  (* the step of the grid of the quotient *)
  set (g := 53 + digits b - digits a - t).
  assert (Hg : 0 <= g) by (unfold g; lia).
  assert (HG : 0 < 2 ^ g) by (apply Z.pow_pos_nonneg; lia).
  assert (HbG : b < 2 * 2 ^ g).
  { assert (2 ^ digits b <= 2 ^ (g + 1)) by (apply Z.pow_le_mono_r; unfold g; lia).
    rewrite Z.pow_add_r in H by lia. change (2 ^ 1) with 2 in H. lia. }
  assert (Hnear' : 2 * Z.abs (M * b - a * 2 ^ g) <= b).
  { set (W := 2 ^ (53 - digits b) * 2 ^ t).
    assert (HW : 0 < W).
    { apply Z.mul_pos_pos; apply Z.pow_pos_nonneg; lia. }
    assert (H1 : mb * 2 ^ t = b * W) by (unfold mb, W; ring).
    assert (H2 : N = a * 2 ^ g * W).
    { unfold N, ma, W. rewrite <- !Z.mul_assoc, <- !Z.pow_add_r by lia.
      f_equal. f_equal. unfold g. lia. }
    rewrite H1, H2 in Hnear.
    replace (M * (b * W) - a * 2 ^ g * W) with ((M * b - a * 2 ^ g) * W) in Hnear by ring.
    exact (near_scale _ _ W HW Hnear). }
  destruct (nearest_floor_ceil a b (2 ^ g) M ltac:(lia) ltac:(lia) HG HbG Hnear')
    as [Hfloor Hceil].
  pose proof (ceil_div_le a b ltac:(lia) ltac:(lia)) as Hca.
  unfold SF64div, SFdiv, norm. fold ma mb. rewrite Hcore, Hres.
  destruct (Z.ltb_spec M (2 ^ 53)) as [Hlt|Hge].
  - exists (Z.to_pos M), (e + t).
    rewrite Z2Pos.id by lia.
    replace (- (e + t)) with g by (unfold e, g; lia).
    repeat split; try lia; unfold e; lia.
  - assert (M = 2 ^ 53) by lia. subst M.
    (* the quotient is below 2^53, so the step is at most 1/2 *)
    assert (Hg1 : 1 <= g).
    { destruct (Z.eq_dec g 0) as [Hg0|]; [|lia].
      rewrite Hg0 in Hceil. change (2 ^ 0) with 1 in Hceil.
      rewrite Z.div_1_r in Hceil. lia. }
    exists (Z.to_pos (2 ^ 52)), (e + t + 1).
    rewrite Z2Pos.id by lia.
    replace (- (e + t + 1)) with (g - 1) by (unfold e, g; lia).
    assert (Hsplit : 2 ^ g = 2 * 2 ^ (g - 1)).
    { replace g with (1 + (g - 1)) at 1 by lia. rewrite Z.pow_add_r by lia. reflexivity. }
    assert (HG' : 0 < 2 ^ (g - 1)) by (apply Z.pow_pos_nonneg; lia).
    rewrite Hsplit in Hfloor, Hceil.
    change (2 ^ 53) with (2 * 2 ^ 52) in Hfloor, Hceil.
    rewrite Z.div_mul_cancel_l in Hfloor by lia.
    replace (- (2 * 2 ^ 52)) with (2 * (- 2 ^ 52)) in Hceil by lia.
    rewrite Z.div_mul_cancel_l in Hceil by lia.
    repeat split; try lia; unfold e; lia.
Qed.

(** [Stats.of_Z] on a natural number below 2^53. *)
Lemma of_Z_nonneg k : 0 <= k < 2 ^ 53 -> Prim2SF (Stats.of_Z k) = of_int false k.
Proof.
  intros Hk. unfold of_int.
  destruct (Z.eqb_spec k 0) as [->|Hk0]; [reflexivity|].
  rewrite of_Z_norm by lia.
  replace (k <? 0) with false by (symmetry; apply Z.ltb_ge; lia).
  rewrite Z.abs_eq by lia. reflexivity.
Qed.

Lemma SFopp_of_int k : SFopp (of_int false k) = of_int true k.
Proof. unfold of_int. destruct (k =? 0); reflexivity. Qed.

(** [Math.ceil] on a Number of 53 bits below 2^53: the ceiling of its
    value, which for a negative Number is minus the floor of its
    magnitude. *)
Lemma ceil_spec x s M E :
  Prim2SF x = S754_finite s M E ->
  2 ^ 52 <= Z.pos M < 2 ^ 53 -> -1074 <= E <= 0 ->
  Prim2SF (Math.ceil x)
  = of_int s (if s then Z.pos M / 2 ^ (- E) else - ((- Z.pos M) / 2 ^ (- E))).
Proof.
  intros Hx HM HE. unfold Math.ceil. rewrite Hx.
  assert (H53 : 2 ^ 53 = 9007199254740992) by reflexivity.
  assert (H52 : 2 ^ 52 = 4503599627370496) by reflexivity.
  destruct (Z.leb_spec 0 E) as [H0|H0].
  - assert (E = 0) by lia. subst E.
    change (2 ^ (- 0)) with 1. rewrite !Z.div_1_r, Z.opp_involutive.
    rewrite Hx.
    assert (Hn : of_int s (Z.pos M) = S754_finite s M 0).
    { unfold of_int, norm. cbn [Z.eqb].
      rewrite (digits_unique (Z.pos M) 53) by lia.
      cbn [Z.sub Z.opp Z.add Z.pos_sub]. change (2 ^ 0) with 1.
      rewrite Z.mul_1_r. reflexivity. }
    destruct s; symmetry; exact Hn.
  - assert (HG : 2 <= 2 ^ (- E)).
    { change 2 with (2 ^ 1) at 1. apply Z.pow_le_mono_r; lia. }
    destruct s.
    + rewrite opp_spec, of_Z_nonneg, SFopp_of_int; [reflexivity|].
      split; [apply Z.div_pos; lia|].
      apply Z.le_lt_trans with (Z.pos M); [|lia].
      apply Z.div_le_upper_bound; nia.
    + rewrite of_Z_nonneg; [reflexivity|].
      pose proof (ceil_div_le (Z.pos M) (2 ^ (- E)) ltac:(lia) ltac:(lia)).
      assert (- Z.pos M / 2 ^ (- E) < 0); [|lia].
      apply Z.div_lt_upper_bound; lia.
Qed.

(** The key of an integer Number is the integer. *)
Lemma number_key_of_int x s k :
  Prim2SF x = of_int s k -> 0 <= k < 2 ^ 53 -> number_key x = Some (cond_Zopp s k).
Proof.
  intros Hx Hk. unfold number_key. rewrite Hx. unfold of_int.
  destruct (Z.eqb_spec k 0) as [->|Hk0].
  - destruct s; reflexivity.
  - unfold norm.
    pose proof (digits_pos k ltac:(lia)) as Pk.
    pose proof (digits_le k 53 ltac:(lia) ltac:(lia) ltac:(lia)) as Lk.
    assert (Hp : 0 < 2 ^ (53 - digits k)) by (apply Z.pow_pos_nonneg; lia).
    rewrite Z2Pos.id by nia.
    f_equal. f_equal.
    replace (digits k - 53) with (- (53 - digits k)) by lia.
    rewrite <- Z.shiftr_opp_r, Z.opp_involutive.
    rewrite Z.shiftr_div_pow2 by lia.
    apply Z.div_mul. lia.
Qed.

(** The product of a natural number and a positive integer, below
    2^53. *)
Lemma mul_of_int s sb k b :
  0 <= k -> 0 < b -> k * b < 2 ^ 53 ->
  SF64mul (of_int s k) (norm sb b) = of_int (xorb s sb) (k * b).
Proof.
  intros Hk Hb Hkb. unfold of_int.
  destruct (Z.eqb_spec k 0) as [->|Hk0]; [reflexivity|].
  replace (k * b =? 0) with false by (symmetry; apply Z.eqb_neq; nia).
  apply mul_norm; lia.
Qed.

Lemma ceil_mul_bound a b : 0 < a -> 0 < b -> - ((- a) / b) * b < a + b.
Proof.
  intros Ha Hb.
  pose proof (Z.div_mod (- a) b ltac:(lia)).
  pose proof (Z.mod_pos_bound (- a) b Hb). nia.
Qed.

Lemma floor_mul_bound a b : 0 < a -> 0 < b -> 0 <= a / b /\ a / b * b <= a.
Proof.
  intros Ha Hb.
  pose proof (Z.div_mod a b ltac:(lia)).
  pose proof (Z.mod_pos_bound a b Hb).
  split; [apply Z.div_pos; lia | nia].
Qed.

Lemma ceil_div_pos a b : 0 < a -> 0 < b -> 0 <= - ((- a) / b).
Proof.
  intros Ha Hb.
  assert (- a / b < 0); [|lia].
  apply Z.div_lt_upper_bound; lia.
Qed.

(** The signs: the quotient is negative when the signs of [p] and [w]
    differ, and its ceiling is then minus the floor of |p| / |w|. *)
Lemma signed_bucket p w :
  p <> 0 -> w <> 0 ->
  cond_Zopp (xorb (xorb (p <? 0) (w <? 0)) (w <? 0))
    ((if xorb (p <? 0) (w <? 0) then Z.abs p / Z.abs w
      else - (- Z.abs p / Z.abs w)) * Z.abs w)
  = - ((- p) / w) * w.
Proof.
  intros Hp Hw.
  destruct (Z.ltb_spec p 0) as [Hp0|Hp0]; destruct (Z.ltb_spec w 0) as [Hw0|Hw0];
    cbn [xorb cond_Zopp].
  - rewrite !Z.abs_neq by lia. rewrite Z.opp_involutive.
    pose proof (Z.div_opp_opp (- p) w Hw) as H.
    rewrite Z.opp_involutive in H. rewrite H. ring.
  - rewrite (Z.abs_neq p), (Z.abs_eq w) by lia. ring.
  - rewrite (Z.abs_eq p), (Z.abs_neq w) by lia.
    pose proof (Z.div_opp_opp p (- w) ltac:(lia)) as H.
    rewrite Z.opp_involutive in H. rewrite H. ring.
  - rewrite (Z.abs_eq p), (Z.abs_eq w) by lia. ring.
Qed.

(** In binary64 [Math.ceil(p / w) * w] is the exact ceil(p / w) * w as long
    as |p| + |w| <= 2^53: the price and the width are Numbers, the rounded
    quotient has the ceiling of the exact one, and the product is a
    Number. *)
Lemma bucket_price_exact w p :
  w <> 0 -> Z.abs p + Z.abs w <= 2 ^ 53 ->
  bucket_price w p = Some (exact_bucket w p).
Proof.
  intros Hw Hb. rewrite exact_bucket_div by exact Hw.
  assert (H53 : 2 ^ 53 = 9007199254740992) by reflexivity.
  destruct (Z.eq_dec p 0) as [->|Hp].
  - (* a zero price *)
    change (- 0) with 0. rewrite Z.div_0_l by lia. cbn [Z.opp Z.mul].
    destruct (Z.eq_dec (Z.abs w) (2 ^ 53)) as [Hw53|Hw53].
    + assert (Hcases : w = 2 ^ 53 \/ w = - 2 ^ 53) by lia.
      destruct Hcases as [-> | ->]; vm_compute; reflexivity.
    + unfold bucket_price, number_key.
      rewrite mul_spec.
      assert (Hc : Prim2SF (Math.ceil (Stats.of_Z 0 / Stats.of_Z w))
                   = S754_zero (xorb false (w <? 0))).
      { assert (Hd : Prim2SF (Stats.of_Z 0 / Stats.of_Z w) = S754_zero (xorb false (w <? 0))).
        { rewrite div_spec, (of_Z_norm w) by lia. reflexivity. }
        unfold Math.ceil. rewrite Hd. exact Hd. }
      rewrite Hc, (of_Z_norm w) by lia. reflexivity.
  - assert (Ha : 0 < Z.abs p < 2 ^ 53) by lia.
    assert (Hb' : 0 < Z.abs w < 2 ^ 53) by lia.
    destruct (div_norm (p <? 0) (w <? 0) (Z.abs p) (Z.abs w) Ha Hb')
      as (M & E & Hdiv & HM & HE & Hfloor & Hceil).
    assert (Hq : Prim2SF (Stats.of_Z p / Stats.of_Z w)
                 = S754_finite (xorb (p <? 0) (w <? 0)) M E).
    { rewrite div_spec, !of_Z_norm by lia. exact Hdiv. }
    pose proof (ceil_spec _ _ _ _ Hq HM HE) as Hc.
    rewrite Hfloor, Hceil in Hc.
    pose proof (floor_mul_bound _ _ (proj1 Ha) (proj1 Hb')) as [Hf0 Hf].
    pose proof (ceil_mul_bound _ _ (proj1 Ha) (proj1 Hb')) as Hcm.
    pose proof (ceil_div_pos _ _ (proj1 Ha) (proj1 Hb')) as Hc0.
    set (k := if xorb (p <? 0) (w <? 0) then Z.abs p / Z.abs w
              else - (- Z.abs p / Z.abs w)) in *.
    assert (Hk : 0 <= k /\ k * Z.abs w < 2 ^ 53).
    { unfold k. destruct (xorb (p <? 0) (w <? 0)); lia. }
    assert (Hprod : Prim2SF (Math.ceil (Stats.of_Z p / Stats.of_Z w) * Stats.of_Z w)
                    = of_int (xorb (xorb (p <? 0) (w <? 0)) (w <? 0)) (k * Z.abs w)).
    { rewrite mul_spec, Hc, of_Z_norm by lia. apply mul_of_int; lia. }
    unfold bucket_price.
    rewrite (number_key_of_int _ _ _ Hprod) by nia.
    f_equal. apply signed_bucket; assumption.
Qed.

End Binary64Facts.

(** Within that range the bucket of line 207 is the multiple of [w] next
    to the price. *)
Lemma bucket_price_spec (w p : Z) :
  w <> 0%Z -> (Z.abs p + Z.abs w <= 2 ^ 53)%Z ->
  exists b, bucket_price w p = Some b /\
            b = exact_bucket w p /\
            (w | b)%Z /\
            (0 < w -> p <= b < p + w)%Z /\
            (w < 0 -> p + w < b <= p)%Z.
Proof.
  intros Hw Hb. exists (exact_bucket w p).
  split; [exact (bucket_price_exact w p Hw Hb)|].
  split; [reflexivity|]. exact (exact_bucket_spec w p Hw).
Qed.

Lemma reduce_ones (lData : list Z) :
  Forall (fun v => v = 1%Z) lData -> lData <> [] ->
  match lData with
  | [v] => v
  | vs => fold_left Z.add vs 0%Z
  end = Z.of_nat (length lData).
Proof.
  intros Hall Hne.
  assert (Hsum : forall acc, fold_left Z.add lData acc
                             = (acc + Z.of_nat (length lData))%Z).
  { clear Hne. induction Hall as [|v vs -> _ IH]; intros acc; simpl.
    - lia.
    - rewrite IH. lia. }
  destruct lData as [|v [|v' vs]]; [contradiction Hne; reflexivity|..].
  - apply Forall_cons_iff in Hall as [-> _]. reflexivity.
  - rewrite Hsum. lia.
Qed.

Lemma emitted_ones (BANDWIDTH : Z) (k : Z * option Z) (col : list article) :
  map snd
      (List.filter (fun kv : (Z * option Z) * Z => bool_decide (fst kv = k))
         (flat_map (fun a : article => [(frequency_key BANDWIDTH a, 1%Z)]) col))
  = repeat 1%Z
      (length (List.filter
                 (fun a => bool_decide (frequency_key BANDWIDTH a = k)) col)).
Proof.
  induction col as [|a col IH]; [reflexivity|].
  cbn [flat_map app List.filter fst].
  destruct (bool_decide (frequency_key BANDWIDTH a = k)); cbn; rewrite IH;
    reflexivity.
Qed.

Lemma emitted_keys (BANDWIDTH : Z) (col : list article) :
  map fst (flat_map (fun a : article => [(frequency_key BANDWIDTH a, 1%Z)]) col)
  = map (frequency_key BANDWIDTH) col.
Proof.
  induction col as [|a col IH]; [reflexivity|]. cbn. rewrite IH. reflexivity.
Qed.

Lemma same_group_key (BANDWIDTH : Z) (a : article) (col : list article) :
  List.filter (fun a' => bool_decide (frequency_key BANDWIDTH a'
                                      = frequency_key BANDWIDTH a)) col
  = List.filter (same_group BANDWIDTH a) col.
Proof.
  apply List.filter_ext. intros a'. unfold same_group, frequency_key.
  apply bool_decide_ext. split; [intros [= -> ->]; auto|].
  intros [-> ->]. reflexivity.
Qed.

(** The list returned for bucket width [BANDWIDTH]: one entry per group of
    emitted keys, counting the group's members. *)
Lemma rating_price_frequency_groups (BANDWIDTH : Z) (col : list article) :
  rating_price_frequency BANDWIDTH col
  = map (fun g : (Z * option Z) * list Z =>
           Frequency (fst (fst g)) (snd (fst g)) (Z.of_nat (length (snd g))))
        (group_pairs
           (flat_map (fun a : article => [(frequency_key BANDWIDTH a, 1%Z)]) col)).
Proof.
  unfold rating_price_frequency, map_reduce. rewrite map_map.
  set (emitted := flat_map _ col).
  assert (Hgroups : forall g, In g (group_pairs emitted) ->
            Forall (fun v => v = 1%Z) (snd g) /\ snd g <> []).
  { intros [k vs] Hin. cbn [snd]. split.
    - rewrite <- (group_values_In k vs _ (group_pairs_NoDup emitted) Hin).
      rewrite group_pairs_values. subst emitted.
      change (fun a : article => [((rating a, bucket_price BANDWIDTH (price a)), 1%Z)])
        with (fun a : article => [(frequency_key BANDWIDTH a, 1%Z)]).
      rewrite emitted_ones. apply List.Forall_forall. intros v Hv.
      apply repeat_spec in Hv. exact Hv.
    - pose proof (group_pairs_nonempty emitted) as Hne.
      rewrite List.Forall_forall in Hne. apply (Hne _ Hin). }
  apply map_ext_in. intros g Hin. cbn [snd].
  destruct (Hgroups g Hin) as [Hones Hne].
  f_equal. destruct g as [k [|v [|v' vs]]];
    exact (reduce_ones _ Hones Hne).
Qed.

(** C3, as stated, fails: at price 9007199254741001 and bucket width 500
    the histogram puts the record into bucket 9007199254741000, which is below
    the price, where ceil(price / 500) * 500 is 9007199254741500: line 207
    computes in binary64, and the price is not a Number. *)
Lemma bucket_price_differs_from_exact_bucket :
  rating_price_frequency 500 [rated 5 9007199254741001]
  = [Frequency 5 (Some 9007199254741000%Z) 1] /\
  bucket_price 500 9007199254741001 = Some 9007199254741000%Z /\
  exact_bucket 500 9007199254741001 = 9007199254741500%Z.
Proof. vm_compute. repeat split. Qed.

(** C3 (amended): for every collection and every non-zero bucket width w
    such that |price| + |w| <= 2^53 for the prices of the collection, each
    record is assigned to the bucket ceil(price / w) * w - the multiple of
    w with price <= bucket < price + w for a positive w - and the result
    has exactly one entry per (rating, bucket) group, whose count is the
    number of records of that rating and bucket;
    [calc_rating_price_frequency] uses w = 500, under which 2499 and 2500
    fall into bucket 2500 and 2501 into bucket 3000. *)
Theorem rating_price_histogram (col : list article) (w : Z) :
  w <> 0%Z ->
  (forall a, In a col -> (Z.abs (price a) + Z.abs w <= 2 ^ 53)%Z) ->
  (forall a, In a col ->
     exists b,
       bucket_price w (price a) = Some b /\
       b = exact_bucket w (price a) /\
       (w | b)%Z /\
       (0 < w -> price a <= b < price a + w)%Z /\
       (w < 0 -> price a + w < b <= price a)%Z /\
       In (Frequency (rating a) (Some b)
             (Z.of_nat
                (length
                   (List.filter
                      (fun a' =>
                         bool_decide
                           (rating a' = rating a /\
                            exact_bucket w (price a')
                            = exact_bucket w (price a)))
                      col))))
          (rating_price_frequency w col)) /\
  (forall f, In f (rating_price_frequency w col) ->
     exists a, In a col /\ f_rating f = rating a /\
               f_price f = Some (exact_bucket w (price a))) /\
  List.NoDup (map (fun f => (f_rating f, f_price f))
                  (rating_price_frequency w col)) /\
  calc_rating_price_frequency col = inr (rating_price_frequency 500 col) /\
  bucket_price 500 2499 = Some 2500%Z /\
  bucket_price 500 2500 = Some 2500%Z /\
  bucket_price 500 2501 = Some 3000%Z.
Proof.
  intros Hw Hrange. rewrite rating_price_frequency_groups.
  set (emitted := flat_map _ col).
  split; [|split; [|split; [|repeat split]]].
  - intros a Hin.
    destruct (bucket_price_spec w (price a) Hw (Hrange a Hin))
      as (b & Hb & Hex & Hdiv & Hpos & Hneg).
    exists b. repeat (split; [assumption|]).
    assert (Hkey : In (frequency_key w a) (map fst (group_pairs emitted))).
    { apply group_pairs_keys. subst emitted. rewrite emitted_keys.
      apply in_map, Hin. }
    apply In_group_values in Hkey.
    rewrite group_pairs_values in Hkey. subst emitted.
    rewrite emitted_ones, same_group_key in Hkey.
    apply (in_map (fun g : (Z * option Z) * list Z =>
                     Frequency (fst (fst g)) (snd (fst g))
                               (Z.of_nat (length (snd g))))) in Hkey.
    cbn [fst snd frequency_key] in Hkey.
    rewrite repeat_length, Hb in Hkey.
    rewrite (List.filter_ext_in (same_group w a)
               (fun a' => bool_decide
                            (rating a' = rating a /\
                             exact_bucket w (price a')
                             = exact_bucket w (price a)))) in Hkey;
      [exact Hkey|].
    intros a' Hin'. unfold same_group.
    rewrite (bucket_price_exact w (price a') Hw (Hrange a' Hin')).
    rewrite (bucket_price_exact w (price a) Hw (Hrange a Hin)).
    apply bool_decide_ext. split.
    + intros [Hr [= Hbk]]. auto.
    + intros [Hr Hbk]. rewrite Hbk. auto.
  - intros f Hin. apply in_map_iff in Hin as ([k vs] & <- & Hin).
    apply (in_map fst) in Hin.
    apply (proj1 (group_pairs_keys _ _)) in Hin. subst emitted.
    rewrite emitted_keys in Hin.
    apply in_map_iff in Hin as (a & Hk & Hin).
    change (frequency_key w a = k) in Hk. subst k.
    exists a. split; [exact Hin|]. split; [reflexivity|].
    cbn [f_price fst snd frequency_key].
    exact (bucket_price_exact w (price a) Hw (Hrange a Hin)).
  - rewrite map_map.
    rewrite (map_ext _ fst); [apply group_pairs_NoDup|].
    intros [[r b] vs]. reflexivity.
Qed.

Lemma rating_price_histogram_witness :
  500%Z <> 0%Z /\
  In (Frequency 5 (Some 2500%Z) 2)
     (rating_price_frequency 500 [rated 5 2499; rated 5 2500; rated 5 2501]) /\
  In (Frequency 5 (Some 3000%Z) 1)
     (rating_price_frequency 500 [rated 5 2499; rated 5 2500; rated 5 2501]).
Proof.
  pose (col := [rated 5 2499; rated 5 2500; rated 5 2501]).
  assert (Hw : 500%Z <> 0%Z) by lia.
  assert (Hrange : forall a, In a col ->
                     (Z.abs (price a) + Z.abs 500 <= 2 ^ 53)%Z).
  { intros a [<-|[<-|[<-|[]]]]; vm_compute; discriminate. }
  split; [exact Hw|].
  destruct (rating_price_histogram col 500 Hw Hrange) as (Hmember & _).
  split.
  - destruct (Hmember (rated 5 2499) ltac:(left; reflexivity))
      as (b & Hb & _ & _ & _ & _ & Hin).
    vm_compute in Hb. injection Hb as <-. exact Hin.
  - destruct (Hmember (rated 5 2501) ltac:(right; right; left; reflexivity))
      as (b & Hb & _ & _ & _ & _ & Hin).
    vm_compute in Hb. injection Hb as <-. exact Hin.
Defined.

(* ===================================================================== *)
(** ** Discovery: the page loop *)
(* ===================================================================== *)

Section DiscoverFacts.

Variable web : string -> option string.

Lemma for_each_app {A} (l1 l2 : list A) (body : A -> M unit) (w : world) :
  for_each (l1 ++ l2) body w
  = match for_each l1 body w with
    | (w', Ok _) => for_each l2 body w'
    | r => r
    end.
Proof.
  revert w. induction l1 as [|x l1 IH]; intros w; [reflexivity|].
  cbn [app for_each]. unfold bind.
  destruct (body x w) as [w' [[]| |]]; [apply IH | reflexivity..].
Qed.

Lemma for_each_yield (l : list string) (w : world) :
  for_each l (fun rArticleURL => emit (Yield rArticleURL) ;; nobody rArticleURL) w
  = (World (store w) (trace w ++ map Yield l), Ok tt).
Proof.
  revert w. induction l as [|u l IH]; intros [st tr].
  - cbn. rewrite app_nil_r. reflexivity.
  - cbn [for_each]. unfold_monad. unfold nobody. unfold_monad. cbn [store trace].
    specialize (IH (World st (tr ++ [Yield u]))).
    unfold nobody in IH. unfold_monad. rewrite IH. cbn [store trace map].
    rewrite <- app_assoc. reflexivity.
Qed.

(** One turn of the [while True] loop, for any consumer. *)
Lemma iter_articles_step (fuel : nat) (rSearchURL : string) (iPage : nat)
      (body : string -> M unit) (w : world) :
  iter_articles_from web (S fuel) rSearchURL iPage body w
  = let w1 := World (store w) (trace w ++ [Fetch (page_url rSearchURL iPage)]) in
    match web (page_url rSearchURL iPage) with
    | None => (w1, Raise (URLError (page_url rSearchURL iPage)))
    | Some rDocument =>
        match for_each (Regex.finditer Regex.sReviewPat rDocument)
                       (fun rArticleURL =>
                          emit (Yield rArticleURL) ;; body rArticleURL) w1 with
        | (w2, Ok _) =>
            if has_next_marker rDocument
            then iter_articles_from web fuel rSearchURL (S iPage) body w2
            else (w2, Ok tt)
        | (w2, Raise e) => (w2, Raise e)
        | (w2, OutOfFuel) => (w2, OutOfFuel)
        end
    end.
Proof.
  cbn [iter_articles_from]. unfold mbind, M_bind. unfold bind at 1.
  rewrite urlopen_run.
  destruct (web (page_url rSearchURL iPage)) as [rDocument|]; [|reflexivity].
  unfold bind at 1. cbn zeta.
  destruct (for_each _ _ _) as [w2 [[]| |]]; try reflexivity.
  destruct (has_next_marker rDocument); reflexivity.
Qed.

(** The same turn when nothing consumes the values. *)
Lemma discover_step (fuel : nat) (rSearchURL : string) (iPage : nat)
      (w : world) :
  iter_articles_from web (S fuel) rSearchURL iPage nobody w
  = match web (page_url rSearchURL iPage) with
    | None =>
        (World (store w) (trace w ++ [Fetch (page_url rSearchURL iPage)]),
         Raise (URLError (page_url rSearchURL iPage)))
    | Some rDocument =>
        let w2 := World (store w)
                        (trace w ++ page_events rSearchURL iPage rDocument) in
        if has_next_marker rDocument
        then iter_articles_from web fuel rSearchURL (S iPage) nobody w2
        else (w2, Ok tt)
    end.
Proof.
  rewrite iter_articles_step. cbn zeta.
  destruct (web (page_url rSearchURL iPage)) as [rDocument|]; [|reflexivity].
  rewrite for_each_yield. cbn [store trace]. unfold page_events.
  rewrite <- app_assoc. reflexivity.
Qed.

(** Discovery never touches the collection, and its events do not depend
    on the world it starts from. *)
Lemma discover_frame (fuel : nat) (rSearchURL : string) (iPage : nat)
      (w : world) :
  iter_articles_from web fuel rSearchURL iPage nobody w
  = (World (store w)
           (trace w ++ trace (fst (iter_articles_from web fuel rSearchURL
                                     iPage nobody (World [] [])))),
     snd (iter_articles_from web fuel rSearchURL iPage nobody (World [] []))).
Proof.
  revert iPage w. induction fuel as [|fuel IH]; intros iPage w.
  - cbn. rewrite app_nil_r. destruct w; reflexivity.
  - rewrite !discover_step.
    destruct (web (page_url rSearchURL iPage)) as [rDocument|];
      [|reflexivity].
    cbn zeta. destruct (has_next_marker rDocument); [|reflexivity].
    cbn [store trace app].
    rewrite (IH (S iPage)
               (World (store w)
                      (trace w ++ page_events rSearchURL iPage rDocument))).
    rewrite (IH (S iPage)
               (World [] (page_events rSearchURL iPage rDocument))).
    cbn [store trace fst snd app]. rewrite <- app_assoc. reflexivity.
Qed.

(** While the pages carry the marker, the loop goes on to the next page. *)
Lemma discover_pages (docs : list string) :
  forall (fuel : nat) (rSearchURL : string) (iPage : nat) (w : world),
    served web rSearchURL iPage docs ->
    forallb has_next_marker docs = true ->
    iter_articles_from web (length docs + fuel) rSearchURL iPage nobody w
    = iter_articles_from web fuel rSearchURL (iPage + length docs) nobody
        (World (store w) (trace w ++ listing_events rSearchURL iPage docs)).
Proof.
  induction docs as [|d docs IH]; intros fuel rSearchURL iPage w Hs Hm.
  - cbn. rewrite app_nil_r, Nat.add_0_r. destruct w; reflexivity.
  - destruct Hs as [Hd Hs]. cbn [forallb] in Hm.
    apply andb_prop in Hm as [Hmd Hm].
    cbn [length Nat.add]. rewrite discover_step, Hd. cbn zeta. rewrite Hmd.
    rewrite (IH fuel rSearchURL (S iPage) _ Hs Hm).
    cbn [store trace listing_events]. rewrite <- app_assoc.
    replace (S iPage + length docs)%nat with (iPage + S (length docs))%nat
      by lia.
    reflexivity.
Qed.

Lemma served_app (rSearchURL : string) (docs1 docs2 : list string) :
  forall iPage,
    served web rSearchURL iPage (docs1 ++ docs2) ->
    served web rSearchURL iPage docs1 /\
    served web rSearchURL (iPage + length docs1) docs2.
Proof.
  induction docs1 as [|d docs1 IH]; intros iPage H.
  - cbn. rewrite Nat.add_0_r. auto.
  - destruct H as [Hd H]. apply IH in H as [H1 H2]. cbn [served length].
    replace (iPage + S (length docs1))%nat with (S iPage + length docs1)%nat
      by lia.
    auto.
Qed.

Lemma listing_events_app (rSearchURL : string) (docs1 docs2 : list string) :
  forall iPage,
    listing_events rSearchURL iPage (docs1 ++ docs2)
    = listing_events rSearchURL iPage docs1
      ++ listing_events rSearchURL (iPage + length docs1) docs2.
Proof.
  induction docs1 as [|d docs1 IH]; intros iPage.
  - cbn. rewrite Nat.add_0_r. reflexivity.
  - cbn [app listing_events length]. rewrite IH, <- app_assoc.
    replace (iPage + S (length docs1))%nat with (S iPage + length docs1)%nat
      by lia.
    reflexivity.
Qed.

End DiscoverFacts.

Section PaginationFacts.

Variable web : string -> option string.

Lemma discover_trace_grows (fuel : nat) (rSearchURL : string) (iPage : nat)
      (w : world) :
  exists rest,
    fst (iter_articles_from web fuel rSearchURL iPage nobody w)
    = World (store w) (trace w ++ rest).
Proof.
  rewrite discover_frame. eexists. reflexivity.
Qed.

Lemma fetch_count_page (rSearchURL : string) (iPage : nat) (rDocument : string) :
  length (List.filter is_fetch (page_events rSearchURL iPage rDocument)) = 1%nat.
Proof.
  unfold page_events. cbn [List.filter is_fetch length]. f_equal.
  induction (Regex.finditer Regex.sReviewPat rDocument) as [|u l IH];
    [reflexivity | exact IH].
Qed.

(** If page [iPage + k] fails to load or lacks the marker, the loop started
    at [iPage] ends within [k + 1] turns, with a result that no longer
    depends on the fuel. *)
Lemma discover_ends (rSearchURL : string) (k : nat) :
  forall iPage,
    (web (page_url rSearchURL (iPage + k)) = None \/
     exists rDocument,
       web (page_url rSearchURL (iPage + k)) = Some rDocument /\
       has_next_marker rDocument = false) ->
    exists events o,
      o <> OutOfFuel /\
      (length (List.filter is_fetch events) <= S k)%nat /\
      forall fuel w,
        (k < fuel)%nat ->
        iter_articles_from web fuel rSearchURL iPage nobody w
        = (World (store w) (trace w ++ events), o).
Proof.
  induction k as [|k IH]; intros iPage Hbad.
  - rewrite Nat.add_0_r in Hbad.
    destruct Hbad as [Hnone|(d & Hd & Hm)].
    + exists [Fetch (page_url rSearchURL iPage)], (Raise (URLError (page_url rSearchURL iPage))).
      split; [discriminate|]. split; [cbn; lia|].
      intros [|fuel] w Hf; [lia|]. rewrite discover_step, Hnone. reflexivity.
    + exists (page_events rSearchURL iPage d), (Ok tt).
      split; [discriminate|]. split; [rewrite fetch_count_page; lia|].
      intros [|fuel] w Hf; [lia|]. rewrite discover_step, Hd. cbn zeta.
      rewrite Hm. reflexivity.
  - replace (iPage + S k)%nat with (S iPage + k)%nat in Hbad by lia.
    destruct (IH (S iPage) Hbad) as (events & o & Ho & Hcount & Hrun).
    destruct (web (page_url rSearchURL iPage)) as [d|] eqn:Hd.
    + destruct (has_next_marker d) eqn:Hm.
      * exists (page_events rSearchURL iPage d ++ events), o.
        split; [exact Ho|]. split.
        { rewrite List.filter_app, length_app, fetch_count_page. lia. }
        intros [|fuel] w Hf; [lia|]. rewrite discover_step, Hd. cbn zeta.
        rewrite Hm, Hrun by lia. cbn [store trace].
        rewrite <- app_assoc. reflexivity.
      * exists (page_events rSearchURL iPage d), (Ok tt).
        split; [discriminate|]. split; [rewrite fetch_count_page; lia|].
        intros [|fuel] w Hf; [lia|]. rewrite discover_step, Hd. cbn zeta.
        rewrite Hm. reflexivity.
    + exists [Fetch (page_url rSearchURL iPage)], (Raise (URLError (page_url rSearchURL iPage))).
      split; [discriminate|]. split; [cbn; lia|].
      intros [|fuel] w Hf; [lia|]. rewrite discover_step, Hd. reflexivity.
Qed.

End PaginationFacts.

Lemma endless_web_never_ends (fuel : nat) :
  forall (rSearchURL : string) (iPage : nat) (w : world),
    snd (iter_articles_from endless_web fuel rSearchURL iPage nobody w)
    = OutOfFuel.
Proof.
  induction fuel as [|fuel IH]; intros rSearchURL iPage w; [reflexivity|].
  rewrite discover_step. unfold endless_web at 1. cbn zeta.
  change (has_next_marker "?page=") with true. cbn iota. apply IH.
Qed.

(** C5: when the web serves the listing pages [docs ++ [last]] and every
    page of [docs] carries the marker, discovery fetches these pages in
    order and yields each page's article URLs in document order, whatever
    their number; it stops right after [last] when [last] lacks the marker,
    and goes on to fetch the next page index when [last] carries it. *)
Theorem discover_paginates
        (web : string -> option string) (rSearchURL : string)
        (docs : list string) (last : string) (fuel : nat) (w : world) :
  served web rSearchURL 0 (docs ++ [last]) ->
  forallb has_next_marker docs = true ->
  (has_next_marker last = false ->
   (length docs < fuel)%nat ->
   discover web fuel rSearchURL w
   = (World (store w)
            (trace w ++ listing_events rSearchURL 0 (docs ++ [last])),
      Ok tt)) /\
  (has_next_marker last = true ->
   (S (length docs) < fuel)%nat ->
   exists rest,
     trace (fst (discover web fuel rSearchURL w))
     = trace w ++ listing_events rSearchURL 0 (docs ++ [last])
       ++ Fetch (page_url rSearchURL (S (length docs))) :: rest).
Proof.
  intros Hs Hm. apply served_app in Hs as [Hs [Hlast _]].
  cbn [Nat.add] in Hlast. unfold discover, iter_articles.
  rewrite listing_events_app. cbn [Nat.add listing_events].
  rewrite app_nil_r. split; intros Hl Hf.
  - replace fuel with (length docs + S (fuel - S (length docs)))%nat by lia.
    rewrite (discover_pages web docs _ _ _ _ Hs Hm). cbn [Nat.add].
    rewrite discover_step, Hlast. cbn zeta. rewrite Hl. cbn [store trace].
    rewrite <- app_assoc. reflexivity.
  - replace fuel with (length docs + S (S (fuel - S (S (length docs)))))%nat
      by lia.
    rewrite (discover_pages web docs _ _ _ _ Hs Hm). cbn [Nat.add].
    rewrite discover_step, Hlast. cbn zeta. rewrite Hl. cbn [store trace].
    rewrite discover_step.
    destruct (web (page_url rSearchURL (S (length docs)))) as [d|].
    + cbn zeta. destruct (has_next_marker d).
      * match goal with
        | |- context [iter_articles_from web ?f ?t ?i nobody ?w0] =>
            destruct (discover_trace_grows web f t i w0) as [rest Hrest]
        end.
        rewrite Hrest. cbn [trace]. unfold page_events at 3.
        eexists. rewrite <- !app_assoc. cbn [app]. reflexivity.
      * cbn [fst trace]. unfold page_events at 3.
        eexists. rewrite <- !app_assoc. cbn [app]. reflexivity.
    + cbn [fst trace]. exists []. rewrite <- !app_assoc. reflexivity.
Qed.

(** The two-page fixture: both pages' URLs are yielded, and no third page
    is fetched. *)
Lemma discover_paginates_witness :
  served fixture_web "L" 0 ([fixture_page0] ++ [fixture_page1]) /\
  forallb has_next_marker [fixture_page0] = true /\
  has_next_marker fixture_page1 = false /\
  discover fixture_web 7 "L" (World [] [])
  = (World [] [Fetch "L&page=0"; Yield "/a"; Yield "/b";
               Fetch "L&page=1"; Yield "/c"],
     Ok tt).
Proof.
  assert (Hs : served fixture_web "L" 0 ([fixture_page0] ++ [fixture_page1]))
    by (repeat split).
  assert (Hm : forallb has_next_marker [fixture_page0] = true)
    by reflexivity.
  assert (Hl : has_next_marker fixture_page1 = false) by reflexivity.
  repeat (split; [assumption|]).
  apply (proj1 (discover_paginates fixture_web "L" [fixture_page0]
                  fixture_page1 7 (World [] []) Hs Hm) Hl).
  cbn. lia.
Defined.

(** C9, as stated, fails: on a web whose every listing page announces a
    further page, discovery is still running after any number of turns. *)
Lemma discover_can_run_forever :
  ~ (forall (web : string -> option string) (rSearchURL : string),
        exists fuel,
          snd (discover web fuel rSearchURL (World [] [])) <> OutOfFuel).
Proof.
  intros H. destruct (H endless_web "L") as [fuel Hfuel].
  apply Hfuel. apply endless_web_never_ends.
Qed.

(** C9 (amended): discovery terminates whenever some listing page fails to
    load or lacks the marker: if page [k] is such a page, then with any
    fuel above [k] the run ends (normally, or with the fetch error), it
    makes at most [k + 1] fetches, and its events and outcome do not depend
    on the fuel. *)
Theorem discover_terminates
        (web : string -> option string) (rSearchURL : string) (k : nat) :
  (web (page_url rSearchURL k) = None \/
   exists rDocument,
     web (page_url rSearchURL k) = Some rDocument /\
     has_next_marker rDocument = false) ->
  exists events o,
    o <> OutOfFuel /\
    (length (List.filter is_fetch events) <= S k)%nat /\
    forall fuel w,
      (k < fuel)%nat ->
      discover web fuel rSearchURL w
      = (World (store w) (trace w ++ events), o).
Proof.
  intros Hbad. apply (discover_ends web rSearchURL k 0). exact Hbad.
Qed.

Lemma discover_terminates_witness :
  exists events o,
    o <> OutOfFuel /\
    (length (List.filter is_fetch events) <= 2)%nat /\
    forall fuel w,
      (1 < fuel)%nat ->
      discover fixture_web fuel "L" w
      = (World (store w) (trace w ++ events), o).
Proof.
  apply (discover_terminates fixture_web "L" 1).
  right. exists fixture_page1. split; reflexivity.
Defined.

(* ===================================================================== *)
(** ** The crawl *)
(* ===================================================================== *)

Section CrawlFacts.

Variable web : string -> option string.

Lemma count_url_unique (rURL : string) (col : list article) :
  List.NoDup (map URL col) -> In rURL (map URL col) ->
  count_url rURL col = 1%nat.
Proof.
  unfold count_url. induction col as [|a col IH]; intros Hnd Hin; [easy|].
  cbn [map] in Hnd, Hin. apply NoDup_cons_iff in Hnd as [Hnotin Hnd].
  cbn [List.filter].
  destruct (String.eqb_spec (URL a) rURL) as [E|E].
  - cbn [length]. f_equal.
    assert (Hnone : forall l, ~ In rURL (map URL l) ->
              List.filter (fun a0 => String.eqb (URL a0) rURL) l = []).
    { induction l as [|b l IHl]; intros Hb; [reflexivity|].
      cbn [List.filter].
      destruct (String.eqb_spec (URL b) rURL) as [Eb|Eb].
      - exfalso. apply Hb. left. exact Eb.
      - apply IHl. intros Hl. apply Hb. right. exact Hl. }
    rewrite Hnone; [reflexivity|]. rewrite <- E. exact Hnotin.
  - destruct Hin as [Hin|Hin]; [contradiction|]. apply IH; assumption.
Qed.

(** A URL present once in the collection is skipped: no fetch, no insert. *)
Lemma build_db_body_skip (g : globals) (rURL : string) (w : world) :
  g_sCol g = true -> count_url rURL (store w) = 1%nat ->
  build_db_body web g rURL w = (w, Ok tt).
Proof.
  intros Hg Hc. rewrite build_db_body_run, Hg, Hc. reflexivity.
Qed.

Lemma for_each_skip (g : globals) (l : list string) (w : world) :
  g_sCol g = true ->
  (forall u, In u l -> count_url u (store w) = 1%nat) ->
  for_each l (fun rArticleURL =>
                emit (Yield rArticleURL) ;; build_db_body web g rArticleURL) w
  = (World (store w) (trace w ++ map Yield l), Ok tt).
Proof.
  intros Hg. revert w. induction l as [|u l IH]; intros [st tr] Hall.
  - cbn. rewrite app_nil_r. reflexivity.
  - cbn [for_each]. unfold mbind, M_bind, bind, emit.
    rewrite build_db_body_skip; [|exact Hg|apply Hall; left; reflexivity].
    rewrite IH; [|intros u' Hu'; apply Hall; right; exact Hu'].
    cbn [store trace map]. rewrite <- app_assoc. reflexivity.
Qed.

Lemma yields_app (e1 e2 : list event) :
  yields (e1 ++ e2) = yields e1 ++ yields e2.
Proof. unfold yields. apply flat_map_app. Qed.

Lemma yields_page (rSearchURL : string) (iPage : nat) (rDocument : string) :
  yields (page_events rSearchURL iPage rDocument)
  = Regex.finditer Regex.sReviewPat rDocument.
Proof.
  unfold page_events, yields. cbn [flat_map app].
  induction (Regex.finditer Regex.sReviewPat rDocument) as [|u l IH];
    [reflexivity|]. cbn [map flat_map app]. rewrite IH. reflexivity.
Qed.

(** When every URL that discovery yields is present once in the
    collection, the crawl does exactly what discovery alone does. *)
Lemma crawl_is_discovery (g : globals) (rSearchURL : string) (fuel : nat) :
  g_sCol g = true ->
  forall (iPage : nat) (w : world),
    (forall u,
        In u (yields (trace (fst (iter_articles_from web fuel rSearchURL
                                    iPage nobody (World [] []))))) ->
        count_url u (store w) = 1%nat) ->
    iter_articles_from web fuel rSearchURL iPage (build_db_body web g) w
    = iter_articles_from web fuel rSearchURL iPage nobody w.
Proof.
  intros Hg. induction fuel as [|fuel IH]; intros iPage w Hall; [reflexivity|].
  rewrite discover_step in Hall. rewrite discover_step, iter_articles_step.
  cbn zeta in *.
  destruct (web (page_url rSearchURL iPage)) as [rDocument|]; [|reflexivity].
  assert (Hpage : forall u,
             In u (Regex.finditer Regex.sReviewPat rDocument) ->
             count_url u (store w) = 1%nat).
  { intros u Hu. apply Hall.
    destruct (has_next_marker rDocument).
    - rewrite discover_frame. cbn [fst store trace app].
      rewrite yields_app, yields_page. apply in_or_app. left. exact Hu.
    - cbn [fst store trace app]. rewrite yields_page. exact Hu. }
  rewrite for_each_skip by (cbn [store]; assumption).
  cbn [store trace]. unfold page_events. rewrite <- app_assoc. cbn [app].
  destruct (has_next_marker rDocument); [|reflexivity].
  apply IH. cbn [store]. intros u Hu. apply Hall.
  rewrite discover_frame. cbn [fst store trace app].
  rewrite yields_app. apply in_or_app. right. exact Hu.
Qed.

(** The queries of [main] read the collection without changing it. *)
Lemma main_on_populated_store (fuel : nat) (w : world) :
  store w <> [] -> fst (main web fuel w) = w.
Proof.
  destruct w as [[|a col] tr]; cbn [store]; intros Hne; [contradiction|].
  unfold main. unfold mbind, M_bind, bind, get_store, query.
  cbn [store length Nat.eqb]. unfold mret, M_ret, ret. cbn [store].
  destruct (get_price_range (a :: col)); [reflexivity|].
  destruct (price_spread_by_rating (a :: col)); [reflexivity|].
  destruct (find_distinct_specs (a :: col)); [reflexivity|].
  destruct (calc_rating_price_frequency (a :: col)); reflexivity.
Qed.

Lemma count_url_absent (rURL : string) (col : list article) :
  ~ In rURL (map URL col) -> count_url rURL col = 0%nat.
Proof.
  unfold count_url. induction col as [|a col IH]; intros Hnotin; [reflexivity|].
  cbn [List.filter]. destruct (String.eqb_spec (URL a) rURL) as [E|E].
  - exfalso. apply Hnotin. left. exact E.
  - apply IH. intros Hin. apply Hnotin. right. exact Hin.
Qed.

(** The pre-insert check keeps URLs unique: a crawl step started on a
    collection without duplicate URLs ends on one. *)
Lemma build_db_body_keeps_unique (g : globals) (rURL : string) (w : world) :
  List.NoDup (map URL (store w)) ->
  List.NoDup (map URL (store (fst (build_db_body web g rURL w)))).
Proof.
  intros Hnd. rewrite build_db_body_run.
  destruct (g_sCol g); [|exact Hnd].
  destruct (Nat.eqb_spec (count_url rURL (store w)) 1) as [E|E]; [exact Hnd|].
  cbn zeta.
  destruct (web (rURL ++ "/specs")%string) as [rDocument|]; [|exact Hnd].
  destruct (parse_article rURL rDocument) as [a| |] eqn:Hp; try exact Hnd.
  cbn [fst store]. apply parse_article_ok in Hp as (Hurl & _).
  rewrite map_app. cbn [map]. rewrite Hurl.
  apply List.NoDup_app; [exact Hnd| |].
  - apply List.NoDup_cons; [intros [] | apply List.NoDup_nil].
  - intros u Hin [<-|[]]. apply E. apply count_url_unique; assumption.
Qed.

(** On an empty collection [main] calls [build_db], which fails on its
    first line: [rSearchURL] is a local variable of [main], not a global. *)
Lemma main_on_empty_store (fuel : nat) (tr : list event) :
  main web fuel (World [] tr) = (World [] tr, Raise (NameError "rSearchURL")).
Proof. reflexivity. Qed.

End CrawlFacts.

(** With both names bound, a first crawl of a one-article listing fetches
    the listing page and the detail page and inserts the record; a second
    crawl fetches the listing only and inserts nothing. *)
Example crawl_inserts_then_skips :
  build_db small_web (Globals (Some "L") true) 3 (World [] [])
  = (World [Article "/onkyo" "Onkyo TX-NR609" 500 5
                    (build_spec (spec_rows sample_specs_page))]
           [Fetch "L&page=0"; Yield "/onkyo"; Fetch "/onkyo/specs"],
     Ok tt) /\
  build_db small_web (Globals (Some "L") true) 3
           (World [Article "/onkyo" "Onkyo TX-NR609" 500 5
                           (build_spec (spec_rows sample_specs_page))] [])
  = (World [Article "/onkyo" "Onkyo TX-NR609" 500 5
                    (build_spec (spec_rows sample_specs_page))]
           [Fetch "L&page=0"; Yield "/onkyo"],
     Ok tt).
Proof. split; vm_compute; reflexivity. Qed.

(** C7: the crawl is idempotent.  When the collection holds each URL at
    most once (the uniqueness the pre-insert check maintains) and already
    contains every URL that discovery yields, each discovered URL is
    skipped without a fetch or an insert, the whole crawl does exactly what
    discovery alone does and leaves the collection as it was; and [main]
    runs the build phase only on an empty collection, so that on a
    populated one it changes nothing at all. *)
Theorem crawl_is_idempotent
        (web : string -> option string) (g : globals) (rSearchURL : string)
        (fuel : nat) (w : world) :
  g_rSearchURL g = Some rSearchURL ->
  g_sCol g = true ->
  List.NoDup (map URL (store w)) ->
  (forall u, In u (discovered web fuel rSearchURL) -> In u (map URL (store w))) ->
  (forall u, In u (discovered web fuel rSearchURL) ->
             build_db_body web g u w = (w, Ok tt)) /\
  build_db web g fuel w = discover web fuel rSearchURL w /\
  store (fst (build_db web g fuel w)) = store w /\
  (store w <> [] -> fst (main web fuel w) = w).
Proof.
  intros Hurl Hcol Hnd Hall.
  assert (Hcount : forall u, In u (discovered web fuel rSearchURL) ->
                             count_url u (store w) = 1%nat).
  { intros u Hu. apply count_url_unique; [exact Hnd | apply Hall, Hu]. }
  assert (Hrun : build_db web g fuel w = discover web fuel rSearchURL w).
  { unfold build_db. rewrite Hurl. unfold mbind, M_bind, bind, of_option, ret.
    unfold discover, iter_articles.
    apply crawl_is_discovery; [exact Hcol | exact Hcount]. }
  split; [|split; [exact Hrun | split]].
  - intros u Hu. apply build_db_body_skip; [exact Hcol | apply Hcount, Hu].
  - rewrite Hrun. unfold discover, iter_articles. rewrite discover_frame.
    reflexivity.
  - apply main_on_populated_store.
Qed.

Lemma crawl_is_idempotent_witness :
  build_db fixture_web (Globals (Some "L") true) 7 (World fixture_store [])
  = discover fixture_web 7 "L" (World fixture_store []) /\
  store (fst (build_db fixture_web (Globals (Some "L") true) 7
                       (World fixture_store []))) = fixture_store.
Proof.
  assert (Hnd : List.NoDup (map URL fixture_store)).
  { cbn. repeat (apply List.NoDup_cons;
                 [cbn; intuition discriminate|]). apply List.NoDup_nil. }
  assert (Hall : forall u, In u (discovered fixture_web 7 "L") ->
                           In u (map URL fixture_store)).
  { intros u Hu. vm_compute in Hu. cbn. exact Hu. }
  destruct (crawl_is_idempotent fixture_web (Globals (Some "L") true) "L" 7
              (World fixture_store []) eq_refl eq_refl Hnd Hall)
    as (_ & Hrun & Hstore & _).
  split; [exact Hrun | exact Hstore].
Defined.


(* ===================================================================== *)
(** * Further properties of the code *)
(* ===================================================================== *)

(* ===================================================================== *)
(** ** What a crawl can and cannot do to the world *)
(* ===================================================================== *)

(** X1: as the module stands, [build_db] cannot run: [rSearchURL] (and
    [sCol]) are local variables of [main], so the first line that reads
    [rSearchURL] raises NameError before any page is fetched and with the
    collection untouched; [main] therefore ends with this NameError
    whenever the collection is empty. *)
Theorem build_db_fails_on_unbound_globals
        (web : string -> option string) (fuel : nat) (w : world) :
  build_db web module_globals fuel w = (w, Raise (NameError "rSearchURL")) /\
  (store w = [] ->
   main web fuel w = (w, Raise (NameError "rSearchURL"))).
Proof.
  split; [reflexivity|].
  destruct w as [st tr]. cbn [store]. intros ->. reflexivity.
Qed.

(** A relation between the world before and after, kept by every step of
    the page loop as soon as the loop's consumer keeps it. *)
Section LoopRelation.

Variable web : string -> option string.
Variable R : world -> world -> Prop.

Hypothesis R_refl : forall w, R w w.
Hypothesis R_trans : forall w1 w2 w3, R w1 w2 -> R w2 w3 -> R w1 w3.
Hypothesis R_emit :
  forall e w, R w (World (store w) (trace w ++ [e])).

Lemma for_each_related {A} (l : list A) (body : A -> M unit) :
  (forall x w, R w (fst (body x w))) ->
  forall w, R w (fst (for_each l body w)).
Proof.
  intros Hbody. induction l as [|x l IH]; intros w; [apply R_refl|].
  cbn [for_each]. unfold bind. specialize (Hbody x w).
  destruct (body x w) as [w' [[]| |]]; cbn [fst] in *; try exact Hbody.
  apply (R_trans _ _ _ Hbody), IH.
Qed.

Lemma iter_articles_related (rSearchURL : string) (body : string -> M unit) :
  (forall u w, R w (fst (body u w))) ->
  forall fuel iPage w,
    R w (fst (iter_articles_from web fuel rSearchURL iPage body w)).
Proof.
  intros Hbody. induction fuel as [|fuel IH]; intros iPage w; [apply R_refl|].
  rewrite iter_articles_step. cbn zeta.
  set (w1 := World (store w) (trace w ++ [Fetch (page_url rSearchURL iPage)])).
  assert (H1 : R w w1) by apply R_emit.
  destruct (web (page_url rSearchURL iPage)) as [rDocument|]; [|exact H1].
  assert (H2 : R w1 (fst (for_each (Regex.finditer Regex.sReviewPat rDocument)
                            (fun rArticleURL =>
                               emit (Yield rArticleURL) ;; body rArticleURL)
                            w1))).
  { apply for_each_related. intros u w0.
    unfold mbind, M_bind, bind, emit.
    apply (R_trans _ _ _ (R_emit (Yield u) w0)), Hbody. }
  destruct (for_each _ _ w1) as [w2 [[]| |]]; cbn [fst] in H2;
    try exact (R_trans _ _ _ H1 H2).
  destruct (has_next_marker rDocument).
  - apply (R_trans _ _ _ H1), (R_trans _ _ _ H2), IH.
  - exact (R_trans _ _ _ H1 H2).
Qed.

End LoopRelation.

(** X2: the crawl keeps source URLs unique.  Started on a collection in
    which no URL occurs twice, [build_db] ends - normally, with an
    exception or out of fuel - on a collection in which no URL occurs
    twice, whatever the web serves. *)
Theorem crawl_keeps_urls_unique
        (web : string -> option string) (g : globals) (fuel : nat)
        (w : world) :
  List.NoDup (map URL (store w)) ->
  List.NoDup (map URL (store (fst (build_db web g fuel w)))).
Proof.
  unfold build_db. unfold mbind, M_bind, bind, of_option, ret, raise.
  destruct (g_rSearchURL g) as [rSearchURL|]; [|intros H; exact H].
  unfold iter_articles.
  apply (iter_articles_related web
           (fun w1 w2 => List.NoDup (map URL (store w1)) ->
                         List.NoDup (map URL (store w2)))).
  - auto.
  - auto.
  - intros e w0 H. exact H.
  - intros u w0. apply build_db_body_keeps_unique.
Qed.

Lemma crawl_keeps_urls_unique_witness :
  List.NoDup (map URL (store (World [] []))) /\
  List.NoDup (map URL (store (fst (build_db small_web (Globals (Some "L") true)
                                            3 (World [] []))))).
Proof.
  assert (H : List.NoDup (map URL (store (World [] [])))) by apply List.NoDup_nil.
  split; [exact H|].
  apply (crawl_keeps_urls_unique small_web (Globals (Some "L") true) 3
           (World [] []) H).
Defined.

(** X3: the crawl only appends.  Whatever the web serves and however the
    run ends, the collection after [build_db] is the collection before it
    followed by the inserted records, and the events before it are still
    there, in order: nothing is updated, deleted or reordered. *)
Theorem crawl_only_appends
        (web : string -> option string) (g : globals) (fuel : nat)
        (w : world) :
  exists added events,
    store (fst (build_db web g fuel w)) = store w ++ added /\
    trace (fst (build_db web g fuel w)) = trace w ++ events.
Proof.
  unfold build_db. unfold mbind, M_bind, bind, of_option, ret, raise.
  destruct (g_rSearchURL g) as [rSearchURL|];
    [|exists [], []; cbn [fst]; rewrite !app_nil_r; auto].
  unfold iter_articles.
  apply (iter_articles_related web
           (fun w1 w2 => exists added events,
                store w2 = store w1 ++ added /\
                trace w2 = trace w1 ++ events)).
  - intros w0. exists [], []. rewrite !app_nil_r. auto.
  - intros w1 w2 w3 (a1 & e1 & Hs1 & Ht1) (a2 & e2 & Hs2 & Ht2).
    exists (a1 ++ a2), (e1 ++ e2).
    rewrite Hs2, Hs1, Ht2, Ht1, <- !app_assoc. auto.
  - intros e w0. exists [], [e]. cbn [store trace]. rewrite app_nil_r. auto.
  - intros u w0. rewrite build_db_body_run.
    destruct (g_sCol g);
      [|exists [], []; cbn [fst]; rewrite !app_nil_r; auto].
    destruct (Nat.eqb (count_url u (store w0)) 1);
      [exists [], []; cbn [fst]; rewrite !app_nil_r; auto|].
    cbn zeta.
    destruct (web (u ++ "/specs")%string) as [rDocument|];
      [|exists [], [Fetch (u ++ "/specs")%string]; cbn [fst store trace];
        rewrite app_nil_r; auto].
    destruct (parse_article u rDocument) as [a| |].
    + exists [a], [Fetch (u ++ "/specs")%string]. auto.
    + exists [], [Fetch (u ++ "/specs")%string]. cbn [fst store trace].
      rewrite app_nil_r. auto.
    + exists [], [Fetch (u ++ "/specs")%string]. cbn [fst store trace].
      rewrite app_nil_r. auto.
Qed.

(* ===================================================================== *)
(** ** Stored keys and the keys reported *)
(* ===================================================================== *)

Section KeyFacts.

Import Text.

Lemma contains_period_cons (c : ascii) (s : string) :
  contains "." (String c s) = Ascii.eqb "." c || contains "." s.
Proof.
  cbn [contains strip_prefix]. destruct (Ascii.eqb "." c); reflexivity.
Qed.

Lemma contains_period_app_token (r : string) :
  contains "." (period_token ++ r)%string = contains "." r.
Proof. reflexivity. Qed.

Lemma escape_key_has_no_period (k : string) :
  contains "." (escape_key k) = false.
Proof.
  induction k as [|c k IH]; [reflexivity|].
  destruct (Ascii.eqb_spec c ".") as [->|Hc].
  - rewrite escape_key_period, contains_period_app_token. exact IH.
  - rewrite escape_key_other by exact Hc.
    rewrite contains_period_cons, IH.
    destruct (Ascii.eqb_spec "." c) as [E|_]; [congruence | reflexivity].
Qed.

Lemma strip_prefix_app (p s r : string) :
  strip_prefix p s = Some r -> s = (p ++ r)%string.
Proof.
  revert s. induction p as [|a p IH]; intros s H.
  - injection H as ->. reflexivity.
  - destruct s as [|b s]; [discriminate|]. cbn [strip_prefix] in H.
    destruct (Ascii.eqb_spec a b) as [->|_]; [|discriminate].
    change (String b s = String b (p ++ r)%string). f_equal. apply IH, H.
Qed.

(** On a key without periods - every stored key is one - unescaping is
    undone by escaping. *)
Lemma escape_unescape_bounded (n : nat) :
  forall k,
    (String.length k <= n)%nat ->
    contains "." k = false ->
    escape_key (unescape_key k) = k.
Proof.
  induction n as [|n IH]; intros k Hlen Hk.
  - destruct k; [reflexivity | cbn in Hlen; lia].
  - destruct k as [|c k]; [reflexivity|].
    destruct (strip_prefix period_token (String c k)) as [r|] eqn:Hp.
    + apply strip_prefix_app in Hp. rewrite Hp in *.
      rewrite contains_period_app_token in Hk.
      rewrite unescape_key_token, escape_key_period, IH; [reflexivity| |exact Hk].
      change (String.length (period_token ++ r)%string)
        with (5 + String.length r)%nat in Hlen. lia.
    + rewrite contains_period_cons in Hk.
      apply orb_false_elim in Hk as [Hc Hk].
      rewrite unescape_key_other by exact Hp.
      rewrite escape_key_other, IH; [reflexivity| |exact Hk|].
      * cbn in Hlen. lia.
      * intros ->. discriminate Hc.
Qed.

Lemma build_spec_keys (rows : list (string * string)) (key : string) :
  is_Some (build_spec rows !! key) <->
  In key (map (fun row => escape_key (fst row)) rows).
Proof.
  rewrite build_spec_lookup. unfold last_row_for. split.
  - intros [v Hv].
    destruct (find _ (rev rows)) as [row|] eqn:Hf; [|discriminate].
    apply find_some in Hf as [Hin Heq].
    apply String.eqb_eq in Heq. subst key.
    apply in_rev in Hin.
    apply (in_map (fun row => escape_key (fst row))), Hin.
  - intros Hin. apply in_map_iff in Hin as (row & <- & Hin).
    destruct (find (fun row0 => String.eqb (escape_key (fst row0))
                                           (escape_key (fst row)))
                   (rev rows)) as [row'|] eqn:Hf.
    + eexists. reflexivity.
    + exfalso.
      assert (Hrow : In row (rev rows)) by (apply in_rev in Hin; exact Hin).
      pose proof (find_none _ _ Hf row Hrow) as Hne. cbn beta in Hne.
      rewrite String.eqb_refl in Hne. discriminate Hne.
Qed.

End KeyFacts.

(** X4: no key of an extracted specification map contains a period: the
    keys are exactly the escaped labels of the table's rows, and escaping
    leaves no period in a label. *)
Theorem extracted_keys_have_no_period
        (web : string -> option string) (rURL : string)
        (w w' : world) (a : article) :
  extract_article_data web rURL w = (w', Ok a) ->
  exists rDocument,
    web (rURL ++ "/specs")%string = Some rDocument /\
    forall key : string,
      (is_Some (spec a !! key) <->
       In key (map (fun row => escape_key (fst row)) (spec_rows rDocument))) /\
      (is_Some (spec a !! key) -> Text.contains "." key = false).
Proof.
  rewrite extract_article_data_run. intros [= _ H].
  destruct (web (rURL ++ "/specs")%string) as [rDocument|]; [|discriminate].
  exists rDocument. split; [reflexivity|].
  apply parse_article_ok in H as (_ & -> & _).
  intros key. split; [apply build_spec_keys|].
  intros Hk. apply build_spec_keys in Hk.
  apply in_map_iff in Hk as (row & <- & _). apply escape_key_has_no_period.
Qed.

Lemma extracted_keys_have_no_period_witness :
  exists rDocument,
    small_web "/onkyo/specs" = Some rDocument /\
    forall key : string,
      (is_Some (spec (Article "/onkyo" "Onkyo TX-NR609" 500 5
                              (build_spec (spec_rows sample_specs_page)))
                  !! key) <->
       In key (map (fun row => escape_key (fst row)) (spec_rows rDocument))) /\
      (is_Some (spec (Article "/onkyo" "Onkyo TX-NR609" 500 5
                              (build_spec (spec_rows sample_specs_page)))
                  !! key) -> Text.contains "." key = false).
Proof.
  apply (extracted_keys_have_no_period small_web "/onkyo" (World [] [])
           (World [] [Fetch "/onkyo/specs"])).
  rewrite extract_article_data_run. vm_compute. reflexivity.
Defined.

(** X5: unescaping is undone by escaping on every key that contains no
    period, so the reported form of a stored key determines the stored
    key: two stored keys with the same reported form are the same key. *)
Theorem unescape_is_injective_on_stored_keys (k1 k2 : string) :
  Text.contains "." k1 = false ->
  Text.contains "." k2 = false ->
  escape_key (unescape_key k1) = k1 /\
  (unescape_key k1 = unescape_key k2 -> k1 = k2).
Proof.
  intros H1 H2.
  assert (E1 := escape_unescape_bounded _ k1 (Nat.le_refl _) H1).
  assert (E2 := escape_unescape_bounded _ k2 (Nat.le_refl _) H2).
  split; [exact E1|]. intros E. rewrite <- E1, <- E2, E. reflexivity.
Qed.

Lemma unescape_is_injective_on_stored_keys_witness :
  Text.contains "." "Dolby 5&#46;1" = false /\
  Text.contains "." "Dolby 7&#46;1" = false /\
  escape_key (unescape_key "Dolby 5&#46;1") = "Dolby 5&#46;1" /\
  (unescape_key "Dolby 5&#46;1" = unescape_key "Dolby 7&#46;1" ->
   "Dolby 5&#46;1" = "Dolby 7&#46;1").
Proof.
  split; [reflexivity|]. split; [reflexivity|].
  apply (unescape_is_injective_on_stored_keys "Dolby 5&#46;1" "Dolby 7&#46;1");
    reflexivity.
Defined.

Section DistinctKeys.

Lemma map_reduce_keys {D K V R : Type} `{EqDecision K}
      (map_fn : D -> list (K * V)) (reduce_fn : K -> list V -> V)
      (finalize_fn : K -> V -> R) (docs : list D) :
  map fst (map_reduce map_fn reduce_fn finalize_fn docs)
  = map fst (group_pairs (flat_map map_fn docs)).
Proof. unfold map_reduce. rewrite map_map. reflexivity. Qed.

Lemma spec_keys_listed (m : gmap string spec_value) (k : string) :
  In k (map fst (map_to_list m)) <-> is_Some (m !! k).
Proof.
  rewrite in_map_iff. split.
  - intros ([k' v] & <- & Hin). exists v.
    apply elem_of_map_to_list, list_elem_of_In, Hin.
  - intros [v Hv]. exists (k, v). split; [reflexivity|].
    apply list_elem_of_In, elem_of_map_to_list, Hv.
Qed.

Lemma stored_keys_spec (col : list article) (k : string) :
  In k (stored_keys col) <->
  exists a, In a col /\ is_Some (spec a !! k).
Proof.
  unfold stored_keys. rewrite map_reduce_keys, group_pairs_keys.
  rewrite in_map_iff. split.
  - intros ([k' []] & <- & Hin). apply in_flat_map in Hin as (a & Ha & Hin).
    exists a. split; [exact Ha|]. apply spec_keys_listed.
    apply in_map_iff in Hin as (k0 & [= <-] & Hk0). exact Hk0.
  - intros (a & Ha & Hk). exists (k, tt). split; [reflexivity|].
    apply in_flat_map. exists a. split; [exact Ha|].
    apply (in_map (fun k0 : string => (k0, tt))), spec_keys_listed, Hk.
Qed.

Lemma stored_keys_NoDup (col : list article) : List.NoDup (stored_keys col).
Proof. unfold stored_keys. rewrite map_reduce_keys. apply group_pairs_NoDup. Qed.

End DistinctKeys.

(** X6: [find_distinct_specs] never raises, and it reports exactly the
    unescaped forms of the keys stored in the records: a string is
    reported if and only if it is the unescaping of a key of some record's
    specification map. *)
Theorem find_distinct_specs_reports_stored_keys (col : list article) :
  exists lKeys,
    find_distinct_specs col = inr lKeys /\
    forall x : string,
      In x lKeys <->
      exists a k, In a col /\ is_Some (spec a !! k) /\ x = unescape_key k.
Proof.
  exists (map unescape_key (stored_keys col)). split; [reflexivity|].
  intros x. rewrite in_map_iff. split.
  - intros (k & <- & Hk). apply stored_keys_spec in Hk as (a & Ha & Hk).
    exists a, k. auto.
  - intros (a & k & Ha & Hk & ->). exists k. split; [reflexivity|].
    apply stored_keys_spec. exists a. auto.
Qed.

(** X7: when no stored key contains a period - which holds for every
    record [extract_article_data] builds - [find_distinct_specs] reports
    each key once: the list it returns has no duplicates. *)
Theorem find_distinct_specs_has_no_duplicates (col : list article) :
  (forall a k, In a col -> is_Some (spec a !! k) ->
               Text.contains "." k = false) ->
  exists lKeys,
    find_distinct_specs col = inr lKeys /\ List.NoDup lKeys.
Proof.
  intros Hplain.
  exists (map unescape_key (stored_keys col)). split; [reflexivity|].
  apply NoDup_map_NoDup_ForallPairs; [|apply stored_keys_NoDup].
  intros k1 k2 H1 H2 E.
  apply stored_keys_spec in H1 as (a1 & Ha1 & Hk1).
  apply stored_keys_spec in H2 as (a2 & Ha2 & Hk2).
  pose proof (escape_unescape_bounded _ k1 (Nat.le_refl _)
                (Hplain a1 k1 Ha1 Hk1)) as E1.
  pose proof (escape_unescape_bounded _ k2 (Nat.le_refl _)
                (Hplain a2 k2 Ha2 Hk2)) as E2.
  rewrite <- E1, <- E2, E. reflexivity.
Qed.

Lemma find_distinct_specs_has_no_duplicates_witness :
  exists lKeys,
    find_distinct_specs
      [Article "/onkyo" "Onkyo TX-NR609" 500 5
               (build_spec (spec_rows sample_specs_page))]
    = inr lKeys /\ List.NoDup lKeys.
Proof.
  apply (find_distinct_specs_has_no_duplicates
           [Article "/onkyo" "Onkyo TX-NR609" 500 5
                    (build_spec (spec_rows sample_specs_page))]).
  intros a k [<-|[]] Hk. cbn [spec] in Hk.
  apply build_spec_keys in Hk.
  apply in_map_iff in Hk as (row & <- & _). apply escape_key_has_no_period.
Defined.

(* ===================================================================== *)
(** ** The queries on an arbitrary collection *)
(* ===================================================================== *)

Section RangeFacts.

Lemma fold_min_spec (ps : list Z) :
  forall p,
    (fold_left Z.min ps p <= p)%Z /\
    (forall q, In q ps -> (fold_left Z.min ps p <= q)%Z) /\
    In (fold_left Z.min ps p) (p :: ps).
Proof.
  induction ps as [|x ps IH]; intros p; cbn [fold_left].
  - split; [lia|]. split; [intros q []|left; reflexivity].
  - destruct (IH (Z.min p x)) as (H1 & H2 & H3).
    split; [lia|]. split.
    + intros q [<-|Hq]; [lia | apply H2, Hq].
    + destruct H3 as [H3|H3]; [|right; right; exact H3].
      rewrite <- H3. destruct (Z.min_spec p x) as [[_ ->]|[_ ->]];
        [left | right; left]; reflexivity.
Qed.

Lemma fold_max_spec (ps : list Z) :
  forall p,
    (p <= fold_left Z.max ps p)%Z /\
    (forall q, In q ps -> (q <= fold_left Z.max ps p)%Z) /\
    In (fold_left Z.max ps p) (p :: ps).
Proof.
  induction ps as [|x ps IH]; intros p; cbn [fold_left].
  - split; [lia|]. split; [intros q []|left; reflexivity].
  - destruct (IH (Z.max p x)) as (H1 & H2 & H3).
    split; [lia|]. split.
    + intros q [<-|Hq]; [lia | apply H2, Hq].
    + destruct H3 as [H3|H3]; [|right; right; exact H3].
      rewrite <- H3. destruct (Z.max_spec p x) as [[_ ->]|[_ ->]];
        [right; left | left]; reflexivity.
Qed.

End RangeFacts.

(** X8: on a non-empty collection [get_price_range] returns a pair
    (min, max) such that every record's price lies between the two and
    each of the two is the price of some record. *)
Theorem get_price_range_is_min_and_max (col : list article) :
  col <> [] ->
  exists lo hi,
    get_price_range col = inr (lo, hi) /\
    (forall a, In a col -> (lo <= price a <= hi)%Z) /\
    (exists a, In a col /\ price a = lo) /\
    (exists a, In a col /\ price a = hi).
Proof.
  intros Hne. destruct col as [|a0 col]; [contradiction|].
  unfold get_price_range. cbn [map].
  destruct (fold_min_spec (map price col) (price a0)) as (Hl1 & Hl2 & Hl3).
  destruct (fold_max_spec (map price col) (price a0)) as (Hh1 & Hh2 & Hh3).
  eexists _, _. split; [reflexivity|]. split; [|split].
  - intros a [<-|Ha]; [lia|].
    pose proof (Hl2 _ (in_map price _ _ Ha)).
    pose proof (Hh2 _ (in_map price _ _ Ha)). lia.
  - change (price a0 :: map price col) with (map price (a0 :: col)) in Hl3.
    apply in_map_iff in Hl3 as (a & Ha & Hin). eauto.
  - change (price a0 :: map price col) with (map price (a0 :: col)) in Hh3.
    apply in_map_iff in Hh3 as (a & Ha & Hin). eauto.
Qed.

Lemma get_price_range_is_min_and_max_witness :
  exists lo hi,
    get_price_range fixture_store = inr (lo, hi) /\
    (forall a, In a fixture_store -> (lo <= price a <= hi)%Z) /\
    (exists a, In a fixture_store /\ price a = lo) /\
    (exists a, In a fixture_store /\ price a = hi).
Proof.
  apply (get_price_range_is_min_and_max fixture_store). discriminate.
Defined.

Section HistogramFacts.

Context {K V : Type} `{EqDecision K}.

Lemma grouped_total_cons (g : K * list V) (groups : list (K * list V)) :
  grouped_total (g :: groups) = (length (snd g) + grouped_total groups)%nat.
Proof. reflexivity. Qed.

Lemma add_to_group_total (k : K) (v : V) (groups : list (K * list V)) :
  grouped_total (add_to_group k v groups) = S (grouped_total groups).
Proof.
  induction groups as [|[k' vs] groups IH]; [reflexivity|].
  cbn [add_to_group]. destruct (decide (k = k')) as [->|Hne];
    rewrite !grouped_total_cons; cbn [snd].
  - rewrite length_app. cbn [length]. lia.
  - rewrite IH. lia.
Qed.

Lemma group_pairs_total (emitted : list (K * V)) :
  grouped_total (group_pairs emitted) = length emitted.
Proof.
  induction emitted as [|kv emitted IH] using rev_ind; [reflexivity|].
  rewrite group_pairs_snoc, add_to_group_total, IH, length_app. cbn. lia.
Qed.

End HistogramFacts.

(** X9: the histogram counts every record exactly once: for every bucket
    width, zero included, the counts of the entries
    [rating_price_frequency] returns add up to the number of records. *)
Theorem histogram_counts_add_up (BANDWIDTH : Z) (col : list article) :
  fold_right Z.add 0%Z (map f_count (rating_price_frequency BANDWIDTH col))
  = Z.of_nat (length col).
Proof.
  rewrite rating_price_frequency_groups, map_map. cbn [f_count].
  set (emitted := flat_map _ col).
  assert (Hlen : length emitted = length col).
  { subst emitted. rewrite <- (length_map fst), emitted_keys.
    apply length_map. }
  rewrite <- Hlen, <- (group_pairs_total emitted).
  induction (group_pairs emitted) as [|g groups IH]; [reflexivity|].
  rewrite grouped_total_cons. cbn [map fold_right]. rewrite IH. lia.
Qed.

(** X10: for a positive bucket width w and prices with
    |price| + 2 * w <= 2^53, the bucketing of line 207 is monotone in the
    price, and the bucket of a price is its own bucket, so that bucketing
    twice changes nothing. *)
Theorem bucket_price_monotone_idempotent (w p q : Z) :
  (0 < w)%Z ->
  (Z.abs p + 2 * w <= 2 ^ 53)%Z ->
  (Z.abs q + 2 * w <= 2 ^ 53)%Z ->
  exists bp bq,
    bucket_price w p = Some bp /\
    bucket_price w q = Some bq /\
    (p <= q -> bp <= bq)%Z /\
    bucket_price w bp = Some bp.
Proof.
  intros Hw Hrp Hrq.
  destruct (bucket_price_spec w p ltac:(lia) ltac:(lia))
    as (bp & Hbp & _ & [kp ->] & Hp & _).
  destruct (bucket_price_spec w q ltac:(lia) ltac:(lia))
    as (bq & Hbq & _ & [kq ->] & Hq & _).
  specialize (Hp Hw). specialize (Hq Hw).
  destruct (bucket_price_spec w (kp * w) ltac:(lia) ltac:(lia))
    as (b & Hb & _ & [k ->] & Hbb & _).
  specialize (Hbb Hw).
  exists (kp * w)%Z, (kq * w)%Z.
  split; [exact Hbp|]. split; [exact Hbq|]. split.
  - intros Hpq. apply Z.mul_le_mono_nonneg_r; [lia|].
    destruct (Z.le_gt_cases kp kq) as [Hle|Hgt]; [exact Hle|].
    assert ((kq + 1) * w <= kp * w)%Z
      by (apply Z.mul_le_mono_nonneg_r; lia).
    lia.
  - rewrite Hb. do 2 f_equal.
    destruct (Z.lt_total k kp) as [Hlt|[Heq|Hgt]]; [|exact Heq|].
    + assert ((k + 1) * w <= kp * w)%Z
        by (apply Z.mul_le_mono_nonneg_r; lia).
      lia.
    + assert ((kp + 1) * w <= k * w)%Z
        by (apply Z.mul_le_mono_nonneg_r; lia).
      lia.
Qed.

Lemma bucket_price_monotone_idempotent_witness :
  exists bp bq,
    bucket_price 500 2499 = Some bp /\
    bucket_price 500 2501 = Some bq /\
    (2499 <= 2501 -> bp <= bq)%Z /\
    bucket_price 500 bp = Some bp.
Proof.
  apply (bucket_price_monotone_idempotent 500 2499 2501); lia.
Defined.

Section SpreadFacts.

Lemma stats_of_groups_ratings (groups : list (Z * list Z))
      (lines : list Stats.rating_stats) :
  stats_of_groups groups = inr lines ->
  map Stats.fRating lines = map fst groups.
Proof.
  revert lines. induction groups as [|[fRating prices] groups IH];
    intros lines H.
  - injection H as <-. reflexivity.
  - cbn [stats_of_groups] in H.
    destruct (Stats.group_stats fRating prices) as [e|line] eqn:Hg;
      [discriminate|].
    destruct (stats_of_groups groups) as [e|lines'] eqn:Hs; [discriminate|].
    injection H as <-. cbn [map fst]. rewrite (IH lines' eq_refl). f_equal.
    unfold Stats.group_stats in Hg. destruct prices; [discriminate|].
    injection Hg as <-. reflexivity.
Qed.

End SpreadFacts.

(** X11: [price_spread_by_rating] never raises and prints exactly one line
    per distinct rating of the collection: the ratings of its lines are
    pairwise different, and a rating has a line if and only if some record
    carries it. *)
Theorem price_spread_has_one_line_per_rating (col : list article) :
  exists lines,
    price_spread_by_rating col = inr lines /\
    List.NoDup (map Stats.fRating lines) /\
    forall r : Z, In r (map Stats.fRating lines) <-> In r (map rating col).
Proof.
  destruct (stats_of_groups_ok (prices_by_rating col)
              (group_pairs_nonempty _)) as [lines Hlines].
  exists lines. split; [exact Hlines|].
  rewrite (stats_of_groups_ratings _ _ Hlines). unfold prices_by_rating.
  split; [apply group_pairs_NoDup|].
  intros r. rewrite group_pairs_keys, map_map. reflexivity.
Qed.

(** X12: on a populated collection [main] touches neither the network nor
    the collection and always succeeds: it returns the results of the four
    queries on the collection as it stands. *)
Theorem main_reports_on_populated_store
        (web : string -> option string) (fuel : nat) (w : world) :
  store w <> [] ->
  exists range spread lSpecs lFreq,
    main web fuel w = (w, Ok (Report range spread lSpecs lFreq)) /\
    get_price_range (store w) = inr range /\
    price_spread_by_rating (store w) = inr spread /\
    find_distinct_specs (store w) = inr lSpecs /\
    calc_rating_price_frequency (store w) = inr lFreq.
Proof.
  destruct w as [[|a col] tr]; cbn [store]; intros Hne; [contradiction|].
  destruct (price_spread_never_raises (a :: col)) as (spread & Hspread).
  unfold main. unfold mbind, M_bind, bind, get_store, query.
  cbn [store length Nat.eqb]. unfold mret, M_ret, ret. cbn [store].
  rewrite Hspread. eexists _, spread, _, _.
  split; [reflexivity|]. repeat split; reflexivity.
Qed.

Lemma main_reports_on_populated_store_witness :
  exists range spread lSpecs lFreq,
    main endless_web 3 (World fixture_store [])
    = (World fixture_store [], Ok (Report range spread lSpecs lFreq)) /\
    get_price_range (store (World fixture_store [])) = inr range /\
    price_spread_by_rating (store (World fixture_store [])) = inr spread /\
    find_distinct_specs (store (World fixture_store [])) = inr lSpecs /\
    calc_rating_price_frequency (store (World fixture_store [])) = inr lFreq.
Proof.
  apply (main_reports_on_populated_store endless_web 3
           (World fixture_store [])).
  discriminate.
Defined.

(* ===================================================================== *)
(** ** What extraction returns *)
(* ===================================================================== *)

Section ExtractionFacts.

Import Text.

Lemma search_some {A : Type} (m : string -> option (A * string))
      (s : string) (a : A) :
  Regex.search m s = Some a -> exists s' r, m s' = Some (a, r).
Proof.
  induction s as [|c s IH]; cbn [Regex.search].
  - destruct (m "") as [[a' r]|] eqn:E; [|discriminate].
    intros [= <-]. eauto.
  - destruct (m (String c s)) as [[a' r]|] eqn:E; [|exact IH].
    intros [= <-]. eauto.
Qed.

Lemma span_fst_closed (P : ascii -> bool) (s : string) :
  span P (fst (span P s)) = (fst (span P s), EmptyString).
Proof.
  induction s as [|c s IH]; [reflexivity|].
  cbn [span]. destruct (P c) eqn:Hc; [|reflexivity].
  destruct (span P s) as [r t]. cbn [fst] in *. cbn [span].
  rewrite Hc, IH. reflexivity.
Qed.

Lemma span1_run (P : ascii -> bool) (s r t : string) :
  Regex.span1 P s = Some (r, t) ->
  Regex.nonempty r = true /\ all_chars P r = true.
Proof.
  unfold Regex.span1. pose proof (span_fst_closed P s) as Hc.
  destruct (span P s) as [r' t']. cbn [fst] in Hc.
  destruct (Regex.nonempty r') eqn:Hn; [|discriminate].
  intros [= <- <-]. split; [exact Hn|].
  unfold all_chars. rewrite Hc. reflexivity.
Qed.

(** The figure [sPatItemPrice] captures is a non-empty run of digits. *)
Lemma sPatItemPrice_digits (s p r : string) :
  Regex.sPatItemPrice s = Some (p, r) -> Py.isdigit p = true.
Proof.
  unfold Regex.sPatItemPrice. intros H.
  destruct (lit_ci _ s) as [s1|]; [|discriminate]. cbn [mbind option_bind] in H.
  destruct (Regex.span1 _ s1) as [[x s2]|]; [|discriminate].
  cbn [mbind option_bind] in H.
  destruct (Regex.span1 is_digit s2) as [[p' s3]|] eqn:Hp; [|discriminate].
  cbn [mbind option_bind] in H.
  destruct (lit_ci "</div>" s3) as [s4|]; [|discriminate].
  cbn [mbind option_bind] in H. injection H as <- <-.
  apply span1_run in Hp as [Hn Hd]. unfold Py.isdigit. rewrite Hn, Hd.
  reflexivity.
Qed.

Lemma digits_value_nonneg (s : string) :
  all_chars is_digit s = true -> (0 <= digits_value s)%Z.
Proof.
  intros Hd. pose proof (span_all_digits s Hd) as Hu.
  destruct (NilEmpty.uint_of_string s) as [u|] eqn:E; [|contradiction].
  unfold digits_value.
  change 0%Z with (Z.of_nat 0) at 2.
  rewrite (digits_value_from_decimal s u 0%nat E). lia.
Qed.

Lemma price_figure_converts (rDocument p : string) :
  Regex.search Regex.sPatItemPrice rDocument = Some p ->
  Py.int p = Some (digits_value p) /\ (0 <= digits_value p)%Z.
Proof.
  intros H. apply search_some in H as (s' & r & H).
  apply sPatItemPrice_digits in H. split; [apply int_of_isdigit, H|].
  apply digits_value_nonneg. unfold Py.isdigit in H.
  apply andb_prop in H as [_ H]. exact H.
Qed.

Lemma parse_article_complete (rURL rDocument : string) :
  ~ field_missing_or_malformed rDocument ->
  exists a, parse_article rURL rDocument = Ok a.
Proof.
  unfold field_missing_or_malformed, parse_article. intros Hok.
  destruct (Regex.search Regex.sPatItemName rDocument);
    [|exfalso; apply Hok; auto].
  destruct (Regex.search Regex.sPatItemPrice rDocument) as [p|];
    [|exfalso; apply Hok; auto].
  destruct (Py.int p) eqn:Hp;
    [|exfalso; apply Hok; right; right; left; eauto].
  destruct (Regex.search Regex.sPatItemValue rDocument) as [v|];
    [|exfalso; apply Hok; auto 6].
  destruct (Py.int v) eqn:Hv;
    [|exfalso; apply Hok; right; right; right; right; eauto].
  eauto.
Qed.

Lemma parse_article_fields (rURL rDocument : string) (a : article) :
  parse_article rURL rDocument = Ok a ->
  Regex.search Regex.sPatItemName rDocument = Some (name a) /\
  (exists p, Regex.search Regex.sPatItemPrice rDocument = Some p /\
             price a = digits_value p) /\
  (exists v, Regex.search Regex.sPatItemValue rDocument = Some v /\
             Py.int v = Some (rating a)).
Proof.
  unfold parse_article.
  destruct (Regex.search Regex.sPatItemName rDocument); [|discriminate].
  destruct (Regex.search Regex.sPatItemPrice rDocument) as [p|] eqn:Hs;
    [|discriminate].
  destruct (price_figure_converts _ _ Hs) as [Hint _]. rewrite Hint.
  destruct (Regex.search Regex.sPatItemValue rDocument) as [v|]; [|discriminate].
  destruct (Py.int v) eqn:Hv; [|discriminate].
  intros [= <-]. cbn [name price rating].
  split; [reflexivity|]. split; [exists p | exists v]; auto.
Qed.

End ExtractionFacts.

(** X13: when the detail page is served, [extract_article_data] returns a
    record if and only if the three required fields are found and the
    rating figure is an integer literal; the price figure, once found,
    always converts, so a ValueError can only come from the rating.  The
    record returned carries the URL it was asked for, the first name, price
    and rating the patterns find, and a price that is never negative. *)
Theorem extract_succeeds_iff_fields_present
        (web : string -> option string) (rURL rDocument : string)
        (w : world) :
  web (rURL ++ "/specs")%string = Some rDocument ->
  ((exists a, snd (extract_article_data web rURL w) = Ok a) <->
   ~ field_missing_or_malformed rDocument) /\
  (forall p, Regex.search Regex.sPatItemPrice rDocument = Some p ->
             Py.int p = Some (Text.digits_value p)) /\
  (forall a,
      snd (extract_article_data web rURL w) = Ok a ->
      URL a = rURL /\
      Regex.search Regex.sPatItemName rDocument = Some (name a) /\
      (exists p, Regex.search Regex.sPatItemPrice rDocument = Some p /\
                 price a = Text.digits_value p) /\
      (exists v, Regex.search Regex.sPatItemValue rDocument = Some v /\
                 Py.int v = Some (rating a)) /\
      (0 <= price a)%Z).
Proof.
  intros Hweb. rewrite extract_article_data_run, Hweb. cbn [snd].
  split; [|split].
  - split.
    + intros [a Ha]. apply parse_article_ok in Ha as (_ & _ & Hok). exact Hok.
    + apply parse_article_complete.
  - intros p Hp. apply (price_figure_converts _ _ Hp).
  - intros a Ha. pose proof (parse_article_ok _ _ _ Ha) as (Hurl & _ & _).
    destruct (parse_article_fields _ _ _ Ha) as (Hn & (p & Hp & Hprice) & Hv).
    split; [exact Hurl|]. split; [exact Hn|]. split; [eauto|].
    split; [exact Hv|]. rewrite Hprice.
    apply (price_figure_converts _ _ Hp).
Qed.

Lemma extract_succeeds_iff_fields_present_witness :
  ((exists a, snd (extract_article_data small_web "/onkyo" (World [] []))
              = Ok a) <->
   ~ field_missing_or_malformed sample_specs_page) /\
  (forall p, Regex.search Regex.sPatItemPrice sample_specs_page = Some p ->
             Py.int p = Some (Text.digits_value p)) /\
  (forall a,
      snd (extract_article_data small_web "/onkyo" (World [] [])) = Ok a ->
      URL a = "/onkyo" /\
      Regex.search Regex.sPatItemName sample_specs_page = Some (name a) /\
      (exists p, Regex.search Regex.sPatItemPrice sample_specs_page = Some p /\
                 price a = Text.digits_value p) /\
      (exists v, Regex.search Regex.sPatItemValue sample_specs_page = Some v /\
                 Py.int v = Some (rating a)) /\
      (0 <= price a)%Z).
Proof.
  apply (extract_succeeds_iff_fields_present small_web "/onkyo"
           sample_specs_page (World [] [])).
  reflexivity.
Defined.

(* ===================================================================== *)
(** ** Failures during discovery *)
(* ===================================================================== *)

(** X14: a listing page that cannot be fetched ends discovery with the
    fetch error, without a retry: when the pages [docs] are served and all
    carry the marker and the next page fails to load, the run yields the
    articles of [docs], records the failed fetch as its last event and
    raises URLError for that page. *)
Theorem discover_propagates_fetch_failure
        (web : string -> option string) (rSearchURL : string)
        (docs : list string) (fuel : nat) (w : world) :
  served web rSearchURL 0 docs ->
  forallb has_next_marker docs = true ->
  web (page_url rSearchURL (length docs)) = None ->
  (length docs < fuel)%nat ->
  discover web fuel rSearchURL w
  = (World (store w)
           (trace w ++ listing_events rSearchURL 0 docs
                   ++ [Fetch (page_url rSearchURL (length docs))]),
     Raise (URLError (page_url rSearchURL (length docs)))).
Proof.
  intros Hs Hm Hnone Hf. unfold discover, iter_articles.
  replace fuel with (length docs + S (fuel - S (length docs)))%nat by lia.
  rewrite (discover_pages web docs _ _ _ _ Hs Hm). cbn [Nat.add].
  rewrite discover_step, Hnone. cbn [store trace].
  rewrite <- app_assoc. reflexivity.
Qed.

Lemma discover_propagates_fetch_failure_witness :
  discover (serve "L&page=0" fixture_page0) 5 "L" (World [] [])
  = (World [] [Fetch "L&page=0"; Yield "/a"; Yield "/b"; Fetch "L&page=1"],
     Raise (URLError "L&page=1")).
Proof.
  apply (discover_propagates_fetch_failure (serve "L&page=0" fixture_page0)
           "L" [fixture_page0] 5 (World [] [])).
  - repeat split.
  - reflexivity.
  - reflexivity.
  - cbn. lia.
Defined.

(* ===================================================================== *)
(** ** What the patterns capture *)
(* ===================================================================== *)

Section CaptureFacts.

Import Text.

(** Every value [finditer] returns is a capture of the pattern. *)
Lemma finditer_from_Forall {A : Type} (m : string -> option (A * string))
      (P : A -> Prop) :
  (forall s a r, m s = Some (a, r) -> P a) ->
  forall s skip, Forall P (Regex.finditer_from m skip s).
Proof.
  intros Hm. induction s as [|c s IH]; intros skip; cbn [Regex.finditer_from].
  - destruct skip; [|constructor].
    destruct (m "") as [[a r]|] eqn:E; [|constructor].
    constructor; [exact (Hm _ _ _ E) | constructor].
  - destruct skip as [|k]; [|apply IH].
    destruct (m (String c s)) as [[a r]|] eqn:E; [|apply IH].
    constructor; [exact (Hm _ _ _ E) | apply IH].
Qed.

Lemma all_chars_cons (P : ascii -> bool) (c : ascii) (s : string) :
  all_chars P (String c s) = P c && all_chars P s.
Proof.
  unfold all_chars. cbn [span]. destruct (P c); [|reflexivity].
  destruct (span P s). reflexivity.
Qed.

Lemma rstrip_cons (c : ascii) (s : string) :
  rstrip (String c s)
  = match rstrip s with
    | EmptyString => if is_space c then EmptyString else str1 c
    | r => String c r
    end.
Proof. reflexivity. Qed.

Lemma rstrip_idempotent (s : string) : rstrip (rstrip s) = rstrip s.
Proof.
  induction s as [|c s IH]; [reflexivity|].
  rewrite rstrip_cons. destruct (rstrip s) as [|d r] eqn:E.
  - destruct (is_space c) eqn:Hc; [reflexivity|].
    unfold str1. rewrite rstrip_cons. cbn [rstrip]. rewrite Hc. reflexivity.
  - rewrite rstrip_cons, IH. reflexivity.
Qed.

Lemma all_chars_rstrip (P : ascii -> bool) (s : string) :
  all_chars P s = true -> all_chars P (rstrip s) = true.
Proof.
  induction s as [|c s IH]; [reflexivity|].
  rewrite all_chars_cons, rstrip_cons. intros H.
  apply andb_prop in H as [Hc Hs]. specialize (IH Hs).
  destruct (rstrip s) as [|d r].
  - destruct (is_space c); [reflexivity|].
    unfold str1. rewrite all_chars_cons, Hc. reflexivity.
  - rewrite all_chars_cons, Hc, IH. reflexivity.
Qed.

Lemma span_rest_head (P : ascii -> bool) (s : string) (c : ascii) (t : string) :
  snd (span P s) = String c t -> P c = false.
Proof.
  induction s as [|d s IH]; [discriminate|].
  cbn [span]. destruct (P d) eqn:Hd.
  - destruct (span P s). cbn [snd] in *. exact IH.
  - cbn [snd]. intros [= -> _]. exact Hd.
Qed.

Lemma lstrip_rstrip_head (c : ascii) (s : string) :
  is_space c = false -> lstrip (rstrip (String c s)) = rstrip (String c s).
Proof.
  intros Hc. rewrite rstrip_cons.
  destruct (rstrip s); [rewrite Hc|]; unfold lstrip, str1; cbn [span];
    rewrite Hc; reflexivity.
Qed.

(** A cell read after the leading whitespace was skipped, with its
    trailing whitespace removed, is a fixed point of [strip]. *)
Lemma stripped_cell (P : ascii -> bool) (s : string) :
  strip (rstrip (fst (span P (Regex.skip_ws s))))
  = rstrip (fst (span P (Regex.skip_ws s))).
Proof.
  unfold strip, Regex.skip_ws.
  destruct (snd (span is_space s)) as [|c t] eqn:E; [reflexivity|].
  apply span_rest_head in E. cbn [span].
  destruct (P c); [|reflexivity].
  destruct (span P t) as [r u]. cbn [fst].
  rewrite (lstrip_rstrip_head c r E). apply rstrip_idempotent.
Qed.

Lemma all_chars_span_fst (P : ascii -> bool) (s : string) :
  all_chars P (fst (span P s)) = true.
Proof. unfold all_chars. rewrite span_fst_closed. reflexivity. Qed.

Lemma sPatItemSpec_capture (s spec_name spec_value r : string) :
  Regex.sPatItemSpec s = Some ((spec_name, spec_value), r) ->
  Regex.nonempty spec_name = true /\
  all_chars (Regex.not_char "<") spec_name = true /\
  all_chars (Regex.not_char "<") spec_value = true /\
  strip spec_value = spec_value.
Proof.
  unfold Regex.sPatItemSpec. intros H.
  destruct (lit_ci "<tr" s) as [s1|]; [|discriminate].
  cbn [mbind option_bind] in H.
  destruct (lit_ci ">" _) as [s2|]; [|discriminate].
  cbn [mbind option_bind] in H.
  destruct (lit_ci "<td" _) as [s3|]; [|discriminate].
  cbn [mbind option_bind] in H.
  destruct (lit_ci ">" _) as [s4|]; [|discriminate].
  cbn [mbind option_bind] in H.
  destruct (Regex.span1 _ s4) as [[n s5]|] eqn:Hn; [|discriminate].
  cbn [mbind option_bind] in H.
  destruct (lit_ci "</td>" s5) as [s6|]; [|discriminate].
  cbn [mbind option_bind] in H.
  destruct (lit_ci "<td>" _) as [s7|]; [|discriminate].
  cbn [mbind option_bind] in H.
  pose proof (stripped_cell (Regex.not_char "<") s7) as Hstrip.
  pose proof (all_chars_span_fst (Regex.not_char "<") (Regex.skip_ws s7))
    as Hcell.
  destruct (span (Regex.not_char "<") (Regex.skip_ws s7)) as [cell s8].
  cbn [fst] in Hstrip, Hcell.
  destruct (lit_ci "</td>" s8) as [s9|]; [|discriminate].
  cbn [mbind option_bind] in H.
  destruct (lit_ci "</tr>" _) as [s10|]; [|discriminate].
  cbn [mbind option_bind] in H. injection H as <- <- <-.
  apply span1_run in Hn as [Hne Hall].
  split; [exact Hne|]. split; [exact Hall|].
  split; [apply all_chars_rstrip, Hcell | exact Hstrip].
Qed.

Lemma digit_run_capture (s run r : string) :
  Regex.digit_run s = Some (run, r) -> Py.isdigit run = true.
Proof.
  unfold Regex.digit_run. intros H. apply span1_run in H as [Hn Hd].
  unfold Py.isdigit. rewrite Hn, Hd. reflexivity.
Qed.

End CaptureFacts.

(** X15: every (label, value) row the specification-table pattern finds
    has a non-empty label, no [<] in the label or in the value, and a value
    without leading or trailing whitespace: the value is what [strip()]
    would leave of it.  (The label is not trimmed.) *)
Theorem spec_rows_are_trimmed (rDocument : string) :
  Forall (fun row : string * string =>
            Regex.nonempty (fst row) = true /\
            Text.all_chars (Regex.not_char "<") (fst row) = true /\
            Text.all_chars (Regex.not_char "<") (snd row) = true /\
            Text.strip (snd row) = snd row)
         (spec_rows rDocument).
Proof.
  unfold spec_rows, Regex.finditer. apply finditer_from_Forall.
  intros s [n v] r H. cbn [fst snd]. exact (sPatItemSpec_capture _ _ _ _ H).
Qed.

(** X16: the shape of the inferred values.  A list value always holds at
    least two strings, each a non-empty run of digits; a string value is
    either the untouched value of an uninterpreted name or a single
    non-empty run of digits; and an uninterpreted name always keeps its
    value as a string. *)
Theorem inferred_tokens_are_digit_runs (rSpecName mSpecValue : string) :
  (forall l, infer_value rSpecName mSpecValue = VList l ->
             (2 <= length l)%nat /\
             Forall (fun t => Py.isdigit t = true) l) /\
  (forall s, infer_value rSpecName mSpecValue = VStr s ->
             (in_list rSpecName uninterpreted = true /\ s = mSpecValue) \/
             (in_list rSpecName uninterpreted = false /\
              Py.isdigit s = true)) /\
  (in_list rSpecName uninterpreted = true ->
   infer_value rSpecName mSpecValue = VStr mSpecValue).
Proof.
  unfold infer_value.
  pose proof (finditer_from_Forall Regex.digit_run
                (fun t => Py.isdigit t = true) digit_run_capture
                mSpecValue 0) as Hruns.
  fold (Regex.finditer Regex.digit_run mSpecValue) in Hruns.
  destruct (in_list rSpecName uninterpreted).
  - split; [discriminate|]. split; [|reflexivity].
    intros s [= <-]. left. auto.
  - split; [|split; [|discriminate]].
    + destruct (String.eqb mSpecValue "No"); [discriminate|].
      destruct (String.eqb mSpecValue "Yes"); [discriminate|].
      destruct (Py.isdigit mSpecValue); [discriminate|].
      destruct (Py.float mSpecValue); [discriminate|].
      destruct (Regex.finditer Regex.digit_run mSpecValue) as [|x [|y l']];
        try discriminate.
      intros l [= <-]. split; [cbn [length]; lia | exact Hruns].
    + destruct (String.eqb mSpecValue "No"); [discriminate|].
      destruct (String.eqb mSpecValue "Yes"); [discriminate|].
      destruct (Py.isdigit mSpecValue); [discriminate|].
      destruct (Py.float mSpecValue); [discriminate|].
      destruct (Regex.finditer Regex.digit_run mSpecValue) as [|x [|y l']];
        try discriminate.
      intros s [= <-]. right. split; [reflexivity|].
      apply Forall_cons_iff in Hruns as [Hx _]. exact Hx.
Qed.

(* ===================================================================== *)
(** ** Where the stored records come from *)
(* ===================================================================== *)

Section Provenance.

Variable web : string -> option string.

Lemma build_db_body_provenance (g : globals) (u : string) (w : world) :
  exists added,
    store (fst (build_db_body web g u w)) = store w ++ added /\
    Forall (extracted web) added.
Proof.
  rewrite build_db_body_run.
  destruct (g_sCol g);
    [|exists []; cbn [fst]; rewrite app_nil_r; auto].
  destruct (Nat.eqb (count_url u (store w)) 1);
    [exists []; cbn [fst]; rewrite app_nil_r; auto|].
  cbn zeta.
  destruct (web (u ++ "/specs")%string) as [rDocument|] eqn:Hweb;
    [|exists []; cbn [fst store]; rewrite app_nil_r; auto].
  destruct (parse_article u rDocument) as [a| |] eqn:Hp;
    [|exists []; cbn [fst store]; rewrite app_nil_r; auto..].
  exists [a]. split; [reflexivity|]. constructor; [|constructor].
  unfold extracted. rewrite extract_article_data_run.
  pose proof (parse_article_ok _ _ _ Hp) as (Hurl & _).
  rewrite Hurl, Hweb. exact Hp.
Qed.

End Provenance.

(** X17: every record a crawl inserts is exactly the record
    [extract_article_data] returns for that record's own URL on the same
    web, and its price is not negative; records are never made up,
    completed by hand or stored after a failed extraction. *)
Theorem crawl_inserts_what_extraction_returns
        (web : string -> option string) (g : globals) (fuel : nat)
        (w : world) :
  exists added,
    store (fst (build_db web g fuel w)) = store w ++ added /\
    forall a, In a added ->
              snd (extract_article_data web (URL a) (World [] [])) = Ok a /\
              (0 <= price a)%Z.
Proof.
  assert (H : exists added,
             store (fst (build_db web g fuel w)) = store w ++ added /\
             Forall (extracted web) added).
  { unfold build_db. unfold mbind, M_bind, bind, of_option, ret, raise.
    destruct (g_rSearchURL g) as [rSearchURL|];
      [|exists []; cbn [fst]; rewrite app_nil_r; auto].
    unfold iter_articles.
    apply (iter_articles_related web
             (fun w1 w2 => exists added,
                  store w2 = store w1 ++ added /\
                  Forall (extracted web) added)).
    - intros w0. exists []. rewrite app_nil_r. auto.
    - intros w1 w2 w3 (a1 & Hs1 & Hf1) (a2 & Hs2 & Hf2).
      exists (a1 ++ a2). rewrite Hs2, Hs1, <- app_assoc.
      split; [reflexivity | apply Forall_app; auto].
    - intros e w0. exists []. cbn [store]. rewrite app_nil_r. auto.
    - intros u w0. apply build_db_body_provenance. }
  destruct H as (added & Hstore & Hall). exists added.
  split; [exact Hstore|]. intros a Ha.
  rewrite List.Forall_forall in Hall. specialize (Hall a Ha).
  split; [exact Hall|]. unfold extracted in Hall.
  rewrite extract_article_data_run in Hall. cbn [snd] in Hall.
  destruct (web (URL a ++ "/specs")%string) as [rDocument|]; [|discriminate].
  destruct (parse_article_fields _ _ _ Hall) as (_ & (p & Hp & ->) & _).
  apply (price_figure_converts _ _ Hp).
Qed.

(* ===================================================================== *)
(** ** Minimum and maximum per rating *)
(* ===================================================================== *)

Section SpreadBounds.

Lemma fold_min_num (ps : list Z) :
  forall m,
    fold_left (fun (n : Stats.num) p =>
                 if Stats.int_lt p n then Stats.NInt p else n)
              ps (Stats.NInt m)
    = Stats.NInt (fold_left Z.min ps m).
Proof.
  induction ps as [|p ps IH]; intros m; [reflexivity|].
  cbn [fold_left Stats.int_lt].
  destruct (Z.ltb_spec p m) as [Hlt|Hge].
  - rewrite IH. f_equal. f_equal. lia.
  - rewrite IH. f_equal. f_equal. lia.
Qed.

Lemma fold_max_num (ps : list Z) :
  forall m,
    fold_left (fun (n : Stats.num) p =>
                 if Stats.int_gt p n then Stats.NInt p else n)
              ps (Stats.NInt m)
    = Stats.NInt (fold_left Z.max ps m).
Proof.
  induction ps as [|p ps IH]; intros m; [reflexivity|].
  cbn [fold_left Stats.int_gt].
  destruct (Z.ltb_spec m p) as [Hlt|Hge].
  - rewrite IH. f_equal. f_equal. lia.
  - rewrite IH. f_equal. f_equal. lia.
Qed.

Lemma group_stats_bounds (fRating p0 : Z) (ps : list Z)
      (line : Stats.rating_stats) :
  finite_price p0 ->
  Stats.group_stats fRating (p0 :: ps) = inr line ->
  Stats.fRating line = fRating /\
  Stats.fMin line = Stats.NInt (fold_left Z.min ps p0) /\
  Stats.fMax line = Stats.NInt (fold_left Z.max ps p0).
Proof.
  intros [Hlo Hhi]. unfold Stats.group_stats. intros [= <-].
  cbn [Stats.fRating Stats.fMin Stats.fMax fold_left Stats.int_lt Stats.int_gt].
  rewrite Hlo, Hhi, fold_min_num, fold_max_num. auto.
Qed.

Lemma stats_of_groups_lines (groups : list (Z * list Z))
      (lines : list Stats.rating_stats) (line : Stats.rating_stats) :
  stats_of_groups groups = inr lines ->
  In line lines ->
  exists g, In g groups /\ Stats.group_stats (fst g) (snd g) = inr line.
Proof.
  revert lines. induction groups as [|[fRating prices] groups IH];
    intros lines H Hin.
  - injection H as <-. contradiction.
  - cbn [stats_of_groups] in H.
    destruct (Stats.group_stats fRating prices) as [e|l0] eqn:Hg;
      [discriminate|].
    destruct (stats_of_groups groups) as [e|lines'] eqn:Hs; [discriminate|].
    injection H as <-. destruct Hin as [<-|Hin].
    + exists (fRating, prices). split; [left; reflexivity | exact Hg].
    + destruct (IH lines' eq_refl Hin) as (g & Hg' & Hst).
      exists g. split; [right; exact Hg' | exact Hst].
Qed.

Lemma prices_of_rating (col : list article) (r : Z) (prices : list Z) :
  In (r, prices) (prices_by_rating col) ->
  prices = map price (List.filter (fun a => bool_decide (rating a = r)) col).
Proof.
  intros Hin. unfold prices_by_rating in Hin.
  rewrite <- (group_values_In r prices _ (group_pairs_NoDup _) Hin).
  rewrite group_pairs_values. clear Hin.
  induction col as [|a col IH]; [reflexivity|].
  cbn [map List.filter fst]. destruct (bool_decide (rating a = r));
    cbn [map snd]; rewrite IH; reflexivity.
Qed.

End SpreadBounds.

(** X18: in every line [price_spread_by_rating] prints, the minimum and
    the maximum are the least and the greatest price among the records
    carrying the line's rating, both attained by such a record - provided
    each price converts to a finite float, as every price of magnitude
    below 2^63 does. *)
Theorem price_spread_min_max
        (col : list article) (lines : list Stats.rating_stats)
        (line : Stats.rating_stats) :
  (forall a, In a col -> finite_price (price a)) ->
  price_spread_by_rating col = inr lines ->
  In line lines ->
  exists lo hi,
    Stats.fMin line = Stats.NInt lo /\
    Stats.fMax line = Stats.NInt hi /\
    (forall a, In a col -> rating a = Stats.fRating line ->
               (lo <= price a <= hi)%Z) /\
    (exists a, In a col /\ rating a = Stats.fRating line /\ price a = lo) /\
    (exists a, In a col /\ rating a = Stats.fRating line /\ price a = hi).
Proof.
  intros Hfin Hlines Hline.
  destruct (stats_of_groups_lines _ _ _ Hlines Hline) as ([r prices] & Hg & Hst).
  cbn [fst snd] in Hst.
  pose proof (prices_of_rating col r prices Hg) as Hprices.
  assert (Hmem : forall a,
             In a (List.filter (fun a => bool_decide (rating a = r)) col)
             <-> In a col /\ rating a = r).
  { intros a. rewrite filter_In, bool_decide_eq_true. reflexivity. }
  subst prices.
  destruct (List.filter (fun a => bool_decide (rating a = r)) col)
    as [|a0 members].
  { discriminate Hst. }
  cbn [map] in Hst.
  assert (Ha0 : In a0 col /\ rating a0 = r) by (apply Hmem; left; reflexivity).
  destruct (group_stats_bounds _ _ _ _ (Hfin a0 (proj1 Ha0)) Hst)
    as (Hr & Hmin & Hmax).
  destruct (fold_min_spec (map price members) (price a0)) as (Hl1 & Hl2 & Hl3).
  destruct (fold_max_spec (map price members) (price a0)) as (Hh1 & Hh2 & Hh3).
  exists (fold_left Z.min (map price members) (price a0)),
         (fold_left Z.max (map price members) (price a0)).
  split; [exact Hmin|]. split; [exact Hmax|]. rewrite Hr.
  split; [|split].
  - intros a Ha Hra.
    assert (Hin : In a (a0 :: members)) by (apply Hmem; auto).
    destruct Hin as [<-|Hin]; [lia|].
    pose proof (Hl2 _ (in_map price _ _ Hin)).
    pose proof (Hh2 _ (in_map price _ _ Hin)). lia.
  - change (price a0 :: map price members)
      with (map price (a0 :: members)) in Hl3.
    apply in_map_iff in Hl3 as (a & Ha & Hin).
    apply Hmem in Hin as [Hin Hra]. exists a. auto.
  - change (price a0 :: map price members)
      with (map price (a0 :: members)) in Hh3.
    apply in_map_iff in Hh3 as (a & Ha & Hin).
    apply Hmem in Hin as [Hin Hra]. exists a. auto.
Qed.

Lemma price_spread_min_max_witness :
  exists lo hi,
    Stats.fMin (Stats.RatingStats 4 200%float (Stats.NInt 200)
                                  (Stats.NInt 200) 0%float)
    = Stats.NInt lo /\
    Stats.fMax (Stats.RatingStats 4 200%float (Stats.NInt 200)
                                  (Stats.NInt 200) 0%float)
    = Stats.NInt hi /\
    (forall a, In a fixture_store ->
               rating a = Stats.fRating
                            (Stats.RatingStats 4 200%float (Stats.NInt 200)
                                               (Stats.NInt 200) 0%float) ->
               (lo <= price a <= hi)%Z) /\
    (exists a, In a fixture_store /\
               rating a = Stats.fRating
                            (Stats.RatingStats 4 200%float (Stats.NInt 200)
                                               (Stats.NInt 200) 0%float) /\
               price a = lo) /\
    (exists a, In a fixture_store /\
               rating a = Stats.fRating
                            (Stats.RatingStats 4 200%float (Stats.NInt 200)
                                               (Stats.NInt 200) 0%float) /\
               price a = hi).
Proof.
  assert (Hfin : forall a, In a fixture_store -> finite_price (price a)).
  { intros a [<-|[<-|[<-|[]]]]; split; vm_compute; reflexivity. }
  destruct (price_spread_by_rating fixture_store) as [e|lines] eqn:Hlines;
    [vm_compute in Hlines; discriminate Hlines|].
  apply (price_spread_min_max fixture_store lines _ Hfin Hlines).
  vm_compute in Hlines. injection Hlines as <-.
  right. left. reflexivity.
Defined.

(* ===================================================================== *)
(** ** A crawl that ends normally *)
(* ===================================================================== *)

Section Completeness.

Variable web : string -> option string.
Variable g : globals.

Lemma count_url_present (rURL : string) (col : list article) :
  count_url rURL col = 1%nat -> In rURL (map URL col).
Proof.
  intros Hc. destruct (in_dec string_dec rURL (map URL col)) as [Hin|Hnot];
    [exact Hin|].
  rewrite (count_url_absent rURL col Hnot) in Hc. discriminate Hc.
Qed.

Lemma crawl_step_complete (u : string) (w w' : world) :
  all_yielded_stored w ->
  (emit (Yield u) ;; build_db_body web g u) w = (w', Ok tt) ->
  all_yielded_stored w'.
Proof.
  intros Hinv. unfold mbind, M_bind, bind, emit.
  rewrite build_db_body_run. cbn [store trace].
  destruct (g_sCol g); [|discriminate].
  destruct (Nat.eqb_spec (count_url u (store w)) 1) as [Hc|Hc].
  - intros [= <-]. intros x. cbn [store trace].
    rewrite yields_app, in_app_iff. intros [Hx|[<-|[]]]; [apply Hinv, Hx|].
    apply count_url_present, Hc.
  - cbn zeta.
    destruct (web (u ++ "/specs")%string) as [rDocument|]; [|discriminate].
    destruct (parse_article u rDocument) as [a| |] eqn:Hp; try discriminate.
    intros [= <-]. intros x. cbn [store trace].
    pose proof (parse_article_ok _ _ _ Hp) as (Hurl & _).
    rewrite !yields_app, map_app, !in_app_iff. cbn [yields flat_map map app].
    rewrite Hurl. intros [[Hx|[<-|[]]]|[]].
    + left. apply Hinv, Hx.
    + right. left. reflexivity.
Qed.

Lemma for_each_complete (l : list string) :
  forall w w',
    all_yielded_stored w ->
    for_each l (fun rArticleURL =>
                  emit (Yield rArticleURL) ;; build_db_body web g rArticleURL) w
    = (w', Ok tt) ->
    all_yielded_stored w'.
Proof.
  induction l as [|u l IH]; intros w w' Hinv H.
  - injection H as <-. exact Hinv.
  - cbn [for_each] in H. unfold bind at 1 in H.
    destruct ((emit (Yield u) ;; build_db_body web g u) w)
      as [w1 [[]| |]] eqn:Hstep; try discriminate.
    apply (IH w1 w'); [|exact H].
    apply (crawl_step_complete u w w1 Hinv Hstep).
Qed.

Lemma iter_articles_complete (rSearchURL : string) (fuel : nat) :
  forall iPage w w',
    all_yielded_stored w ->
    iter_articles_from web fuel rSearchURL iPage (build_db_body web g) w
    = (w', Ok tt) ->
    all_yielded_stored w'.
Proof.
  induction fuel as [|fuel IH]; intros iPage w w' Hinv H; [discriminate|].
  rewrite iter_articles_step in H. cbn zeta in H.
  destruct (web (page_url rSearchURL iPage)) as [rDocument|]; [|discriminate].
  assert (H1 : all_yielded_stored
                 (World (store w)
                        (trace w ++ [Fetch (page_url rSearchURL iPage)]))).
  { intros x. cbn [store trace]. rewrite yields_app, in_app_iff.
    intros [Hx|[]]. apply Hinv, Hx. }
  destruct (for_each _ _ _) as [w2 [[]| |]] eqn:Hfe; try discriminate.
  pose proof (for_each_complete _ _ _ H1 Hfe) as H2.
  destruct (has_next_marker rDocument).
  - apply (IH _ _ _ H2 H).
  - injection H as <-. exact H2.
Qed.

End Completeness.

(** X19: a crawl that ends normally leaves every discovered article in the
    collection: if every URL yielded before the crawl is stored and
    [build_db] returns without an exception, then every URL the page
    generator yielded during the crawl is the URL of a stored record. *)
Theorem crawl_stores_every_discovered_article
        (web : string -> option string) (g : globals) (fuel : nat)
        (w w' : world) :
  all_yielded_stored w ->
  build_db web g fuel w = (w', Ok tt) ->
  all_yielded_stored w'.
Proof.
  intros Hinv. unfold build_db.
  unfold mbind, M_bind, bind, of_option, ret, raise.
  destruct (g_rSearchURL g) as [rSearchURL|]; [|discriminate].
  unfold iter_articles. apply iter_articles_complete. exact Hinv.
Qed.

Lemma crawl_stores_every_discovered_article_witness :
  all_yielded_stored
    (World [Article "/onkyo" "Onkyo TX-NR609" 500 5
                    (build_spec (spec_rows sample_specs_page))]
           [Fetch "L&page=0"; Yield "/onkyo"; Fetch "/onkyo/specs"]).
Proof.
  apply (crawl_stores_every_discovered_article small_web
           (Globals (Some "L") true) 3 (World [] [])).
  - intros u [].
  - vm_compute. reflexivity.
Defined.
